(** * HSLuv / HPLuv colour conversions (hsluv.c): a binary64 model

    The C source computes on [double].  It is embedded here over Rocq's
    primitive [float] (IEEE 754 binary64, round to nearest even), one
    primitive operation per C operator, in the order in which C's grammar
    associates them.  Decimal literals denote the nearest binary64 value,
    exactly as a C compiler reads them.  Assumptions of the model:
    every operation rounds to binary64 (FLT_EVAL_METHOD 0, no contraction
    into fused multiply-add), and [long double] is binary64.

    The functions of <math.h> are not part of the repository: the model
    is parametric in them (class [Libm]).  [sqrt] is the IEEE operation. *)

From Stdlib Require Import ZArith List Bool Lia.
From Stdlib Require Import Floats.
Import ListNotations.

Set Warnings "-inexact-float".
Local Open Scope float_scope.

(** ** Single precision inside binary64 *)

(** [f32 x]: the conversion [(float) x] of C, a binary32 value carried by
    the binary64 number equal to it. *)
Definition f32 (x : float) : float :=
  match Prim2SF x with
  | S754_finite s mx ex => SF2Prim (binary_round 24 128 s mx ex)
  | _ => x
  end.

(** Sum of two binary32 values.  Rounding the binary64 sum once more to
    binary32 gives the binary32 sum (53 >= 2 * 24 + 2). *)
Definition addf (x y : float) : float := f32 (x + y).

(** ** The C library *)

(** The functions of <math.h> that hsluv.c calls.  The single precision
    ones take and return binary32 values (see [f32]). *)
Class Libm : Type := {
  pow : float -> float -> float;
  powl : float -> float -> float;
  sin : float -> float;
  cos : float -> float;
  atan2 : float -> float -> float;
  sqrtf : float -> float;
  powf : float -> float -> float;
  cosf : float -> float;
  sinf : float -> float
}.

(** <float.h>: the largest binary32 number, [(2 - 2^-23) * 2^127]. *)
Definition FLT_MAX : float := 0x1.fffffep+127.

(** ** Data *)

Module Triplet.
Record t : Set := mk { a : float; b : float; c : float }.
End Triplet.

Module Bounds.
Record t : Set := mk { a : float; b : float }.
End Bounds.

(* for RGB *)
Definition m : list Triplet.t :=
  [ Triplet.mk 3.2409699419045214 (-1.5373831775700935) (-0.49861076029300328);
    Triplet.mk (-0.96924363628087983) 1.8759675015077207 0.041555057407175613;
    Triplet.mk 0.055630079696993609 (-0.20397695888897657) 1.0569715142428786 ].

(* for XYZ *)
Definition m_inv : list Triplet.t :=
  [ Triplet.mk 0.41239079926595948 0.35758433938387796 0.18048078840183429;
    Triplet.mk 0.21263900587151036 0.71516867876775593 0.072192315360733715;
    Triplet.mk 0.019330818715591851 0.11919477979462599 0.95053215224966058 ].

Definition pi : float := 3.14159265358979323846.

Definition ref_u : float := 0.19783000664283681.
Definition ref_v : float := 0.468319994938791.

Definition kappa : float := 903.2962962962963.
Definition epsilon : float := 0.0088564516790356308.

Section Hsluv.
Context {libm : Libm}.

(** ** Gamut boundary *)

(** The two lines of one channel, [t = 0] then [t = 1] (the C loop
    converts the [int t] to [double]). *)
Definition channel_bounds (l sub2 : float) (row : Triplet.t) : list Bounds.t :=
  let m1 := Triplet.a row in
  let m2 := Triplet.b row in
  let m3 := Triplet.c row in
  map (fun t =>
         let top1 := (284517.0 * m1 - 94839.0 * m3) * sub2 in
         let top2 := (838422.0 * m3 + 769860.0 * m2 + 731718.0 * m1) * l * sub2
                     - 769860.0 * t * l in
         let bottom := (632260.0 * m3 - 126452.0 * m2) * sub2 + 126452.0 * t in
         Bounds.mk (top1 / bottom) (top2 / bottom))
      [0.0; 1.0].

(** [bounds[channel * 2 + t]], for [channel] in 0..2 and [t] in 0..1. *)
Definition get_bounds (l : float) : list Bounds.t :=
  let sub1 := pow (l + 16.0) 3.0 / 1560896.0 in
  let sub2 := if epsilon <? sub1 then sub1 else l / kappa in
  flat_map (channel_bounds l sub2) m.

Definition intersect_line_line (line1 line2 : Bounds.t) : float :=
  (Bounds.b line1 - Bounds.b line2) / (Bounds.a line2 - Bounds.a line1).

Definition dist_from_pole (x y : float) : float :=
  sqrt (x * x + y * y).

Definition ray_length_until_intersect (theta : float) (line : Bounds.t) : float :=
  Bounds.b line / (sin theta - Bounds.a line * cos theta).

(** The body of both minimum loops:
    [if (v >= 0) { if (v < min_len) min_len = v; }]. *)
Definition keep_min (min_len v : float) : float :=
  if 0 <=? v then (if v <? min_len then v else min_len) else min_len.

(** The [distance] computed for [bounds[i]] in [max_safe_chroma_for_l]. *)
Definition pole_distance (bi : Bounds.t) : float :=
  let m1 := Bounds.a bi in
  let b1 := Bounds.b bi in
  (* x where line intersects with perpendicular running though (0, 0) *)
  let line2 := Bounds.mk (-1.0 / m1) 0.0 in
  let x := intersect_line_line bi line2 in
  dist_from_pole x (b1 + x * m1).

Definition max_safe_chroma_for_l (l : float) : float :=
  fold_left (fun min_len bi => keep_min min_len (pole_distance bi))
            (get_bounds l) FLT_MAX.

Definition max_chroma_for_lh (l h : float) : float :=
  let hrad := h / 360.0 * pi * 2.0 in
  fold_left (fun min_len bi => keep_min min_len (ray_length_until_intersect hrad bi))
            (get_bounds l) FLT_MAX.

(** ** Transfer function and matrices *)

Definition dot_product (t1 t2 : Triplet.t) : float :=
  Triplet.a t1 * Triplet.a t2 + Triplet.b t1 * Triplet.b t2 + Triplet.c t1 * Triplet.c t2.

(* Used for rgb conversions *)
Definition from_linear (c : float) : float :=
  if c <=? 0.0031308 then 12.92 * c
  else 1.055 * pow c (1.0 / 2.4) - 0.055.

Definition to_linear (c : float) : float :=
  if 0.04045 <? c then pow ((c + 0.055) / (1.0 + 0.055)) 2.4
  else c / 12.92.

(** [m[i]] and [m_inv[i]]. *)
Definition row (mat : list Triplet.t) (i : nat) : Triplet.t :=
  nth i mat (Triplet.mk 0 0 0).

Definition xyz2rgb (in_out : Triplet.t) : Triplet.t :=
  let r := from_linear (dot_product (row m 0) in_out) in
  let g := from_linear (dot_product (row m 1) in_out) in
  let b := from_linear (dot_product (row m 2) in_out) in
  Triplet.mk r g b.

Definition rgb2xyz (in_out : Triplet.t) : Triplet.t :=
  let rgbl := Triplet.mk (to_linear (Triplet.a in_out)) (to_linear (Triplet.b in_out))
                         (to_linear (Triplet.c in_out)) in
  let x := dot_product (row m_inv 0) rgbl in
  let y := dot_product (row m_inv 1) rgbl in
  let z := dot_product (row m_inv 2) rgbl in
  Triplet.mk x y z.

(** ** CIELUV *)

Definition y2l (y : float) : float :=
  if y <=? epsilon then y * kappa
  else 116.0 * powl y (1.0 / 3.0) - 16.0.

Definition l2y (l : float) : float :=
  if l <=? 8.0 then l / kappa
  else powl ((l + 16.0) / 116.0) 3.0.

Definition xyz2luv (in_out : Triplet.t) : Triplet.t :=
  let X := Triplet.a in_out in
  let Y := Triplet.b in_out in
  let Z := Triplet.c in_out in
  let var_u := (4.0 * X) / (X + (15.0 * Y) + (3.0 * Z)) in
  let var_v := (9.0 * Y) / (X + (15.0 * Y) + (3.0 * Z)) in
  let l := y2l Y in
  let u := 13.0 * l * (var_u - ref_u) in
  let v := 13.0 * l * (var_v - ref_v) in
  if l <? 0.00000001 then Triplet.mk l 0.0 0.0
  else Triplet.mk l u v.

Definition luv2xyz (in_out : Triplet.t) : Triplet.t :=
  if Triplet.a in_out <=? 0.00000001 then
    (* Black will create a divide-by-zero error. *)
    Triplet.mk 0.0 0.0 0.0
  else
    let var_u := Triplet.b in_out / (13.0 * Triplet.a in_out) + ref_u in
    let var_v := Triplet.c in_out / (13.0 * Triplet.a in_out) + ref_v in
    let y := l2y (Triplet.a in_out) in
    let x := - (9.0 * y * var_u) / ((var_u - 4.0) * var_v - var_u * var_v) in
    let z := (9.0 * y - (15.0 * var_v * y) - (var_v * x)) / (3.0 * var_v) in
    Triplet.mk x y z.

Definition luv2lch (in_out : Triplet.t) : Triplet.t :=
  let l := Triplet.a in_out in
  let u := Triplet.b in_out in
  let v := Triplet.c in_out in
  let c := sqrtf (addf (powf (f32 u) (f32 2.0)) (powf (f32 v) (f32 2.0))) in
  (* Grays: disambiguate hue *)
  let h :=
    if c <? 0.00000001 then 0.0
    else
      let h := atan2 v u * (360.0 / 2.0 / pi) in
      if h <? 0.0 then h + 360.0 else h in
  Triplet.mk l c h.

Definition lch2luv (in_out : Triplet.t) : Triplet.t :=
  let hrad := Triplet.c in_out * (2.0 * pi / 360.0) in
  let u := cosf (f32 hrad) * Triplet.b in_out in
  let v := sinf (f32 hrad) * Triplet.b in_out in
  Triplet.mk (Triplet.a in_out) u v.

(** ** HSLuv and HPLuv *)

Definition hsluv2lch (in_out : Triplet.t) : Triplet.t :=
  let h := Triplet.a in_out in
  let s := Triplet.b in_out in
  let l := Triplet.c in_out in
  (* White and black: disambiguate chroma *)
  let c :=
    if (99.9999999 <? l) || (l <? 0.00000001) then 0.0
    else max_chroma_for_lh l h / 100.0 * s in
  (* Grays: disambiguate hue *)
  let h := if s <? 0.00000001 then 0.0 else h in
  Triplet.mk l c h.

Definition lch2hsluv (in_out : Triplet.t) : Triplet.t :=
  let l := Triplet.a in_out in
  let c := Triplet.b in_out in
  let h := Triplet.c in_out in
  (* White and black: disambiguate saturation *)
  let s :=
    if (99.9999999 <? l) || (l <? 0.00000001) then 0.0
    else c / max_chroma_for_lh l h * 100.0 in
  (* Grays: disambiguate hue *)
  let h := if c <? 0.00000001 then 0.0 else h in
  Triplet.mk h s l.

Definition hpluv2lch (in_out : Triplet.t) : Triplet.t :=
  let h := Triplet.a in_out in
  let s := Triplet.b in_out in
  let l := Triplet.c in_out in
  (* White and black: disambiguate chroma *)
  let c :=
    if (99.9999999 <? l) || (l <? 0.00000001) then 0.0
    else max_safe_chroma_for_l l / 100.0 * s in
  (* Grays: disambiguate hue *)
  let h := if s <? 0.00000001 then 0.0 else h in
  Triplet.mk l c h.

Definition lch2hpluv (in_out : Triplet.t) : Triplet.t :=
  let l := Triplet.a in_out in
  let c := Triplet.b in_out in
  let h := Triplet.c in_out in
  (* White and black: disambiguate saturation *)
  let s :=
    if (99.9999999 <? l) || (l <? 0.00000001) then 0.0
    else c / max_safe_chroma_for_l l * 100.0 in
  (* Grays: disambiguate hue *)
  let h := if c <? 0.00000001 then 0.0 else h in
  Triplet.mk h s l.

(** ** Entry points *)

Definition hsluv2rgb (h s l : float) : Triplet.t :=
  xyz2rgb (luv2xyz (lch2luv (hsluv2lch (Triplet.mk h s l)))).

Definition hpluv2rgb (h s l : float) : Triplet.t :=
  xyz2rgb (luv2xyz (lch2luv (hpluv2lch (Triplet.mk h s l)))).

Definition rgb2hsluv (r g b : float) : Triplet.t :=
  lch2hsluv (luv2lch (xyz2luv (rgb2xyz (Triplet.mk r g b)))).

Definition rgb2hpluv (r g b : float) : Triplet.t :=
  lch2hpluv (luv2lch (xyz2luv (rgb2xyz (Triplet.mk r g b)))).

End Hsluv.

(** ** The loops, as the specification words them *)

Section Chroma.
Context {libm : Libm}.

(** The six values [intercept / (sin Hrad - slope * cos Hrad)], [Hrad]
    being [H] in radians, one per segment of [get_bounds L]. *)
Definition ray_lengths (L H : float) : list float :=
  let Hrad := H / 360.0 * pi * 2.0 in
  map (fun seg => Bounds.b seg / (sin Hrad - Bounds.a seg * cos Hrad))
      (get_bounds L).

(** The six distances from the origin to the foot of the perpendicular
    on each segment's line. *)
Definition pole_distances (L : float) : list float :=
  map pole_distance (get_bounds L).

End Chroma.

Definition nonneg (v : float) : bool := 0 <=? v.

(** [r] is a least element of [vs]. *)
Definition least_of (r : float) (vs : list float) : Prop :=
  In r vs /\ Forall (fun v => (r <=? v) = true) vs.

(** ** White *)

Section White.
Context {libm : Libm}.


(** [cosf] and [sinf] are finite at the hue [h], in radians as [lch2luv]
    computes them. *)
Definition angle_finite (h : float) : bool :=
  let hrad := h * (2.0 * pi / 360.0) in
  is_finite (cosf (f32 hrad)) && is_finite (sinf (f32 hrad)).

End White.

(** ** Divisions performed *)

(** A computation together with the divisors of the divisions it
    performs, in program order. *)
Definition logged (A : Type) : Type := (A * list float)%type.

Definition ret {A : Type} (x : A) : logged A := (x, []).

Definition bind {A B : Type} (c : logged A) (k : A -> logged B) : logged B :=
  let (x, d1) := c in
  let (y, d2) := k x in
  (y, d1 ++ d2).

Definition divl (x y : float) : logged float := (x / y, [y]).

Notation "x <- c ;; k" := (bind c (fun x => k))
  (at level 61, c at next level, right associativity).

Section Logged.
Context {libm : Libm}.

Definition l2y_log (l : float) : logged float :=
  if l <=? 8.0 then divl l kappa
  else
    q <- divl (l + 16.0) 116.0 ;;
    ret (powl q 3.0).

(** [xyz2luv], statement by statement: both chromaticity quotients are
    computed before [l] is tested. *)
Definition xyz2luv_log (in_out : Triplet.t) : logged Triplet.t :=
  let X := Triplet.a in_out in
  let Y := Triplet.b in_out in
  let Z := Triplet.c in_out in
  var_u <- divl (4.0 * X) (X + (15.0 * Y) + (3.0 * Z)) ;;
  var_v <- divl (9.0 * Y) (X + (15.0 * Y) + (3.0 * Z)) ;;
  let l := y2l Y in
  let u := 13.0 * l * (var_u - ref_u) in
  let v := 13.0 * l * (var_v - ref_v) in
  ret (if l <? 0.00000001 then Triplet.mk l 0.0 0.0 else Triplet.mk l u v).

(** [luv2xyz], statement by statement: the test comes first. *)
Definition luv2xyz_log (in_out : Triplet.t) : logged Triplet.t :=
  if Triplet.a in_out <=? 0.00000001 then
    ret (Triplet.mk 0.0 0.0 0.0)
  else
    qu <- divl (Triplet.b in_out) (13.0 * Triplet.a in_out) ;;
    let var_u := qu + ref_u in
    qv <- divl (Triplet.c in_out) (13.0 * Triplet.a in_out) ;;
    let var_v := qv + ref_v in
    y <- l2y_log (Triplet.a in_out) ;;
    x <- divl (- (9.0 * y * var_u)) ((var_u - 4.0) * var_v - var_u * var_v) ;;
    z <- divl (9.0 * y - (15.0 * var_v * y) - (var_v * x)) (3.0 * var_v) ;;
    ret (Triplet.mk x y z).

End Logged.

(** ** A reference C library

    Each function is evaluated from its power series in fixed point
    ([P] fractional bits; [PB] bits for the reduction of the argument
    of [sin] and [cos]) and rounded once to the target format; powers
    with a small positive integer exponent are computed exactly.  The
    special cases are those of Annex F of the C standard. *)

Module RefLibm.
Local Open Scope Z_scope.

Section Fixed.
Variable p : Z.

Definition fx_one : Z := Z.shiftl 1 p.
Definition fx_mul (u v : Z) : Z := Z.shiftr (u * v) p.
Definition fx_div (u v : Z) : Z := Z.shiftl u p / v.
Definition terms : nat := Z.to_nat (p / 3 + 2).

(* term + term * f / k + term * f^2 / (k (k+1)) + ... *)
Fixpoint exp_sum (n : nat) (k f term : Z) : Z :=
  match n with
  | O => 0
  | S n' => term + exp_sum n' (k + 1) f (fx_mul term f / k)
  end.

(* term - term * r2 / (k (k+1)) + term * r2^2 / (k (k+1) (k+2) (k+3)) - ... *)
Fixpoint trig_sum (n : nat) (k r2 term : Z) : Z :=
  match n with
  | O => 0
  | S n' => term + trig_sum n' (k + 2) r2 (- (fx_mul term r2) / (k * (k + 1)))
  end.

(* pw / k + sg * pw * t2 / (k + 2) + pw * t2^2 / (k + 4) + ... *)
Fixpoint odd_sum (n : nat) (sg k t2 pw : Z) : Z :=
  match n with
  | O => 0
  | S n' => pw / k + odd_sum n' sg (k + 2) t2 (sg * fx_mul pw t2)
  end.

Definition fx_exp (f : Z) : Z := exp_sum terms 1 f fx_one.
Definition fx_sin (r : Z) : Z := trig_sum terms 2 (fx_mul r r) r.
Definition fx_cos (r : Z) : Z := trig_sum terms 1 (fx_mul r r) fx_one.
Definition fx_atanh (t : Z) : Z := odd_sum terms 1 1 (fx_mul t t) t.
Definition fx_atan_small (t : Z) : Z := odd_sum terms (-1) 1 (fx_mul t t) t.

Definition fx_ln2 : Z := 2 * fx_atanh (fx_one / 3).
Definition fx_pi : Z :=
  16 * fx_atan_small (fx_one / 5) - 4 * fx_atan_small (fx_one / 239).

Definition fx_sqrt (v : Z) : Z := Z.sqrt (Z.shiftl v p).

(* atan q = 2 atan (q / (1 + sqrt (1 + q^2))), for 0 <= q <= 1 *)
Definition halve (q : Z) : Z :=
  fx_div q (fx_one + fx_sqrt (fx_one + fx_mul q q)).
Definition fx_atan_unit (q : Z) : Z := 4 * fx_atan_small (halve (halve q)).
End Fixed.

Definition P : Z := 200.
Definition PB : Z := 1300.
Definition ln2 : Z := Eval vm_compute in fx_ln2 P.
Definition pi_P : Z := Eval vm_compute in Z.shiftr (fx_pi (P + 32)) 32.
Definition pi_PB : Z := Eval vm_compute in Z.shiftr (fx_pi (PB + 32)) 32.

Definition fx_atan (q : Z) : Z :=
if q <=? fx_one P then fx_atan_unit P q
else pi_P / 2 - fx_atan_unit P (fx_div P (fx_one P) q).

Section Format.
Variables prec emax : Z.

Definition rnd (v e : Z) : float := SF2Prim (binary_normalize prec emax v e false).
Definition sgn (s : bool) (v : Z) : Z := if s then - v else v.

Definition is_int (mx : positive) (ex : Z) : bool :=
  (0 <=? ex) || (Z.land (Zpos mx) (Z.ones (- ex)) =? 0).
Definition is_odd_int (mx : positive) (ex : Z) : bool :=
  is_int mx ex && Z.odd (Z.shiftl (Zpos mx) ex).

(* ln (mx * 2^ex), P fractional bits *)
Definition fx_ln (mx : positive) (ex : Z) : Z :=
  let d := Z.log2 (Zpos mx) in
  let z := Z.shiftl (Zpos mx) (P - d) in
  (ex + d) * ln2 + 2 * fx_atanh P (fx_div P (z - fx_one P) (z + fx_one P)).

(* exp t, for t with P fractional bits *)
Definition exp_rnd (s : bool) (t : Z) : float :=
  if Z.shiftl 1 (P + 11) <? t then rnd (sgn s 1) 5000
  else if t <? - Z.shiftl 1 (P + 11) then rnd (sgn s 1) (-5000)
  else
    let k := (t + ln2 / 2) / ln2 in
    rnd (sgn s (fx_exp P (t - k * ln2))) (k - P).

Definition pow_ref (x y : float) : float :=
  if (y =? 0)%float then 1%float
  else if (x =? 1)%float then 1%float
  else
    match Prim2SF x, Prim2SF y with
    | S754_nan, _ | _, S754_nan => nan
    | _, S754_infinity sy =>
        if (abs x =? 1)%float then 1%float
        else if xorb (abs x <? 1)%float sy then 0%float else infinity
    | S754_zero sx, S754_finite sy my ey =>
        let r := if sy then infinity else 0%float in
        if sx && is_odd_int my ey then (- r)%float else r
    | S754_infinity sx, S754_finite sy my ey =>
        let r := if sy then 0%float else infinity in
        if sx && is_odd_int my ey then (- r)%float else r
    | S754_finite sx mx ex, S754_finite sy my ey =>
        let n := Z.shiftl (Zpos my) ey in
        if is_int my ey && negb sy && (n <=? 64) then
          rnd (sgn (sx && Z.odd n) (Zpos mx ^ n)) (ex * n)
        else if sx && negb (is_int my ey) then nan
        else exp_rnd (sx && is_odd_int my ey)
                     (Z.shiftl (fx_ln mx ex * sgn sy (Zpos my)) ey)
    | _, _ => nan
    end.

(* x - q * (pi / 2), P fractional bits and the quadrant q mod 4 *)
Definition reduce (sx : bool) (mx : positive) (ex : Z) : Z * Z :=
  let X := sgn sx (Z.shiftl (Zpos mx) (ex + PB)) in
  let h := pi_PB / 2 in
  let q := (X + h / 2) / h in
  (Z.shiftr (X - q * h) (PB - P), q mod 4).

Definition sin_ref (x : float) : float :=
  match Prim2SF x with
  | S754_finite sx mx ex =>
      if Z.log2 (Zpos mx) + ex <? -40 then x
      else
        let '(r, q) := reduce sx mx ex in
        rnd (if q =? 0 then fx_sin P r
             else if q =? 1 then fx_cos P r
             else if q =? 2 then - fx_sin P r
             else - fx_cos P r) (- P)
  | S754_zero _ => x
  | _ => nan
  end.

Definition cos_ref (x : float) : float :=
  match Prim2SF x with
  | S754_finite sx mx ex =>
      if Z.log2 (Zpos mx) + ex <? -40 then 1%float
      else
        let '(r, q) := reduce sx mx ex in
        rnd (if q =? 0 then fx_cos P r
             else if q =? 1 then - fx_sin P r
             else if q =? 2 then - fx_cos P r
             else fx_sin P r) (- P)
  | S754_zero _ => 1%float
  | _ => nan
  end.

End Format.

(* the angle of (x, y) for x, y > 0 given as mx * 2^ex and my * 2^ey *)
Definition fx_angle (my : positive) (ey : Z) (mx : positive) (ex : Z) : Z :=
  let d := (Z.log2 (Zpos my) + ey) - (Z.log2 (Zpos mx) + ex) in
  if d <? -70 then 0
  else if 70 <? d then pi_P / 2
  else
    let s := Z.min ey ex in
    fx_atan (fx_div P (Z.shiftl (Zpos my) (ey - s)) (Z.shiftl (Zpos mx) (ex - s))).

(* binary64 only: a quotient below 2^-70 is its own arc tangent *)
Definition atan2_ref (y x : float) : float :=
  let rnd := rnd 53 1024 in
  match Prim2SF y, Prim2SF x with
  | S754_nan, _ | _, S754_nan => nan
  | S754_zero sy, (S754_zero sx | S754_infinity sx | S754_finite sx _ _) =>
      if sx then rnd (sgn sy pi_P) (- P) else y
  | _, S754_zero _ => rnd (sgn (y <? 0)%float (pi_P / 2)) (- P)
  | S754_infinity sy, S754_infinity sx =>
      rnd (sgn sy (if sx then 3 * pi_P / 4 else pi_P / 4)) (- P)
  | S754_infinity sy, _ => rnd (sgn sy (pi_P / 2)) (- P)
  | S754_finite sy _ _, S754_infinity sx =>
      if sx then rnd (sgn sy pi_P) (- P) else if sy then (-0)%float else 0%float
  | S754_finite sy my ey, S754_finite sx mx ex =>
      let d := (Z.log2 (Zpos my) + ey) - (Z.log2 (Zpos mx) + ex) in
      if (d <? -70) && negb sx then (y / x)%float
      else
        let a := fx_angle my ey mx ex in
        rnd (sgn sy (if sx then pi_P - a else a)) (- P)
  end.

End RefLibm.

Definition ref_libm : Libm := {|
  pow := RefLibm.pow_ref 53 1024;
  powl := RefLibm.pow_ref 53 1024;
  sin := RefLibm.sin_ref 53 1024;
  cos := RefLibm.cos_ref 53 1024;
  atan2 := RefLibm.atan2_ref;
  sqrtf := fun x => SF2Prim (SFsqrt 24 128 (Prim2SF x));
  powf := RefLibm.pow_ref 24 128;
  cosf := RefLibm.cos_ref 24 128;
  sinf := RefLibm.sin_ref 24 128
|}.

(** ** Notions used in the proofs *)

(** The comparison on finite numbers of one sign, read on (exponent,
    mantissa) pairs. *)
Definition lex_le (e1 : Z) (m1 : positive) (e2 : Z) (m2 : positive) : Prop :=
  (e1 < e2)%Z \/ (e1 = e2 /\ (m1 <= m2)%positive).

Section RoundingNotions.
Local Open Scope Z_scope.

(** The state after [k] right shifts of [M]: twice [M] is the mantissa
    times [2^(k+1)], plus the round bit, plus the sticky rest. *)
Definition shifted (k M : Z) (mrs : shr_record) : Prop :=
  0 <= shr_m mrs /\
  exists t, 0 <= t < 2 ^ k /\
    2 * M = shr_m mrs * 2 ^ (k + 1) + (if shr_r mrs then 2 ^ k else 0) + t /\
    shr_s mrs = negb (t =? 0).

(** [Q * 2^g] is [X] rounded to the nearest multiple of [2^g], ties to
    even; differences are doubled to stay in integers. *)
Definition near (X g Q : Z) : Prop :=
  - 2 ^ g <= 2 * X - Q * 2 ^ (g + 1) <= 2 ^ g /\
  (2 * X - Q * 2 ^ (g + 1) = 2 ^ g \/ 2 * X - Q * 2 ^ (g + 1) = - 2 ^ g ->
   Z.even Q = true).

(** Values are counted in units of [2^-Bexp]: every exponent met is above [-Bexp]. *)
Definition Bexp : Z := 2200.

(** What a rounded result denotes, in units of [2^-Bexp]. *)
Definition out_spec (r : spec_float) (V : Z) : Prop :=
  match r with
  | S754_zero false => V = 0
  | S754_finite false m e => Zpos m * 2 ^ (e + Bexp) = V
  | S754_infinity false => 2 ^ (1024 + Bexp) <= V
  | _ => False
  end.

Definition nonneg_finite (x : spec_float) : Prop :=
  (exists s, x = S754_zero s) \/ (exists m e, x = S754_finite false m e).

End RoundingNotions.

(** ** Rounded values of either sign *)

Section RoundedNotions.
Local Open Scope Z_scope.

(** The value of a finite number or a zero, in units of [2^-c]. *)
Definition SFval (c : Z) (x : spec_float) : Z :=
  match x with
  | S754_finite s m e => cond_Zopp s (Zpos m * 2 ^ (e + c))
  | _ => 0
  end.

(** [r] is the positive value [V], in units of [2^-Bexp], rounded to
    binary64. *)
Definition rounds_pos (r : spec_float) (V : Z) : Prop :=
  exists (M : positive) (E Q : Z),
    - Bexp <= E /\ V = Zpos M * 2 ^ (E + Bexp) /\
    near V (fexp prec emax (Zpos (digits2_pos M) + E) + Bexp) Q /\
    out_spec r (Q * 2 ^ (fexp prec emax (Zpos (digits2_pos M) + E) + Bexp)).

(** The same for a value of any sign: rounding is symmetric. *)
Definition rounds (r : spec_float) (V : Z) : Prop :=
  (V = 0 /\ exists s, r = S754_zero s) \/
  (0 < V /\ rounds_pos r V) \/
  (V < 0 /\ rounds_pos (SFopp r) (- V)).

(** A zero or a finite number. *)
Definition SFfinite (x : spec_float) : Prop :=
  match x with
  | S754_zero _ | S754_finite _ _ _ => True
  | _ => False
  end.

End RoundedNotions.

(** ** Rounded quotients *)

Section QuotientNotions.
Local Open Scope Z_scope.

(** [Q * P] is [X] rounded to the nearest multiple of [P], ties to even. *)
Definition near_unit (P X Q : Z) : Prop :=
  - P <= 2 * X - Q * (2 * P) <= P /\
  (2 * X - Q * (2 * P) = P \/ 2 * X - Q * (2 * P) = - P -> Z.even Q = true).

(** The state after [k] right shifts of the quotient [N / D]: mantissa,
    round bit and sticky rest, all counted in [D]-ths. *)
Definition shifted_by (D k N : Z) (mrs : shr_record) : Prop :=
  0 <= shr_m mrs /\
  exists t, 0 <= t < 2 ^ k * D /\
    2 * N = (shr_m mrs * (2 * 2 ^ k) + (if shr_r mrs then 2 ^ k else 0)) * D + t /\
    shr_s mrs = negb (t =? 0).

(** [r] is the quotient [X / D], in units of [2^-Bexp], rounded to
    binary64; [q * 2^E] is the truncated quotient the division computes. *)
Definition rounds_quot (D : Z) (r : spec_float) (X : Z) : Prop :=
  exists q E Q,
    0 <= q /\ - Bexp <= E /\ (q = 0 -> E <= -1074) /\
    q * 2 ^ (E + Bexp) * D <= X < (q + 1) * 2 ^ (E + Bexp) * D /\
    near_unit (2 ^ (fexp prec emax (Zdigits2 q + E) + Bexp) * D) X Q /\
    out_spec r (Q * 2 ^ (fexp prec emax (Zdigits2 q + E) + Bexp)).

End QuotientNotions.

(** * Tactics *)


(** * Facts on binary64 comparisons *)

Section Order.

Lemma SFleb_refl_l (x y : spec_float) :
  SFleb x y = true -> SFleb x x = true.
Proof.
  unfold SFleb.
  destruct x as [sx| [|] | |[|] mx ex], y as [sy| [|] | |[|] my ey]; simpl;
    try discriminate; try reflexivity; intros _;
    rewrite Z.compare_refl, Pos.compare_cont_refl; reflexivity.
Qed.

Lemma SFleb_refl_r (x y : spec_float) :
  SFleb x y = true -> SFleb y y = true.
Proof.
  unfold SFleb.
  destruct x as [sx| [|] | |[|] mx ex], y as [sy| [|] | |[|] my ey]; simpl;
    try discriminate; try reflexivity; intros _;
    rewrite Z.compare_refl, Pos.compare_cont_refl; reflexivity.
Qed.

Lemma SFltb_SFleb (x y : spec_float) :
  SFltb x y = true -> SFleb x y = true.
Proof.
  unfold SFltb, SFleb.
  destruct (SFcompare x y) as [[| |]|]; intros; try discriminate; reflexivity.
Qed.


Lemma lex_cmp_le (e1 e2 : Z) (m1 m2 : positive) :
  match
    match (e1 ?= e2)%Z with
    | Lt => Lt
    | Gt => Gt
    | Eq => Pos.compare_cont Eq m1 m2
    end
  with Lt | Eq => true | Gt => false end = true
  <-> lex_le e1 m1 e2 m2.
Proof.
  unfold lex_le. change (Pos.compare_cont Eq m1 m2) with (m1 ?= m2)%positive.
  destruct (Z.compare_spec e1 e2) as [He|He|He];
    [destruct (Pos.compare_spec m1 m2) as [Hm|Hm|Hm]| |]; split; intros H;
    try reflexivity; try discriminate; subst; try lia.
Qed.

Lemma lex_cmp_ge (e1 e2 : Z) (m1 m2 : positive) :
  match
    match (e1 ?= e2)%Z with
    | Lt => Gt
    | Gt => Lt
    | Eq => CompOpp (Pos.compare_cont Eq m1 m2)
    end
  with Lt | Eq => true | Gt => false end = true
  <-> lex_le e2 m2 e1 m1.
Proof.
  unfold lex_le. change (Pos.compare_cont Eq m1 m2) with (m1 ?= m2)%positive.
  destruct (Z.compare_spec e1 e2) as [He|He|He];
    [destruct (Pos.compare_spec m1 m2) as [Hm|Hm|Hm]| |]; split; intros H;
    try reflexivity; try discriminate; subst; simpl in *; try lia.
Qed.

Lemma lex_le_trans e1 m1 e2 m2 e3 m3 :
  lex_le e1 m1 e2 m2 -> lex_le e2 m2 e3 m3 -> lex_le e1 m1 e3 m3.
Proof. unfold lex_le. lia. Qed.

Lemma lex_le_total e1 m1 e2 m2 :
  lex_le e1 m1 e2 m2 \/ lex_le e2 m2 e1 m1.
Proof. unfold lex_le. lia. Qed.

Lemma SFleb_finite (s1 s2 : bool) m1 e1 m2 e2 :
  SFleb (S754_finite s1 m1 e1) (S754_finite s2 m2 e2) = true <->
  match s1, s2 with
  | true, false => True
  | false, true => False
  | false, false => lex_le e1 m1 e2 m2
  | true, true => lex_le e2 m2 e1 m1
  end.
Proof.
  unfold SFleb, SFcompare. destruct s1, s2.
  - apply lex_cmp_ge.
  - split; auto.
  - split; [discriminate | contradiction].
  - apply lex_cmp_le.
Qed.

Lemma SFleb_trans (x y z : spec_float) :
  SFleb x y = true -> SFleb y z = true -> SFleb x z = true.
Proof.
  destruct x as [sx| [|] | |sx mx ex], y as [sy| [|] | |sy my ey],
           z as [sz| [|] | |sz mz ez];
    try (unfold SFleb; simpl; repeat match goal with s : bool |- _ => destruct s end;
         simpl; congruence).
  rewrite !SFleb_finite. destruct sx, sy, sz; try tauto; intros;
    eapply lex_le_trans; eassumption.
Qed.

Lemma lex_cmp_nlt (e1 e2 : Z) (m1 m2 : positive) :
  match
    match (e1 ?= e2)%Z with
    | Lt => Lt
    | Gt => Gt
    | Eq => Pos.compare_cont Eq m1 m2
    end
  with Lt => true | _ => false end = false
  <-> lex_le e2 m2 e1 m1.
Proof.
  unfold lex_le. change (Pos.compare_cont Eq m1 m2) with (m1 ?= m2)%positive.
  destruct (Z.compare_spec e1 e2) as [He|He|He];
    [destruct (Pos.compare_spec m1 m2) as [Hm|Hm|Hm]| |]; split; intros H;
    try reflexivity; try discriminate; subst; try lia.
Qed.

Lemma lex_cmp_ngt (e1 e2 : Z) (m1 m2 : positive) :
  match
    match (e1 ?= e2)%Z with
    | Lt => Gt
    | Gt => Lt
    | Eq => CompOpp (Pos.compare_cont Eq m1 m2)
    end
  with Lt => true | _ => false end = false
  <-> lex_le e1 m1 e2 m2.
Proof.
  unfold lex_le. change (Pos.compare_cont Eq m1 m2) with (m1 ?= m2)%positive.
  destruct (Z.compare_spec e1 e2) as [He|He|He];
    [destruct (Pos.compare_spec m1 m2) as [Hm|Hm|Hm]| |]; split; intros H;
    try reflexivity; try discriminate; subst; simpl in *; try lia.
Qed.

Lemma SFltb_finite (s1 s2 : bool) m1 e1 m2 e2 :
  SFltb (S754_finite s1 m1 e1) (S754_finite s2 m2 e2) = false <->
  match s1, s2 with
  | true, false => False
  | false, true => True
  | false, false => lex_le e2 m2 e1 m1
  | true, true => lex_le e1 m1 e2 m2
  end.
Proof.
  unfold SFltb, SFcompare. destruct s1, s2.
  - apply lex_cmp_ngt.
  - split; [discriminate | contradiction].
  - split; auto.
  - apply lex_cmp_nlt.
Qed.

Lemma SFleb_total (x y : spec_float) :
  SFleb x x = true -> SFleb y y = true -> SFltb x y = false -> SFleb y x = true.
Proof.
  destruct x as [sx| [|] | |sx mx ex], y as [sy| [|] | |sy my ey];
    try (unfold SFleb, SFltb; simpl; repeat match goal with s : bool |- _ => destruct s end;
         simpl; congruence).
  intros _ _. rewrite SFltb_finite, SFleb_finite. destruct sx, sy; tauto.
Qed.

Lemma leb_trans (x y z : float) :
  (x <=? y) = true -> (y <=? z) = true -> (x <=? z) = true.
Proof. rewrite !leb_spec. apply SFleb_trans. Qed.

Lemma leb_refl_l (x y : float) : (x <=? y) = true -> (x <=? x) = true.
Proof. rewrite !leb_spec. apply SFleb_refl_l. Qed.

Lemma leb_refl_r (x y : float) : (x <=? y) = true -> (y <=? y) = true.
Proof. rewrite !leb_spec. apply SFleb_refl_r. Qed.

Lemma ltb_leb (x y : float) : (x <? y) = true -> (x <=? y) = true.
Proof. rewrite ltb_spec, leb_spec. apply SFltb_SFleb. Qed.

Lemma leb_total (x y : float) :
  (x <=? x) = true -> (y <=? y) = true -> (x <? y) = false -> (y <=? x) = true.
Proof. rewrite !leb_spec, ltb_spec. apply SFleb_total. Qed.

End Order.

(** * Signs, zeros and NaN *)

Section Sign.

Lemma binary_round_aux_pos (prec emax mz ez : Z) (lz : location) :
  let r := binary_round_aux prec emax false mz ez lz in
  r = S754_zero false \/ (exists m' e', r = S754_finite false m' e')
  \/ r = S754_infinity false \/ r = S754_nan.
Proof.
  unfold binary_round_aux.
  destruct (shr_fexp prec emax mz ez lz) as [mrs' e'].
  destruct (shr_fexp prec emax _ e' loc_Exact) as [mrs'' e''].
  destruct (shr_m mrs'') as [|p|p]; auto.
  destruct (Z.leb e'' (emax - prec)); eauto.
Qed.

Lemma SFsqrt_sign (prec emax : Z) (x : spec_float) :
  let r := SFsqrt prec emax x in
  SFltb r (S754_zero false) = false /\
  (SFleb (S754_zero false) r = true \/ r = S754_nan).
Proof.
  destruct x as [s|[|]| |[|] mx ex]; simpl; auto.
  destruct (SFsqrt_core_binary prec emax (Z.pos mx) ex) as [[mz ez] lz].
  destruct (binary_round_aux_pos prec emax mz ez lz) as [H|[(m' & e' & H)|[H|H]]];
    rewrite H; auto.
Qed.

Lemma Prim2SF_nan (x : float) : Prim2SF x = S754_nan -> x = nan.
Proof. intros H. apply Prim2SF_inj. rewrite H. reflexivity. Qed.

Lemma sqrt_not_neg (z : float) : (sqrt z <? 0) = false.
Proof.
  rewrite ltb_spec, sqrt_spec.
  apply (SFsqrt_sign prec emax (Prim2SF z)).
Qed.

Lemma sqrt_nonneg_or_nan (z : float) : (0 <=? sqrt z) = true \/ sqrt z = nan.
Proof.
  rewrite leb_spec. 
  destruct (SFsqrt_sign prec emax (Prim2SF z)) as [_ [H|H]].
  - left. rewrite sqrt_spec. exact H.
  - right. apply Prim2SF_nan. rewrite sqrt_spec. exact H.
Qed.

End Sign.

Section Zero.

Lemma is_finite_cases (x : float) :
  is_finite x = true ->
  (exists s, Prim2SF x = S754_zero s) \/ (exists s m e, Prim2SF x = S754_finite s m e).
Proof.
  unfold is_finite, Prim2SF. intros H.
  apply negb_true_iff, orb_false_iff in H. destruct H as [Hn Hi].
  rewrite Hn, Hi. destruct (is_zero x); [left; eauto|].
  destruct (Z.frexp x) as [r e].
  destruct (shr_fexp prec emax _ _ _) as [mrs e'].
  destruct (shr_m mrs); eauto.
Qed.

Lemma is_zero_cases (x : float) :
  is_zero x = true -> exists s, Prim2SF x = S754_zero s.
Proof.
  unfold is_zero. rewrite eqb_spec. change (Prim2SF zero) with (S754_zero false).
  destruct (Prim2SF x) as [s|[|]| |[|] mx ex]; try discriminate; eauto.
Qed.

Lemma Prim2SF_zero_is_zero (x : float) (s : bool) :
  Prim2SF x = S754_zero s -> is_zero x = true.
Proof.
  unfold is_zero. rewrite eqb_spec. intros ->. reflexivity.
Qed.

Lemma finite_mul_zero (x z : float) :
  is_finite x = true -> is_zero z = true -> is_zero (x * z) = true.
Proof.
  intros Hx Hz. apply is_zero_cases in Hz. destruct Hz as [sz Hz].
  destruct (is_finite_cases x Hx) as [[s H]|(s & mx & ex & H)];
    eapply Prim2SF_zero_is_zero; rewrite mul_spec, H, Hz; reflexivity.
Qed.

Lemma pos_finite_cases (d : float) :
  (0 <? d) = true -> (d <? infinity) = true ->
  exists m e, Prim2SF d = S754_finite false m e.
Proof.
  rewrite !ltb_spec. change (Prim2SF 0) with (S754_zero false).
  change (Prim2SF infinity) with (S754_infinity false).
  destruct (Prim2SF d) as [s|[|]| |[|] md ed]; try discriminate; eauto.
Qed.


End Zero.

(** * Rounding is monotone *)

Section Rounding.
Local Open Scope Z_scope.

(** Rounding of [SpecFloat], read on integers *)

Lemma digits2_pos_log2 (m : positive) :
  Zpos (digits2_pos m) = Z.log2 (Zpos m) + 1.
Proof.
  induction m as [p IH|p IH|]; simpl digits2_pos.
  - rewrite Pos2Z.inj_succ, IH. 
    change (Zpos p~1) with (2 * Zpos p + 1).
    rewrite Z.log2_succ_double by lia. lia.
  - rewrite Pos2Z.inj_succ, IH.
    change (Zpos p~0) with (2 * Zpos p).
    rewrite Z.log2_double by lia. lia.
  - reflexivity.
Qed.

Lemma digits_bounds (x : Z) :
  0 < x -> 2 ^ Z.log2 x <= x < 2 ^ (Z.log2 x + 1).
Proof. intros H. pose proof (Z.log2_spec x H). rewrite <- Z.add_1_r in H0. exact H0. Qed.


Lemma shr_1_spec (m : Z) (r s : bool) :
  0 <= m ->
  shr_1 (Build_shr_record m r s) = Build_shr_record (m / 2) (Z.odd m) (r || s).
Proof.
  intros Hm. destruct m as [|[p|p|]|p]; try lia; simpl shr_1.
  - reflexivity.
  - f_equal. change (Zpos p~1) with (1 + 2 * Zpos p)%Z.
    rewrite Z.add_comm, Z.mul_comm. rewrite Z.div_add_l by lia. reflexivity.
  - f_equal. change (Zpos p~0) with (2 * Zpos p)%Z.
    rewrite Z.mul_comm, Z.div_mul by lia. reflexivity.
  - reflexivity.
Qed.

Lemma shifted_step (k M : Z) (mrs : shr_record) :
  0 <= k -> shifted k M mrs -> shifted (k + 1) M (shr_1 mrs).
Proof.
  intros Hk [Hm (t & Ht & HM & Hs)]. destruct mrs as [m r s].
  cbn [shr_m shr_r shr_s] in Hm, HM, Hs.
  rewrite shr_1_spec by exact Hm. unfold shifted; cbn [shr_m shr_r shr_s]. split.
  - apply Z.div_pos; lia.
  - exists ((if r then 2 ^ k else 0) + t).
    assert (Hp : 0 < 2 ^ k) by (apply Z.pow_pos_nonneg; lia).
    assert (Hp1 : 2 ^ (k + 1) = 2 * 2 ^ k) by (rewrite Z.pow_add_r by lia; lia).
    assert (Hp2 : 2 ^ (k + 1 + 1) = 4 * 2 ^ k)
      by (rewrite !Z.pow_add_r by lia; lia).
    rewrite Hp1, Hp2. rewrite Hp1 in HM.
    pose proof (Z.div_mod m 2 ltac:(lia)) as Hdm.
    rewrite Zmod_odd in Hdm.
    split; [destruct r; lia|]. split.
    + destruct (Z.odd m); destruct r; nia.
    + subst s. destruct r; simpl.
      * symmetry. apply negb_true_iff. apply Z.eqb_neq. lia.
      * reflexivity.
Qed.

Lemma shifted_iter (n : positive) :
  forall (k M : Z) (mrs : shr_record),
    0 <= k -> shifted k M mrs -> shifted (k + Zpos n) M (iter_pos shr_1 n mrs).
Proof.
  induction n as [n IH|n IH|]; intros k M mrs Hk H; simpl iter_pos.
  - replace (k + Zpos n~1) with (k + 1 + Zpos n + Zpos n) by lia.
    apply IH; [lia|]. apply IH; [lia|]. apply shifted_step; assumption.
  - replace (k + Zpos n~0) with (k + Zpos n + Zpos n) by lia.
    apply IH; [lia|]. apply IH; assumption.
  - apply shifted_step; assumption.
Qed.

Lemma shifted_init (M : Z) :
  0 <= M -> shifted 0 M (Build_shr_record M false false).
Proof.
  intros HM. split; [exact HM|]. exists 0. cbn [shr_m shr_r shr_s].
  change (2 ^ 0) with 1. change (2 ^ (0 + 1)) with 2. repeat split; lia.
Qed.


Lemma pow2_pos (g : Z) : 0 <= g -> 0 < 2 ^ g.
Proof. intros. apply Z.pow_pos_nonneg; lia. Qed.

Lemma pow2_succ (g : Z) : 0 <= g -> 2 ^ (g + 1) = 2 * 2 ^ g.
Proof. intros. rewrite Z.pow_add_r by lia. lia. Qed.

Lemma round_near (k M : Z) (mrs : shr_record) :
  0 <= k -> shifted k M mrs ->
  near M k (round_nearest_even (shr_m mrs) (loc_of_shr_record mrs)).
Proof.
  intros Hk [Hm (t & Ht & HM & Hs)]. destruct mrs as [m r s].
  cbn [shr_m shr_r shr_s] in Hm, HM, Hs. unfold near.
  pose proof (pow2_pos k Hk) as Hp. rewrite pow2_succ in * by exact Hk.
  cbn [shr_m]. unfold loc_of_shr_record.
  destruct r, s; cbn [round_nearest_even].
  - (* Gt *) symmetry in Hs. apply negb_true_iff, Z.eqb_neq in Hs.
    split; [nia|]. intros [H|H]; nia.
  - (* tie *) symmetry in Hs. apply negb_false_iff, Z.eqb_eq in Hs. subst t.
    destruct (Z.even m) eqn:He.
    + split; [nia|]. intros _. exact He.
    + split; [nia|]. intros _. rewrite Z.even_add, He. reflexivity.
  - (* Lt *) symmetry in Hs. apply negb_true_iff, Z.eqb_neq in Hs.
    split; [nia|]. intros [H|H]; nia.
  - (* exact *) symmetry in Hs. apply negb_false_iff, Z.eqb_eq in Hs. subst t.
    split; [nia|]. intros [H|H]; nia.
Qed.

Lemma near_scale (X g Q c : Z) :
  0 <= g -> 0 <= c -> near X g Q -> near (X * 2 ^ c) (g + c) Q.
Proof.
  intros Hg Hc [Hb He]. unfold near.
  rewrite pow2_succ in * by lia. rewrite Z.pow_add_r by lia.
  pose proof (pow2_pos c Hc) as Hpc. pose proof (pow2_pos g Hg) as Hpg.
  set (P := 2 ^ g) in *. set (C := 2 ^ c) in *.
  set (D := 2 * X - Q * (2 * P)) in *.
  replace (2 * (X * C) - Q * (2 * (P * C))) with (D * C) by (unfold D; ring).
  split; [nia|]. intros [H|H]; apply He; [left|right]; nia.
Qed.

Lemma near_exact (X g Q : Z) : 0 <= g -> X = Q * 2 ^ g -> near X g Q.
Proof.
  intros Hg ->. unfold near. rewrite pow2_succ by exact Hg.
  pose proof (pow2_pos g Hg). split; [nia|]. intros [H'|H']; nia.
Qed.

Lemma near_mono (X1 X2 g Q1 Q2 : Z) :
  0 <= g -> X1 <= X2 -> near X1 g Q1 -> near X2 g Q2 -> Q1 <= Q2.
Proof.
  intros Hg HX [Hb1 He1] [Hb2 He2]. rewrite pow2_succ in * by exact Hg.
  pose proof (pow2_pos g Hg) as Hp. set (P := 2 ^ g) in *.
  destruct (Z_le_gt_dec Q1 Q2) as [H|H]; [exact H|exfalso].
  assert (Hq : Q1 = Q2 + 1) by nia.
  assert (H1 : Z.even Q1 = true) by (apply He1; right; nia).
  assert (H2 : Z.even Q2 = true) by (apply He2; left; nia).
  subst Q1. rewrite Z.even_add, H2 in H1. discriminate H1.
Qed.

Lemma near_le_grid (X g Q C : Z) :
  0 <= g -> near X g Q -> X <= C * 2 ^ g -> Q <= C.
Proof.
  intros Hg [Hb _] HX. rewrite pow2_succ in * by exact Hg.
  pose proof (pow2_pos g Hg) as Hp. nia.
Qed.

Lemma near_ge_grid (X g Q C : Z) :
  0 <= g -> near X g Q -> C * 2 ^ g <= X -> C <= Q.
Proof.
  intros Hg [Hb _] HX. rewrite pow2_succ in * by exact Hg.
  pose proof (pow2_pos g Hg) as Hp. nia.
Qed.



Lemma shr_fexp_exact (m e : Z) :
  0 <= m ->
  let n := fexp prec emax (Zdigits2 m + e) - e in
  (n <= 0 -> shr_fexp prec emax m e loc_Exact = (Build_shr_record m false false, e)) /\
  (0 < n -> exists mrs, shr_fexp prec emax m e loc_Exact = (mrs, e + n) /\ shifted n m mrs).
Proof.
  intros Hm n. unfold shr_fexp. fold n. unfold shr. cbn [shr_record_of_loc].
  destruct n as [|p|p] eqn:Hn; split; intros H; try lia; try reflexivity.
  eexists. split; [reflexivity|].
  apply (shifted_iter p 0 m _ (Z.le_refl 0)), shifted_init, Hm.
Qed.

Lemma Zdigits2_log2 (m : Z) : 0 < m -> Zdigits2 m = Z.log2 m + 1.
Proof.
  destruct m as [|p|p]; try lia. intros _. simpl Zdigits2. apply digits2_pos_log2.
Qed.

Lemma shifted_quot_lt (n M d : Z) (mrs : shr_record) :
  0 <= n -> 0 <= d -> shifted n M mrs -> M < 2 ^ (d + n) -> shr_m mrs < 2 ^ d.
Proof.
  intros Hn Hd [Hm (t & Ht & HM & _)] HMlt.
  rewrite Z.pow_add_r in HMlt by lia. rewrite pow2_succ in HM by exact Hn.
  pose proof (pow2_pos n Hn). pose proof (pow2_pos d Hd).
  assert (0 <= (if shr_r mrs then 2 ^ n else 0)) by (destruct (shr_r mrs); lia).
  nia.
Qed.

Lemma shifted_quot_ge (n M d : Z) (mrs : shr_record) :
  0 <= n -> 0 <= d -> shifted n M mrs -> 2 ^ (d + n) <= M -> 2 ^ d <= shr_m mrs.
Proof.
  intros Hn Hd [Hm (t & Ht & HM & _)] HMge.
  rewrite Z.pow_add_r in HMge by lia. rewrite pow2_succ in HM by exact Hn.
  pose proof (pow2_pos n Hn). pose proof (pow2_pos d Hd).
  assert ((if shr_r mrs then 2 ^ n else 0) <= 2 ^ n) by (destruct (shr_r mrs); lia).
  nia.
Qed.

Lemma round_nearest_even_bounds (m : Z) (l : location) :
  m <= round_nearest_even m l <= m + 1.
Proof. destruct l as [|[| |]]; simpl; try destruct (Z.even m); lia. Qed.

Lemma pow2_le (a b : Z) : 0 <= a <= b -> 2 ^ a <= 2 ^ b.
Proof. intros. apply Z.pow_le_mono_r; lia. Qed.

Lemma log2_lt_pow2 (x d : Z) : 0 < x -> x < 2 ^ d -> Z.log2 x < d.
Proof. intros Hx H. apply Z.log2_lt_pow2; assumption. Qed.

(** The second normalisation of [binary_round_aux] and its final test. *)
Lemma finish_spec (Q e : Z) :
  0 <= Q <= 2 ^ 53 -> -1074 <= e -> (972 <= e -> 2 ^ 52 <= Q) ->
  out_spec
    (let '(mrs'', e'') := shr_fexp prec emax Q e loc_Exact in
     match shr_m mrs'' with
     | Z0 => S754_zero false
     | Zpos m => if Z.leb e'' (emax - prec) then S754_finite false m e'' else S754_infinity false
     | Zneg _ => S754_nan
     end)
    (Q * 2 ^ (e + Bexp)).
Proof.
  intros HQ He Hbig.
  destruct (shr_fexp_exact Q e (proj1 HQ)) as [Hle Hgt].
  destruct (Z.eq_dec Q 0) as [->|Hnz].
  - rewrite Hle by (simpl Zdigits2; unfold fexp, FloatOps.emin, SpecFloat.emin, prec, emax; lia).
    reflexivity.
  - assert (Hpos : 0 < Q) by lia.
    rewrite (Zdigits2_log2 Q Hpos) in Hle, Hgt.
    destruct (Z.eq_dec Q (2 ^ 53)) as [HQ53|HQ53].
    + assert (Hlog : Z.log2 Q = 53) by (rewrite HQ53; reflexivity).
      rewrite Hlog in Hle, Hgt.
      assert (Hn : fexp prec emax (53 + 1 + e) - e = 1)
        by (unfold fexp, SpecFloat.emin, prec, emax; lia).
      rewrite Hn in Hgt. destruct (Hgt ltac:(lia)) as (mrs & Heq & Hsh).
      rewrite Heq.
      destruct Hsh as [Hm (t & Ht & HM & _)].
      change (2 ^ 1) with 2 in *. change (2 ^ (1 + 1)) with 4 in HM.
      assert (Hv : shr_m mrs = 2 ^ 52).
      { rewrite HQ53 in HM. change (2 ^ 53) with 9007199254740992 in HM.
        change (2 ^ 52) with 4503599627370496.
        destruct (shr_r mrs); lia. }
      rewrite Hv. change (2 ^ 52) with (Zpos 4503599627370496).
      cbv iota beta. unfold emax, prec.
      destruct (Z.leb_spec (e + 1) (1024 - 53)) as [Hfin|Hinf]; cbn [out_spec].
      * rewrite HQ53. replace (e + 1 + Bexp) with ((e + Bexp) + 1) by lia.
        rewrite pow2_succ by (unfold Bexp; lia).
        change (2 ^ 53) with (2 * 4503599627370496). ring.
      * rewrite HQ53. change (2 ^ 53) with (2 ^ 53 * 1).
        rewrite <- Z.mul_assoc, Z.mul_1_l, <- Z.pow_add_r by (unfold Bexp; lia).
        apply pow2_le. unfold Bexp in *. lia.
    + assert (Hlt : Q < 2 ^ 53) by lia.
      pose proof (log2_lt_pow2 Q 53 Hpos Hlt) as Hlog.
      pose proof (Z.log2_nonneg Q) as Hlog0.
      rewrite Hle by (unfold fexp, SpecFloat.emin, prec, emax; lia).
      cbn [shr_m]. destruct Q as [|q|q]; try lia.
      unfold emax, prec.
      destruct (Z.leb_spec e (1024 - 53)) as [Hfin|Hinf]; cbn [out_spec].
      * reflexivity.
      * specialize (Hbig ltac:(lia)).
        apply Z.le_trans with (2 ^ 52 * 2 ^ (e + Bexp)).
        -- rewrite <- Z.pow_add_r by (unfold Bexp; lia). apply pow2_le. unfold Bexp. lia.
        -- apply Z.mul_le_mono_nonneg_r; [apply Z.pow_nonneg; lia|exact Hbig].
Qed.

(** [binary_round_aux] on an exact positive product [M * 2^E]: the result
    denotes [M * 2^E] rounded to nearest-even on the grid [2^fe]. *)
Lemma round_spec (M : positive) (E : Z) :
  let fe := fexp prec emax (Zpos (digits2_pos M) + E) in
  - Bexp <= E ->
  (fe <= E -> E <= 971) ->
  exists Q, 0 <= Q /\ near (Zpos M * 2 ^ (E + Bexp)) (fe + Bexp) Q /\
            out_spec (binary_round_aux prec emax false (Zpos M) E loc_Exact)
                     (Q * 2 ^ (fe + Bexp)).
Proof.
  intros fe HB Hns.
  assert (Hfe : -1074 <= fe /\ Zpos (digits2_pos M) + E - 53 <= fe)
    by (unfold fe, fexp, SpecFloat.emin, prec, emax; lia).
  pose proof (digits2_pos_log2 M) as HdM.
  pose proof (digits_bounds (Zpos M) ltac:(lia)) as [HMlo HMhi].
  rewrite <- HdM in HMhi.
  set (dM := Zpos (digits2_pos M)) in *.
  assert (HdM0 : 1 <= dM) by (pose proof (Z.log2_nonneg (Zpos M)); lia).
  unfold binary_round_aux.
  destruct (shr_fexp_exact (Zpos M) E ltac:(lia)) as [Hle Hgt].
  simpl Zdigits2 in Hle, Hgt. fold dM in Hle, Hgt. fold fe in Hle, Hgt.
  destruct (Z_le_gt_dec (fe - E) 0) as [Hn|Hn].
  - (* the product is on the grid *)
    rewrite (Hle Hn). cbn [shr_m loc_of_shr_record round_nearest_even].
    exists (Zpos M * 2 ^ (E - fe)).
    assert (Hval : Zpos M * 2 ^ (E + Bexp) = Zpos M * 2 ^ (E - fe) * 2 ^ (fe + Bexp)).
    { rewrite <- Z.mul_assoc, <- Z.pow_add_r by (unfold Bexp in *; lia).
      f_equal. f_equal. lia. }
    split; [apply Z.mul_nonneg_nonneg; [lia|apply Z.pow_nonneg; lia]|].
    split; [apply near_exact; [unfold Bexp in *; lia|exact Hval]|].
    rewrite <- Hval. apply finish_spec.
    + split; [lia|]. apply Z.lt_le_incl, Z.lt_le_trans with (2 ^ dM); [exact HMhi|].
      apply pow2_le. lia.
    + lia.
    + intros H. specialize (Hns ltac:(lia)). lia.
  - (* the product is shifted right by [fe - E] *)
    destruct (Hgt ltac:(lia)) as (mrs & Heq & Hsh). rewrite Heq.
    replace (E + (fe - E)) with fe by lia.
    pose proof (round_near (fe - E) (Zpos M) mrs ltac:(lia) Hsh) as Hnear.
    pose proof (round_nearest_even_bounds (shr_m mrs) (loc_of_shr_record mrs)) as Hrb.
    set (Q := round_nearest_even (shr_m mrs) (loc_of_shr_record mrs)) in *.
    assert (Hm0 : 0 <= shr_m mrs) by (destruct Hsh as [H _]; exact H).
    exists Q. split; [lia|]. split.
    + replace (fe + Bexp) with ((fe - E) + (E + Bexp)) by lia.
      apply near_scale; [lia|unfold Bexp in *; lia|exact Hnear].
    + apply finish_spec.
      * split; [lia|].
        assert (shr_m mrs < 2 ^ 53); [|lia].
        apply (shifted_quot_lt (fe - E) (Zpos M) 53 mrs); [lia|lia|exact Hsh|].
        apply Z.lt_le_trans with (2 ^ dM); [exact HMhi|]. apply pow2_le. lia.
      * lia.
      * intros Hbig.
        assert (Hfe' : fe = dM + E - 53)
          by (unfold fe, fexp, SpecFloat.emin, prec, emax in *; lia).
        assert (2 ^ 52 <= shr_m mrs); [|lia].
        apply (shifted_quot_ge (fe - E) (Zpos M) 52 mrs); [lia|lia|exact Hsh|].
        replace (52 + (fe - E)) with (Z.log2 (Zpos M)) by lia. exact HMlo.
Qed.

Lemma valid_finite (m : positive) (e : Z) :
  valid_binary (S754_finite false m e) = true ->
  -1074 <= e <= 971 /\ Zpos m < 2 ^ 53 /\ (-1074 < e -> 2 ^ 52 <= Zpos m).
Proof.
  unfold SpecFloat.valid_binary, bounded, canonical_mantissa. intros H.
  apply andb_true_iff in H. destruct H as [Hc Hb].
  apply Z.eqb_eq in Hc. apply Z.leb_le in Hb.
  pose proof (digits2_pos_log2 m) as Hd.
  pose proof (digits_bounds (Zpos m) ltac:(lia)) as [Hlo Hhi].
  pose proof (Z.log2_nonneg (Zpos m)) as Hl0.
  unfold fexp, SpecFloat.emin, prec, emax in *.
  split; [lia|]. split.
  - apply Z.lt_le_trans with (2 ^ (Z.log2 (Zpos m) + 1)); [exact Hhi|].
    apply pow2_le. lia.
  - intros He. apply Z.le_trans with (2 ^ Z.log2 (Zpos m)); [|exact Hlo].
    apply pow2_le. lia.
Qed.

Lemma magnitude_le (M1 M2 : positive) (E1 E2 : Z) :
  - Bexp <= E1 -> - Bexp <= E2 ->
  Zpos M1 * 2 ^ (E1 + Bexp) <= Zpos M2 * 2 ^ (E2 + Bexp) ->
  Zpos (digits2_pos M1) + E1 <= Zpos (digits2_pos M2) + E2.
Proof.
  intros H1 H2 HX. rewrite !digits2_pos_log2.
  pose proof (digits_bounds (Zpos M1) ltac:(lia)) as [Hlo1 _].
  pose proof (digits_bounds (Zpos M2) ltac:(lia)) as [_ Hhi2].
  pose proof (Z.log2_nonneg (Zpos M1)) as Hn1. pose proof (Z.log2_nonneg (Zpos M2)) as Hn2.
  destruct (Z_le_gt_dec (Z.log2 (Zpos M1) + 1 + E1) (Z.log2 (Zpos M2) + 1 + E2))
    as [H|H]; [exact H|exfalso].
  assert (Ha : 2 ^ (Z.log2 (Zpos M1) + (E1 + Bexp)) <= Zpos M1 * 2 ^ (E1 + Bexp)).
  { rewrite Z.pow_add_r by lia. apply Z.mul_le_mono_nonneg_r; [apply Z.pow_nonneg; lia|exact Hlo1]. }
  assert (Hb : Zpos M2 * 2 ^ (E2 + Bexp) < 2 ^ (Z.log2 (Zpos M2) + 1 + (E2 + Bexp))).
  { rewrite (Z.pow_add_r 2 (Z.log2 (Zpos M2) + 1)) by lia.
    apply Z.mul_lt_mono_pos_r; [apply pow2_pos; lia|exact Hhi2]. }
  assert (Hc : 2 ^ (Z.log2 (Zpos M2) + 1 + (E2 + Bexp)) <= 2 ^ (Z.log2 (Zpos M1) + (E1 + Bexp)))
    by (apply pow2_le; lia).
  lia.
Qed.

(** The rounded values are ordered as the exact ones. *)
Lemma rounded_le (M1 M2 : positive) (E1 E2 Q1 Q2 : Z) :
  let fe1 := fexp prec emax (Zpos (digits2_pos M1) + E1) in
  let fe2 := fexp prec emax (Zpos (digits2_pos M2) + E2) in
  - Bexp <= E1 -> - Bexp <= E2 ->
  Zpos M1 * 2 ^ (E1 + Bexp) <= Zpos M2 * 2 ^ (E2 + Bexp) ->
  near (Zpos M1 * 2 ^ (E1 + Bexp)) (fe1 + Bexp) Q1 ->
  near (Zpos M2 * 2 ^ (E2 + Bexp)) (fe2 + Bexp) Q2 ->
  Q1 * 2 ^ (fe1 + Bexp) <= Q2 * 2 ^ (fe2 + Bexp).
Proof.
  intros fe1 fe2 HB1 HB2 HX Hn1 Hn2.
  pose proof (magnitude_le M1 M2 E1 E2 HB1 HB2 HX) as Hmag.
  pose proof (digits2_pos_log2 M1) as Hd1. pose proof (digits2_pos_log2 M2) as Hd2.
  pose proof (digits_bounds (Zpos M1) ltac:(lia)) as [Hlo1 Hhi1].
  pose proof (digits_bounds (Zpos M2) ltac:(lia)) as [Hlo2 Hhi2].
  pose proof (Z.log2_nonneg (Zpos M1)) as Hl1. pose proof (Z.log2_nonneg (Zpos M2)) as Hl2.
  set (d1 := Zpos (digits2_pos M1) + E1) in *.
  set (d2 := Zpos (digits2_pos M2) + E2) in *.
  assert (Hfe1 : -1074 <= fe1 /\ d1 - 53 <= fe1)
    by (unfold fe1, fexp, SpecFloat.emin, prec, emax; lia).
  assert (Hfe2 : -1074 <= fe2 /\ d2 - 53 <= fe2)
    by (unfold fe2, fexp, SpecFloat.emin, prec, emax; lia).
  assert (Hfe12 : fe1 <= fe2)
    by (unfold fe1, fe2, fexp, SpecFloat.emin, prec, emax; lia).
  assert (Hg1 : 0 <= fe1 + Bexp) by (unfold Bexp; lia).
  assert (Hg2 : 0 <= fe2 + Bexp) by (unfold Bexp; lia).
  destruct (Z.eq_dec fe1 fe2) as [Heq|Hneq].
  - rewrite <- Heq in *.
    apply Z.mul_le_mono_nonneg_r; [apply Z.pow_nonneg; lia|].
    eapply near_mono; [exact Hg1|exact HX|exact Hn1|exact Hn2].
  - assert (Hd2' : fe2 = d2 - 53)
      by (unfold fe1, fe2, fexp, SpecFloat.emin, prec, emax in *; lia).
    (* the larger one is at least [2^52] units of its grid *)
    assert (HQ2 : 2 ^ 52 <= Q2).
    { apply (near_ge_grid _ (fe2 + Bexp) Q2 (2 ^ 52) Hg2 Hn2).
      rewrite <- Z.pow_add_r by lia.
      apply Z.le_trans with (2 ^ (Z.log2 (Zpos M2) + (E2 + Bexp))).
      - apply pow2_le. unfold d2 in *. lia.
      - rewrite Z.pow_add_r by (unfold Bexp in *; lia).
        apply Z.mul_le_mono_nonneg_r; [apply Z.pow_nonneg; lia|exact Hlo2]. }
    (* the smaller one at most [2^53] units of its own *)
    assert (HQ1 : Q1 <= 2 ^ 53).
    { apply (near_le_grid _ (fe1 + Bexp) Q1 (2 ^ 53) Hg1 Hn1).
      rewrite <- Z.pow_add_r by lia.
      apply Z.le_trans with (2 ^ (Z.log2 (Zpos M1) + 1 + (E1 + Bexp))).
      - rewrite (Z.pow_add_r 2 (Z.log2 (Zpos M1) + 1)) by (unfold Bexp in *; lia).
        apply Z.mul_le_mono_nonneg_r; [apply Z.pow_nonneg; lia|lia].
      - apply pow2_le. unfold d1, Bexp in *. lia. }
    apply Z.le_trans with (2 ^ 53 * 2 ^ (fe1 + Bexp)).
    + apply Z.mul_le_mono_nonneg_r; [apply Z.pow_nonneg; lia|exact HQ1].
    + apply Z.le_trans with (2 ^ 52 * 2 ^ (fe2 + Bexp)).
      * rewrite <- !Z.pow_add_r by lia. apply pow2_le. lia.
      * apply Z.mul_le_mono_nonneg_r; [apply Z.pow_nonneg; lia|exact HQ2].
Qed.

(** Values and the comparison of [SpecFloat] agree on valid results. *)
Lemma out_spec_leb (r1 r2 : spec_float) (V1 V2 : Z) :
  out_spec r1 V1 -> out_spec r2 V2 ->
  valid_binary r1 = true -> valid_binary r2 = true ->
  V1 <= V2 -> SFleb r1 r2 = true.
Proof.
  intros H1 H2 Hv1 Hv2 HV.
  destruct r1 as [[|]|[|]| |[|] m1 e1]; try contradiction;
  destruct r2 as [[|]|[|]| |[|] m2 e2]; try contradiction;
    try reflexivity; cbn [out_spec] in H1, H2.
  - (* infinity, zero *)
    exfalso. subst V2. assert (0 < 2 ^ (1024 + Bexp)) by (apply pow2_pos; unfold Bexp; lia). lia.
  - (* infinity, finite *)
    exfalso. pose proof (valid_finite m2 e2 Hv2) as (He2 & Hm2 & _). subst V2.
    assert (Hp2 : 0 < 2 ^ (e2 + Bexp)) by (apply pow2_pos; unfold Bexp; lia).
    assert (Hb : Zpos m2 * 2 ^ (e2 + Bexp) < 2 ^ 53 * 2 ^ (e2 + Bexp))
      by (apply Z.mul_lt_mono_pos_r; [exact Hp2|exact Hm2]).
    assert (Hc : 2 ^ 53 * 2 ^ (e2 + Bexp) <= 2 ^ (1024 + Bexp)).
    { rewrite <- Z.pow_add_r by (unfold Bexp; lia). apply pow2_le. unfold Bexp. lia. }
    lia.
  - (* finite, zero *)
    exfalso. subst V2.
    pose proof (valid_finite m1 e1 Hv1) as (He1 & _).
    assert (0 < Zpos m1 * 2 ^ (e1 + Bexp))
      by (apply Z.mul_pos_pos; [lia|apply pow2_pos; unfold Bexp; lia]).
    lia.
  - (* finite, finite *)
    pose proof (valid_finite m1 e1 Hv1) as (He1 & Hm1 & Hn1).
    pose proof (valid_finite m2 e2 Hv2) as (He2 & Hm2 & Hn2).
    apply SFleb_finite. unfold lex_le. subst V1 V2.
    assert (Hp2 : 0 < 2 ^ (e2 + Bexp)) by (apply pow2_pos; unfold Bexp; lia).
    destruct (Z_lt_le_dec e1 e2) as [Hlt|Hge]; [left; exact Hlt|right].
    destruct (Z.eq_dec e1 e2) as [Heq|Hne].
    + split; [exact Heq|]. subst e2.
      apply Z.mul_le_mono_pos_r in HV; [|exact Hp2]. lia.
    + exfalso. specialize (Hn1 ltac:(lia)).
      assert (Ha : 2 ^ 53 * 2 ^ (e2 + Bexp) <= Zpos m1 * 2 ^ (e1 + Bexp)).
      { apply Z.le_trans with (2 ^ 52 * 2 ^ (e1 + Bexp)).
        - rewrite <- !Z.pow_add_r by (unfold Bexp; lia). apply pow2_le. unfold Bexp. lia.
        - apply Z.mul_le_mono_nonneg_r; [apply Z.pow_nonneg; lia|exact Hn1]. }
      assert (Hb : Zpos m2 * 2 ^ (e2 + Bexp) < 2 ^ 53 * 2 ^ (e2 + Bexp))
        by (apply Z.mul_lt_mono_pos_r; [exact Hp2|exact Hm2]).
      lia.
Qed.

Lemma valid_digits (m : positive) (e : Z) :
  valid_binary (S754_finite false m e) = true ->
  -1074 < e -> Zpos (digits2_pos m) = 53.
Proof.
  unfold SpecFloat.valid_binary, bounded, canonical_mantissa. intros H He.
  apply andb_true_iff in H. destruct H as [Hc _]. apply Z.eqb_eq in Hc.
  unfold fexp, SpecFloat.emin, prec, emax in Hc. lia.
Qed.

(** The order of valid positive numbers, read on values. *)
Lemma lex_le_value (m1 m2 : positive) (e1 e2 c : Z) :
  valid_binary (S754_finite false m1 e1) = true ->
  valid_binary (S754_finite false m2 e2) = true ->
  lex_le e1 m1 e2 m2 -> 1074 <= c ->
  Zpos m1 * 2 ^ (e1 + c) <= Zpos m2 * 2 ^ (e2 + c).
Proof.
  intros Hv1 Hv2 Hlex Hc.
  pose proof (valid_finite m1 e1 Hv1) as (He1 & Hm1 & _).
  pose proof (valid_finite m2 e2 Hv2) as (He2 & _ & Hn2).
  destruct Hlex as [Hlt|[-> Hm]].
  - specialize (Hn2 ltac:(lia)).
    apply Z.le_trans with (2 ^ 53 * 2 ^ (e1 + c)).
    + apply Z.mul_le_mono_nonneg_r; [apply Z.pow_nonneg; lia|lia].
    + apply Z.le_trans with (2 ^ 52 * 2 ^ (e2 + c)).
      * rewrite <- !Z.pow_add_r by lia. apply pow2_le. lia.
      * apply Z.mul_le_mono_nonneg_r; [apply Z.pow_nonneg; lia|exact Hn2].
  - apply Z.mul_le_mono_nonneg_r; [apply Z.pow_nonneg; lia|lia].
Qed.

(** A product of valid numbers that needs no shift is small. *)
Lemma product_no_shift (mk mi : positive) (ek ei : Z) :
  valid_binary (S754_finite false mk ek) = true ->
  valid_binary (S754_finite false mi ei) = true ->
  fexp prec emax (Zpos (digits2_pos (mk * mi)) + (ek + ei)) <= ek + ei ->
  ek + ei <= 971.
Proof.
  intros Hvk Hvi Hfe.
  pose proof (valid_finite mk ek Hvk) as (Hek & _ & _).
  pose proof (valid_finite mi ei Hvi) as (Hei & _ & _).
  destruct (Z.eq_dec ek (-1074)) as [->|Hk]; [lia|].
  destruct (Z.eq_dec ei (-1074)) as [->|Hi]; [lia|].
  exfalso.
  pose proof (valid_digits mk ek Hvk ltac:(lia)) as Hdk.
  pose proof (valid_digits mi ei Hvi ltac:(lia)) as Hdi.
  rewrite digits2_pos_log2 in Hdk, Hdi, Hfe.
  pose proof (Z.log2_mul_below (Zpos mk) (Zpos mi) ltac:(lia) ltac:(lia)) as Hlog.
  rewrite Pos2Z.inj_mul in Hfe.
  unfold fexp, SpecFloat.emin, prec, emax in Hfe. lia.
Qed.

Lemma round_product_spec (mk mi : positive) (ek ei : Z) :
  valid_binary (S754_finite false mk ek) = true ->
  valid_binary (S754_finite false mi ei) = true ->
  let M := (mk * mi)%positive in
  let E := ek + ei in
  let fe := fexp prec emax (Zpos (digits2_pos M) + E) in
  - Bexp <= E /\
  exists Q, 0 <= Q /\ near (Zpos M * 2 ^ (E + Bexp)) (fe + Bexp) Q /\
            out_spec (SFmul prec emax (S754_finite false mk ek) (S754_finite false mi ei))
                     (Q * 2 ^ (fe + Bexp)).
Proof.
  intros Hvk Hvi M E fe.
  pose proof (valid_finite mk ek Hvk) as (Hek & _ & _).
  pose proof (valid_finite mi ei Hvi) as (Hei & _ & _).
  assert (HB : - Bexp <= E) by (unfold Bexp, E; lia).
  split; [exact HB|].
  apply round_spec; [exact HB|].
  apply product_no_shift; assumption.
Qed.

Lemma out_spec_nonneg (r : spec_float) (V : Z) (s : bool) :
  out_spec r V -> SFleb (S754_zero s) r = true.
Proof. destruct r as [[|]|[|]| |[|] m e]; simpl; try contradiction; reflexivity. Qed.


Lemma SFmul_le_compat_l (K S1 S2 : spec_float) :
  nonneg_finite K -> nonneg_finite S1 -> nonneg_finite S2 ->
  valid_binary K = true -> valid_binary S1 = true -> valid_binary S2 = true ->
  valid_binary (SFmul prec emax K S1) = true ->
  valid_binary (SFmul prec emax K S2) = true ->
  SFleb S1 S2 = true ->
  SFleb (SFmul prec emax K S1) (SFmul prec emax K S2) = true.
Proof.
  intros [[sk ->]|(mk & ek & ->)] [[s1 ->]|(m1 & e1 & ->)] [[s2 ->]|(m2 & e2 & ->)]
         HvK Hv1 Hv2 Hvr1 Hvr2 Hle; try reflexivity.
  - (* k * 0 <= k * s2 *)
    destruct (round_product_spec mk m2 ek e2 HvK Hv2) as (_ & Q & _ & _ & Hout).
    change (SFmul prec emax (S754_finite false mk ek) (S754_zero s1))
      with (S754_zero (xorb false s1)).
    eapply out_spec_nonneg. exact Hout.
  - (* s1 > 0 = s2 *) discriminate Hle.
  - destruct (round_product_spec mk m1 ek e1 HvK Hv1) as (HB1 & Q1 & _ & Hn1 & Hout1).
    destruct (round_product_spec mk m2 ek e2 HvK Hv2) as (HB2 & Q2 & _ & Hn2 & Hout2).
    eapply out_spec_leb; [exact Hout1|exact Hout2|exact Hvr1|exact Hvr2|].
    apply rounded_le; try assumption.
    rewrite !Pos2Z.inj_mul, <- !Z.mul_assoc.
    apply Z.mul_le_mono_nonneg_l; [lia|].
    replace (ek + e1 + Bexp) with (e1 + (ek + Bexp)) by lia.
    replace (ek + e2 + Bexp) with (e2 + (ek + Bexp)) by lia.
    pose proof (valid_finite mk ek HvK) as (Hek & _ & _).
    apply lex_le_value; try assumption; [|unfold Bexp; lia].
    apply SFleb_finite in Hle. exact Hle.
Qed.

(** ** Division by a constant above 4 stays finite *)

Lemma quot_step (k m0 : Z) (mrs : shr_record) :
  0 <= k -> 0 <= m0 -> shr_m mrs = m0 / 2 ^ k ->
  shr_m (shr_1 mrs) = m0 / 2 ^ (k + 1).
Proof.
  intros Hk Hm0 Hq. pose proof (pow2_pos k Hk) as Hp.
  assert (Hm : 0 <= shr_m mrs) by (rewrite Hq; apply Z.div_pos; lia).
  destruct mrs as [m r s]. cbn [shr_m] in *. rewrite shr_1_spec by exact Hm.
  cbn [shr_m]. rewrite Hq, Z.div_div by lia. rewrite pow2_succ by exact Hk.
  f_equal. lia.
Qed.

Lemma quot_iter (n : positive) :
  forall (k m0 : Z) (mrs : shr_record),
    0 <= k -> 0 <= m0 -> shr_m mrs = m0 / 2 ^ k ->
    shr_m (iter_pos shr_1 n mrs) = m0 / 2 ^ (k + Zpos n).
Proof.
  induction n as [n IH|n IH|]; intros k m0 mrs Hk Hm0 Hq; simpl iter_pos.
  - replace (k + Zpos n~1) with (k + 1 + Zpos n + Zpos n) by lia.
    apply IH; [lia|exact Hm0|]. apply IH; [lia|exact Hm0|]. apply quot_step; assumption.
  - replace (k + Zpos n~0) with (k + Zpos n + Zpos n) by lia.
    apply IH; [lia|exact Hm0|]. apply IH; assumption.
  - apply quot_step; assumption.
Qed.

Lemma shr_m_iter (n : positive) (mrs : shr_record) :
  0 <= shr_m mrs -> shr_m (iter_pos shr_1 n mrs) = shr_m mrs / 2 ^ Zpos n.
Proof.
  intros Hm. apply (quot_iter n 0 (shr_m mrs) mrs (Z.le_refl 0) Hm).
  change (2 ^ 0) with 1. rewrite Z.div_1_r. reflexivity.
Qed.

Lemma shr_record_of_loc_m (m : Z) (l : location) : shr_m (shr_record_of_loc m l) = m.
Proof. destruct l as [|[| |]]; reflexivity. Qed.

(** A non-negative mantissa of magnitude at most [2^1022] rounds to a
    zero or to a finite positive number. *)
Lemma binary_round_aux_finite (mz ez : Z) (lz : location) :
  0 <= mz -> Zdigits2 mz + ez <= 1022 -> ez <= 969 ->
  let r := binary_round_aux prec emax false mz ez lz in
  r = S754_zero false \/ exists m e, r = S754_finite false m e.
Proof.
  intros Hmz Hd Hez. unfold binary_round_aux.
  set (fe := fexp prec emax (Zdigits2 mz + ez)).
  assert (Hfe : -1074 <= fe <= 969 /\ Zdigits2 mz + ez - 53 <= fe)
    by (unfold fe, fexp, SpecFloat.emin, prec, emax; lia).
  assert (Hmlt : mz < 2 ^ Zdigits2 mz).
  { destruct (Z.eq_dec mz 0) as [->|Hnz]; [reflexivity|].
    rewrite Zdigits2_log2 by lia. apply digits_bounds. lia. }
  assert (Hd0 : 0 <= Zdigits2 mz) by (destruct mz; simpl; lia).
  assert (Hstep1 : exists mrs e', shr_fexp prec emax mz ez lz = (mrs, e') /\
                     0 <= shr_m mrs < 2 ^ 53 /\ -1074 <= e' <= 969).
  { unfold shr_fexp, shr. fold fe.
    destruct (fe - ez) as [|n|n] eqn:Hn.
    - eexists _, _. split; [reflexivity|]. rewrite shr_record_of_loc_m.
      split; [|lia]. split; [lia|].
      apply Z.lt_le_trans with (2 ^ Zdigits2 mz); [exact Hmlt|apply pow2_le; lia].
    - eexists _, _. split; [reflexivity|].
      rewrite shr_m_iter by (rewrite shr_record_of_loc_m; lia).
      rewrite shr_record_of_loc_m. split; [|lia]. split.
      + apply Z.div_pos; [lia|apply pow2_pos; lia].
      + apply Z.div_lt_upper_bound; [apply pow2_pos; lia|].
        rewrite <- Z.pow_add_r by lia.
        apply Z.lt_le_trans with (2 ^ Zdigits2 mz); [exact Hmlt|apply pow2_le; lia].
    - eexists _, _. split; [reflexivity|]. rewrite shr_record_of_loc_m.
      split; [|lia]. split; [lia|].
      apply Z.lt_le_trans with (2 ^ Zdigits2 mz); [exact Hmlt|apply pow2_le; lia]. }
  destruct Hstep1 as (mrs & e' & -> & Hm' & He').
  pose proof (round_nearest_even_bounds (shr_m mrs) (loc_of_shr_record mrs)) as Hrb.
  set (Q := round_nearest_even (shr_m mrs) (loc_of_shr_record mrs)) in *.
  pose proof (finish_spec Q e' ltac:(lia) ltac:(lia) ltac:(lia)) as Hout.
  match type of Hout with out_spec ?r _ => set (res := r) in * end.
  destruct res as [[|]|[|]| |[|] m e]; try contradiction; eauto.
  exfalso. cbn [out_spec] in Hout.
  assert (Hb : Q * 2 ^ (e' + Bexp) <= 2 ^ 53 * 2 ^ (e' + Bexp))
    by (apply Z.mul_le_mono_nonneg_r; [apply Z.pow_nonneg; lia|lia]).
  assert (Hc : 2 ^ 53 * 2 ^ (e' + Bexp) < 2 ^ (1024 + Bexp)).
  { rewrite <- Z.pow_add_r by (unfold Bexp; lia).
    apply Z.pow_lt_mono_r; unfold Bexp; lia. }
  lia.
Qed.

Lemma SFdiv_finite (mx md : positive) (ex ed : Z) :
  valid_binary (S754_finite false mx ex) = true ->
  2 ^ 52 <= Zpos md -> -50 <= ed ->
  let r := SFdiv prec emax (S754_finite false mx ex) (S754_finite false md ed) in
  r = S754_zero false \/ exists m e, r = S754_finite false m e.
Proof.
  intros Hv Hmd Hed. cbn [SFdiv xorb].
  pose proof (valid_finite mx ex Hv) as (Hex & Hmx & _).
  unfold SFdiv_core_binary. cbn [Zdigits2].
  rewrite !digits2_pos_log2.
  pose proof (digits_bounds (Zpos mx) ltac:(lia)) as [_ Hxhi].
  pose proof (digits_bounds (Zpos md) ltac:(lia)) as [Hdlo _].
  pose proof (Z.log2_nonneg (Zpos mx)) as Hlx.
  assert (Hld : 52 <= Z.log2 (Zpos md)) by (apply Z.log2_le_pow2; lia).
  assert (Hlx' : Z.log2 (Zpos mx) < 53) by (apply Z.log2_lt_pow2; lia).
  set (dx := Z.log2 (Zpos mx) + 1) in *. set (dd := Z.log2 (Zpos md) + 1) in *.
  set (e' := Z.min (fexp prec emax (dx + ex - (dd + ed))) (ex - ed)).
  assert (He' : e' <= 969 /\ e' <= ex - ed)
    by (unfold e', fexp, SpecFloat.emin, prec, emax; lia).
  set (s := ex - ed - e').
  set (m' := match s with Zpos _ => Z.shiftl (Zpos mx) s | Z0 => Zpos mx | Zneg _ => 0 end).
  assert (Hs : 0 <= s) by (unfold s; lia).
  assert (Hm' : m' = Zpos mx * 2 ^ s).
  { unfold m'. clearbody s. destruct s as [|p|p]; [simpl; lia| |lia].
    rewrite Z.shiftl_mul_pow2 by lia. reflexivity. }
  pose proof (Z_div_mod m' (Zpos md) ltac:(lia)) as Hdiv.
  destruct (Z.div_eucl m' (Zpos md)) as [q r]. destruct Hdiv as [Hqr Hr].
  pose proof (pow2_pos s Hs) as Hps.
  assert (Hq0 : 0 <= q) by nia.
  apply binary_round_aux_finite; [exact Hq0| |lia].
  destruct (Z.eq_dec q 0) as [->|Hqnz]; [simpl; lia|].
  rewrite Zdigits2_log2 by lia.
  assert (Hbig : 52 < dx + s).
  { destruct (Z_lt_le_dec 52 (dx + s)) as [H|H]; [exact H|exfalso].
    assert (Hle : 2 ^ (dx + s) <= 2 ^ 52) by (apply pow2_le; lia).
    rewrite Z.pow_add_r in Hle by lia. nia. }
  assert (Hqlt : q < 2 ^ (dx + s - 52)).
  { assert (Hup : Zpos mx * 2 ^ s < 2 ^ (dx + s - 52) * 2 ^ 52).
    { rewrite <- Z.pow_add_r by lia. replace (dx + s - 52 + 52) with (dx + s) by lia.
      rewrite Z.pow_add_r by lia. apply Z.mul_lt_mono_pos_r; [exact Hps|exact Hxhi]. }
    assert (Hpp : 0 < 2 ^ (dx + s - 52)) by (apply pow2_pos; lia).
    nia. }
  pose proof (Z.log2_lt_pow2 q (dx + s - 52) ltac:(lia)) as [Hlog _].
  specialize (Hlog Hqlt). unfold s, dx in *. lia.
Qed.

End Rounding.

Section MulMonotone.

Lemma nonneg_finite_cases (x : float) :
  (0 <=? x)%float = true -> (x <? infinity)%float = true -> nonneg_finite (Prim2SF x).
Proof.
  rewrite leb_spec, ltb_spec. unfold nonneg_finite.
  change (Prim2SF 0) with (S754_zero false).
  change (Prim2SF infinity) with (S754_infinity false).
  destruct (Prim2SF x) as [s|[|]| |[|] m e]; try discriminate; eauto.
Qed.

(** Multiplication by a non-negative finite number is monotone on the
    non-negative finite numbers. *)
Lemma mul_le_compat_l (k s1 s2 : float) :
  (0 <=? k)%float = true -> (k <? infinity)%float = true ->
  (0 <=? s1)%float = true -> (s1 <=? s2)%float = true -> (s2 <? infinity)%float = true ->
  (k * s1 <=? k * s2)%float = true.
Proof.
  intros Hk Hk' Hs1 Hle Hs2.
  assert (Hs1' : (s1 <? infinity)%float = true).
  { rewrite ltb_spec in *. rewrite leb_spec in Hle.
    change (Prim2SF infinity) with (S754_infinity false) in *.
    destruct (Prim2SF s1) as [?|[|]| |[|] ? ?], (Prim2SF s2) as [?|[|]| |[|] ? ?];
      try discriminate; reflexivity. }
  assert (Hs2' : (0 <=? s2)%float = true) by (eapply leb_trans; eassumption).
  pose proof (Prim2SF_valid (k * s1)) as Hv1. pose proof (Prim2SF_valid (k * s2)) as Hv2.
  rewrite leb_spec, !mul_spec. rewrite mul_spec in Hv1, Hv2.
  apply SFmul_le_compat_l; try apply Prim2SF_valid; try apply nonneg_finite_cases;
    try assumption.
  rewrite <- leb_spec. exact Hle.
Qed.

End MulMonotone.

Section DivConstant.

Lemma leb_FLT_MAX_finite (x : float) :
  (x <=? FLT_MAX) = true -> (x <? infinity) = true.
Proof.
  rewrite leb_spec, ltb_spec.
  change (Prim2SF infinity) with (S754_infinity false).
  change (Prim2SF FLT_MAX) with (S754_finite false 9007198717870080 75).
  destruct (Prim2SF x) as [s|[|]| |[|] mx ex]; try discriminate; reflexivity.
Qed.

Lemma leb_100_finite (x : float) :
  (x <=? 100) = true -> (x <? infinity) = true.
Proof.
  rewrite leb_spec, ltb_spec.
  change (Prim2SF infinity) with (S754_infinity false).
  change (Prim2SF 100) with (S754_finite false 7036874417766400 (-46)).
  destruct (Prim2SF x) as [s|[|]| |[|] mx ex]; try discriminate; reflexivity.
Qed.

(** A non-negative finite number divided by 100 is one. *)
Lemma div_100_nonneg_finite (x : float) :
  (0 <=? x) = true -> (x <? infinity) = true ->
  (0 <=? x / 100) = true /\ (x / 100 <? infinity) = true.
Proof.
  intros H0 Hinf. pose proof (Prim2SF_valid x) as Hv.
  rewrite leb_spec, ltb_spec, div_spec.
  change (Prim2SF 0) with (S754_zero false).
  change (Prim2SF infinity) with (S754_infinity false).
  change (Prim2SF 100) with (S754_finite false 7036874417766400 (-46)).
  destruct (nonneg_finite_cases x H0 Hinf) as [[s Hx]|(mx & ex & Hx)]; rewrite Hx in *.
  - split; reflexivity.
  - destruct (SFdiv_finite mx 7036874417766400 ex (-46) Hv) as [Hr|(mr & er & Hr)];
      [vm_compute; discriminate|lia| |]; unfold SF64div; rewrite Hr; split; reflexivity.
Qed.

End DivConstant.

(** * The minimum loops *)

Section MinLoop.

Lemma fold_left_map_keep {A : Type} (f : A -> float) (xs : list A) (acc : float) :
  fold_left (fun min_len x => keep_min min_len (f x)) xs acc
  = fold_left keep_min (map f xs) acc.
Proof.
  revert acc. induction xs as [|x xs IH]; intros acc; simpl; [reflexivity|apply IH].
Qed.

Lemma least_of_snoc_keep (acc v : float) (seen : list float) :
  least_of acc seen -> nonneg v = true ->
  least_of (keep_min acc v) (seen ++ [v]).
Proof.
  intros [Hin Hall] Hv. unfold nonneg in Hv. unfold keep_min. rewrite Hv.
  assert (Hacc : (acc <=? acc) = true).
  { rewrite Forall_forall in Hall. apply Hall, Hin. }
  assert (Hvv : (v <=? v) = true) by (eapply leb_refl_r; eassumption).
  destruct (v <? acc) eqn:Hlt; split.
  - apply in_or_app. right. left. reflexivity.
  - apply Forall_app. split.
    + eapply Forall_impl; [|exact Hall]. intros w Hw. simpl in Hw.
      eapply leb_trans; [apply ltb_leb; exact Hlt|exact Hw].
    + constructor; [exact Hvv|constructor].
  - apply in_or_app. left. exact Hin.
  - apply Forall_app. split; [exact Hall|].
    constructor; [|constructor]. apply leb_total; assumption.
Qed.

Lemma keep_min_skip (acc v : float) : nonneg v = false -> keep_min acc v = acc.
Proof. unfold nonneg, keep_min. intros ->. reflexivity. Qed.

Lemma fold_keep_min_least (vs seen : list float) (acc : float) :
  least_of acc seen ->
  least_of (fold_left keep_min vs acc) (seen ++ filter nonneg vs).
Proof.
  revert seen acc. induction vs as [|v vs IH]; intros seen acc H; simpl.
  - rewrite app_nil_r. exact H.
  - destruct (nonneg v) eqn:Hv.
    + replace (seen ++ v :: filter nonneg vs) with ((seen ++ [v]) ++ filter nonneg vs)
        by (rewrite <- app_assoc; reflexivity).
      apply IH. apply least_of_snoc_keep; assumption.
    + rewrite keep_min_skip by exact Hv. apply IH. exact H.
Qed.

Lemma fold_keep_min_none (vs : list float) (acc : float) :
  Forall (fun v => nonneg v = false) vs -> fold_left keep_min vs acc = acc.
Proof.
  induction 1 as [|v vs Hv _ IH]; simpl; [reflexivity|].
  rewrite keep_min_skip by exact Hv. exact IH.
Qed.

Lemma least_of_FLT_MAX : least_of FLT_MAX [FLT_MAX].
Proof. split; [left; reflexivity|]. constructor; [reflexivity|constructor]. Qed.

(** The loop started at [FLT_MAX]. *)
Lemma keep_min_loop_least (vs : list float) :
  least_of (fold_left keep_min vs FLT_MAX) (FLT_MAX :: filter nonneg vs).
Proof. apply (fold_keep_min_least vs [FLT_MAX] FLT_MAX least_of_FLT_MAX). Qed.

Lemma keep_min_loop_range (vs : list float) :
  (0 <=? fold_left keep_min vs FLT_MAX) = true /\
  (fold_left keep_min vs FLT_MAX <=? FLT_MAX) = true.
Proof.
  destruct (keep_min_loop_least vs) as [Hin Hall]. split.
  - destruct Hin as [<-|Hin]; [reflexivity|].
    apply filter_In in Hin. exact (proj2 Hin).
  - apply Forall_inv in Hall. exact Hall.
Qed.

Context {libm : Libm}.

Lemma max_chroma_for_lh_fold (l h : float) :
  max_chroma_for_lh l h = fold_left keep_min (ray_lengths l h) FLT_MAX.
Proof. unfold max_chroma_for_lh, ray_lengths. apply fold_left_map_keep. Qed.

Lemma max_safe_chroma_for_l_fold (l : float) :
  max_safe_chroma_for_l l = fold_left keep_min (pole_distances l) FLT_MAX.
Proof. unfold max_safe_chroma_for_l, pole_distances. apply fold_left_map_keep. Qed.

End MinLoop.

(** * Boundary chroma (C4, C5, C10) *)



(** C10: when none of the six values is non-negative the running
    minimum keeps its initial value, so [max_chroma_for_lh] returns
    [FLT_MAX]; [max_safe_chroma_for_l] falls back in the same way. *)
Theorem chroma_fallback_FLT_MAX {libm : Libm} (L H : float) :
  (Forall (fun v => nonneg v = false) (ray_lengths L H) ->
   max_chroma_for_lh L H = FLT_MAX) /\
  (Forall (fun d => nonneg d = false) (pole_distances L) ->
   max_safe_chroma_for_l L = FLT_MAX).
Proof.
  split; intros Hnone.
  - rewrite max_chroma_for_lh_fold. apply fold_keep_min_none, Hnone.
  - rewrite max_safe_chroma_for_l_fold. apply fold_keep_min_none, Hnone.
Qed.

Section ChromaReference.
#[local] Existing Instance ref_libm.



(** C10 (witness): the six ray lengths at [L = 0], [H = 0] and the six
    distances at [L = 1e200] are all NaN. *)
Lemma chroma_fallback_FLT_MAX_witness :
  max_chroma_for_lh 0 0 = FLT_MAX /\ max_safe_chroma_for_l 1e200 = FLT_MAX.
Proof.
  split.
  - apply (proj1 (chroma_fallback_FLT_MAX 0 0)). vm_compute.
    repeat constructor.
  - apply (proj2 (chroma_fallback_FLT_MAX 1e200 0)). vm_compute.
    repeat constructor.
Defined.

End ChromaReference.

(** * Closest-point distances (C6) *)

Section Distances.
Context {libm : Libm}.

Lemma pole_distance_sign (bi : Bounds.t) :
  (pole_distance bi <? 0) = false /\
  (nonneg (pole_distance bi) = false -> pole_distance bi = nan).
Proof.
  unfold pole_distance, dist_from_pole, nonneg. split.
  - apply sqrt_not_neg.
  - intros H.
    match goal with |- sqrt ?z = nan => destruct (sqrt_nonneg_or_nan z) as [H'|H'] end.
    + rewrite H' in H. discriminate H.
    + exact H'.
Qed.

Lemma pole_distances_sign (L : float) :
  Forall (fun d => (d <? 0) = false /\ (nonneg d = false -> d = nan))
         (pole_distances L).
Proof.
  unfold pole_distances. apply Forall_forall. intros d Hd.
  apply in_map_iff in Hd. destruct Hd as (bi & <- & _).
  apply pole_distance_sign.
Qed.

End Distances.

(** C6 (counterexample): with no C library and for no lightness is one
    of the six distances negative: each is the result of [sqrt]. *)
Lemma no_negative_pole_distance :
  ~ (exists (libm : Libm) (L : float),
        Exists (fun d => (d <? 0) = true) (pole_distances L)).
Proof.
  intros (libm & L & H). apply Exists_exists in H. destruct H as (d & Hd & Hneg).
  pose proof (pole_distances_sign L) as Hall. rewrite Forall_forall in Hall.
  destruct (Hall d Hd) as [Hpos _]. rewrite Hpos in Hneg. discriminate Hneg.
Qed.

(** C6 (as amended): for every lightness [L] none of the six distances
    is negative, and a distance that fails the [distance >= 0] test is
    NaN; such distances occur: with the reference library three of the
    six are NaN at [L = 0]. *)
Theorem pole_distances_nonneg_or_nan :
  (forall (libm : Libm) (L : float),
      Forall (fun d => (d <? 0) = false /\ (nonneg d = false -> d = nan))
             (pole_distances L)) /\
  @pole_distances ref_libm 0 = [nan; 0; nan; 0; nan; 0].
Proof.
  split.
  - intros libm L. apply pole_distances_sign.
  - vm_compute. reflexivity.
Qed.

(** * Black and white (C3) *)

Section BlackWhite.
Context {libm : Libm}.

Lemma xyz2rgb_black : xyz2rgb (Triplet.mk 0 0 0) = Triplet.mk 0 0 0.
Proof. vm_compute. reflexivity. Qed.








End BlackWhite.


Section ReferenceWhite.
#[local] Existing Instance ref_libm.



End ReferenceWhite.

(** * Threshold checks and divisions (C9) *)

Section Guards.
Context {libm : Libm}.

Lemma l2y_log_fst (l : float) : fst (l2y_log l) = l2y l.
Proof. unfold l2y_log, l2y. destruct (l <=? 8); reflexivity. Qed.

Lemma xyz2luv_log_fst (t : Triplet.t) : fst (xyz2luv_log t) = xyz2luv t.
Proof.
  unfold xyz2luv_log, xyz2luv. cbn [bind divl ret fst].
  destruct (y2l (Triplet.b t) <? 0.00000001); reflexivity.
Qed.

Lemma xyz2luv_log_snd (t : Triplet.t) :
  let d := Triplet.a t + (15.0 * Triplet.b t) + (3.0 * Triplet.c t) in
  snd (xyz2luv_log t) = [d; d].
Proof. reflexivity. Qed.

Lemma luv2xyz_log_fst (t : Triplet.t) : fst (luv2xyz_log t) = luv2xyz t.
Proof.
  unfold luv2xyz_log, luv2xyz. destruct (Triplet.a t <=? 0.00000001); [reflexivity|].
  pose proof (l2y_log_fst (Triplet.a t)) as Hy.
  cbn [bind divl ret fst]. destruct (l2y_log (Triplet.a t)) as [y dy].
  cbn [fst] in Hy. subst y. reflexivity.
Qed.

Lemma luv2xyz_log_black (t : Triplet.t) :
  (Triplet.a t <=? 0.00000001) = true ->
  luv2xyz_log t = (Triplet.mk 0 0 0, []).
Proof. unfold luv2xyz_log. intros ->. reflexivity. Qed.

Lemma luv2xyz_log_divides (t : Triplet.t) :
  (Triplet.a t <=? 0.00000001) = false ->
  exists rest,
    snd (luv2xyz_log t) = 13.0 * Triplet.a t :: 13.0 * Triplet.a t :: rest.
Proof.
  unfold luv2xyz_log. intros ->. unfold bind, divl, ret.
  destruct (l2y_log (Triplet.a t)) as [y dy]. simpl. eexists. reflexivity.
Qed.

Lemma xyz2luv_black (t : Triplet.t) :
  (Triplet.a (xyz2luv t) <? 0.00000001) = true ->
  Triplet.b (xyz2luv t) = 0 /\ Triplet.c (xyz2luv t) = 0.
Proof.
  unfold xyz2luv. destruct (y2l (Triplet.b t) <? 0.00000001) eqn:Hl;
    cbn [Triplet.a Triplet.b Triplet.c]; [split; reflexivity|congruence].
Qed.

End Guards.

(** C9 (as amended): [luv2xyz] returns exactly (0,0,0) whenever its
    input lightness is [<= 1e-8], and then performs no division at all;
    past the test its first two divisions are by [13 * L].  [xyz2luv]
    forces [u = v = 0] whenever the computed [L] is [< 1e-8], but it
    divides twice by the chromaticity denominator [X + 15 Y + 3 Z]
    whatever [L] is: those divisions come before the test.  The logged
    functions compute what [luv2xyz] and [xyz2luv] compute. *)
Theorem threshold_checks {libm : Libm} (t : Triplet.t) :
  ((Triplet.a t <=? 0.00000001) = true ->
   luv2xyz t = Triplet.mk 0 0 0 /\ snd (luv2xyz_log t) = []) /\
  ((Triplet.a t <=? 0.00000001) = false ->
   exists rest,
     snd (luv2xyz_log t) = 13.0 * Triplet.a t :: 13.0 * Triplet.a t :: rest) /\
  ((Triplet.a (xyz2luv t) <? 0.00000001) = true ->
   Triplet.b (xyz2luv t) = 0 /\ Triplet.c (xyz2luv t) = 0) /\
  (let d := Triplet.a t + (15.0 * Triplet.b t) + (3.0 * Triplet.c t) in
   snd (xyz2luv_log t) = [d; d]) /\
  fst (luv2xyz_log t) = luv2xyz t /\
  fst (xyz2luv_log t) = xyz2luv t.
Proof.
  split.
  { intros H. rewrite <- luv2xyz_log_fst, (luv2xyz_log_black t H). split; reflexivity. }
  split; [apply luv2xyz_log_divides|].
  split; [apply xyz2luv_black|].
  split; [apply xyz2luv_log_snd|].
  split; [apply luv2xyz_log_fst|apply xyz2luv_log_fst].
Qed.

Section GuardsReference.
#[local] Existing Instance ref_libm.

(** C9 (counterexample): at black [xyz2luv] computes [L = 0], below the
    threshold, and has divided twice by 0: both quotients are 0/0. *)
Lemma xyz2luv_divides_by_zero_at_black :
  (Triplet.a (xyz2luv (Triplet.mk 0 0 0)) <? 0.00000001) = true /\
  snd (xyz2luv_log (Triplet.mk 0 0 0)) = [0; 0] /\
  4.0 * 0 / 0 = nan.
Proof. repeat split; vm_compute; reflexivity. Qed.

(** C9 (witness): black, a colour past the threshold, and black again. *)
Lemma threshold_checks_witness :
  (luv2xyz (Triplet.mk 0 0 0) = Triplet.mk 0 0 0 /\
   snd (luv2xyz_log (Triplet.mk 0 0 0)) = []) /\
  (exists rest, snd (luv2xyz_log (Triplet.mk 50 1 1)) = 13.0 * 50 :: 13.0 * 50 :: rest) /\
  (Triplet.b (xyz2luv (Triplet.mk 0 0 0)) = 0 /\ Triplet.c (xyz2luv (Triplet.mk 0 0 0)) = 0).
Proof.
  split; [|split].
  - apply (proj1 (threshold_checks (Triplet.mk 0 0 0))). reflexivity.
  - apply (proj1 (proj2 (threshold_checks (Triplet.mk 50 1 1)))). reflexivity.
  - apply (proj1 (proj2 (proj2 (threshold_checks (Triplet.mk 0 0 0))))).
    vm_compute. reflexivity.
Defined.

End GuardsReference.

(** * Hue normalisation (C7) *)

Section HueReference.
#[local] Existing Instance ref_libm.

(** C7 (failing inputs): the hue is exactly 360 for the dark red
    (r, g, b) below, in [0,1]^3, through [rgb2hsluv] and [rgb2hpluv], and
    for the LUV triple (50, 1, -1e-20) through [luv2lch]: a negative
    angle of less than 2^-46 degrees plus 360 rounds to 360. *)
Theorem hue_reaches_360 :
  let r := 0x1.b8bba93e1d8ffp-6 in
  let g := 0x1.578f5897202e1p-9 in
  let b := 0x1.a48cebd3e3388p-8 in
  (0 <=? r) && (r <=? 1) && (0 <=? g) && (g <=? 1) && (0 <=? b) && (b <=? 1) = true /\
  Triplet.a (rgb2hsluv r g b) = 360 /\
  Triplet.a (rgb2hpluv r g b) = 360 /\
  (360 <? 360) = false /\
  luv2lch (Triplet.mk 50 1 (-1e-20)) = Triplet.mk 50 1 360.
Proof. repeat split; vm_compute; reflexivity. Qed.

End HueReference.

(** * Saturation and chroma (C8) *)

Section Saturation.
Context {libm : Libm}.


Lemma max_chroma_for_lh_range (l h : float) :
  (0 <=? max_chroma_for_lh l h) = true /\ (max_chroma_for_lh l h <? infinity) = true.
Proof.
  rewrite max_chroma_for_lh_fold.
  destruct (keep_min_loop_range (ray_lengths l h)) as [H0 Hmax].
  split; [exact H0|apply leb_FLT_MAX_finite, Hmax].
Qed.

End Saturation.


Section SaturationReference.
#[local] Existing Instance ref_libm.



End SaturationReference.

(** * The reference library and the pipeline on concrete inputs *)

Section Evaluations.
#[local] Existing Instance ref_libm.

Example pow_values :
  pow 26 3 = 17576 /\ pow 10 2.4 = 251.18864315095797 /\
  pow 0.5 (1 / 2.4) = 0.74915353843834076 /\ powf 3 2 = 9.
Proof. repeat split; vm_compute; reflexivity. Qed.

Example trig_values :
  sin 1 = 0.8414709848078965 /\ cos 1 = 0.54030230586813977 /\
  sin 1e22 = -0.85220084976718879 /\ atan2 1 1 = 0.78539816339744828 /\
  atan2 3 (-4) = 2.4980915447965089 /\ sinf 1 = 0.84147095680236816.
Proof. repeat split; vm_compute; reflexivity. Qed.

(** [pow (+1) y] is 1 for every [y], and [pow x (+-0)] is 1 for every
    [x], NaN included (Annex F). *)
Lemma pow_ref_one (y : float) : pow 1 y = 1.
Proof.
  change (pow 1 y) with (RefLibm.pow_ref 53 1024 1 y). unfold RefLibm.pow_ref.
  destruct (y =? 0); reflexivity.
Qed.

(** Pure red: hue 12.18, lightness 53.24 and saturation 100 up to the
    single precision of the chroma. *)
Example rgb2hsluv_red :
  rgb2hsluv 1 0 0 = Triplet.mk 12.177050630061162 100.00000238645757 53.237115595429373.
Proof. vm_compute. reflexivity. Qed.

(** Black goes to (0,0,0) and back, exactly, through both pipelines. *)
Lemma roundtrip_black :
  rgb2hsluv 0 0 0 = Triplet.mk 0 0 0 /\ hsluv2rgb 0 0 0 = Triplet.mk 0 0 0 /\
  rgb2hpluv 0 0 0 = Triplet.mk 0 0 0 /\ hpluv2rgb 0 0 0 = Triplet.mk 0 0 0.
Proof. repeat split; vm_compute; reflexivity. Qed.

(** White goes to (0,0,100) and comes back as [1 - 2^-53] in each
    channel. *)
Lemma roundtrip_white :
  rgb2hsluv 1 1 1 = Triplet.mk 0 0 100 /\
  rgb2hpluv 1 1 1 = Triplet.mk 0 0 100 /\
  hsluv2rgb 0 0 100 = Triplet.mk 0.99999999999999989 0.99999999999999989 0.99999999999999989 /\
  hpluv2rgb 0 0 100 = Triplet.mk 0.99999999999999989 0.99999999999999989 0.99999999999999989.
Proof. repeat split; vm_compute; reflexivity. Qed.

(** A saturated blue comes back 3.4e-6 off in its red channel, through
    both pipelines. *)
Lemma roundtrip_blue :
  let hsl := rgb2hsluv 0 0.33948457915086316 1 in
  let hpl := rgb2hpluv 0 0.33948457915086316 1 in
  let back := Triplet.mk (-3.4465765653357573e-06) 0.33948468983142521 1.0000000687808608 in
  hsluv2rgb (Triplet.a hsl) (Triplet.b hsl) (Triplet.c hsl) = back /\
  hpluv2rgb (Triplet.a hpl) (Triplet.b hpl) (Triplet.c hpl) = back.
Proof. repeat split; vm_compute; reflexivity. Qed.

(** Full saturation can leave the unit cube by 2.4e-6. *)
Lemma gamut_excess :
  hsluv2rgb 260.362698706268 100 43.61852026668379
  = Triplet.mk (-2.4125626516302566e-06) 0.35613001891801038 0.93023132979316825.
Proof. vm_compute. reflexivity. Qed.

End Evaluations.

(** * Further properties of the conversions *)

Section Grays.

(** The quotient of a zero does not depend on the sign of the zero once
    a non-zero number is added. *)
Lemma zero_div_add_indep (z z' d r : float) :
  is_zero z = true -> is_zero z' = true ->
  is_finite r = true -> is_zero r = false ->
  z / d + r = z' / d + r.
Proof.
  intros Hz Hz' Hr Hr'.
  apply is_zero_cases in Hz. destruct Hz as [s Hz].
  apply is_zero_cases in Hz'. destruct Hz' as [s' Hz'].
  destruct (is_finite_cases r Hr) as [[sr H]|(sr & mr & er & H)].
  - apply Prim2SF_zero_is_zero in H. congruence.
  - apply Prim2SF_inj. rewrite !add_spec, !div_spec, Hz, Hz', H.
    destruct (Prim2SF d) as [sd|sd| |sd md ed]; reflexivity.
Qed.

Lemma nonneg_finite_mul_zero (k : float) :
  (0 <=? k) = true -> (k <? infinity) = true -> is_zero (k * 0) = true.
Proof.
  intros H0 Hinf.
  destruct (nonneg_finite_cases k H0 Hinf) as [[s Hk]|(mk & ek & Hk)];
    eapply Prim2SF_zero_is_zero; rewrite mul_spec, Hk; reflexivity.
Qed.

Context {libm : Libm}.

Lemma luv2xyz_zero_indep (l u v u' v' : float) :
  is_zero u = true -> is_zero v = true -> is_zero u' = true -> is_zero v' = true ->
  luv2xyz (Triplet.mk l u v) = luv2xyz (Triplet.mk l u' v').
Proof.
  intros Hu Hv Hu' Hv'. unfold luv2xyz. cbn [Triplet.a Triplet.b Triplet.c].
  destruct (l <=? 0.00000001); [reflexivity|].
  rewrite (zero_div_add_indep u u' (13 * l) ref_u) by (reflexivity || assumption).
  rewrite (zero_div_add_indep v v' (13 * l) ref_v) by (reflexivity || assumption).
  reflexivity.
Qed.

Lemma max_safe_chroma_for_l_range (l : float) :
  (0 <=? max_safe_chroma_for_l l) = true /\ (max_safe_chroma_for_l l <? infinity) = true.
Proof.
  rewrite max_safe_chroma_for_l_fold.
  destruct (keep_min_loop_range (pole_distances l)) as [H0 Hmax].
  split; [exact H0|apply leb_FLT_MAX_finite, Hmax].
Qed.

Lemma hsluv2lch_gray (h l : float) :
  exists c, is_zero c = true /\ hsluv2lch (Triplet.mk h 0 l) = Triplet.mk l c 0.
Proof.
  unfold hsluv2lch. cbn [Triplet.a Triplet.b Triplet.c].
  change (0 <? 0.00000001) with true. cbv iota.
  destruct ((99.9999999 <? l) || (l <? 0.00000001)).
  - exists 0. split; reflexivity.
  - eexists. split; [|reflexivity].
    destruct (max_chroma_for_lh_range l h) as [Hm0 Hminf].
    destruct (div_100_nonneg_finite _ Hm0 Hminf) as [Hk0 Hkinf].
    apply nonneg_finite_mul_zero; assumption.
Qed.

Lemma hpluv2lch_gray (h l : float) :
  exists c, is_zero c = true /\ hpluv2lch (Triplet.mk h 0 l) = Triplet.mk l c 0.
Proof.
  unfold hpluv2lch. cbn [Triplet.a Triplet.b Triplet.c].
  change (0 <? 0.00000001) with true. cbv iota.
  destruct ((99.9999999 <? l) || (l <? 0.00000001)).
  - exists 0. split; reflexivity.
  - eexists. split; [|reflexivity].
    destruct (max_safe_chroma_for_l_range l) as [Hm0 Hminf].
    destruct (div_100_nonneg_finite _ Hm0 Hminf) as [Hk0 Hkinf].
    apply nonneg_finite_mul_zero; assumption.
Qed.

Lemma gray_luv2xyz (l c c' : float) :
  angle_finite 0 = true -> is_zero c = true -> is_zero c' = true ->
  luv2xyz (lch2luv (Triplet.mk l c 0)) = luv2xyz (lch2luv (Triplet.mk l c' 0)).
Proof.
  unfold angle_finite. intros H Hc Hc'. apply andb_true_iff in H. destruct H as [Hcos Hsin].
  unfold lch2luv. cbn [Triplet.a Triplet.b Triplet.c].
  apply luv2xyz_zero_indep; apply finite_mul_zero; assumption.
Qed.

End Grays.

(** Achromatic colours: with [s = 0] the RGB triple does not depend on
    the hue, for every lightness, in HSLuv and in HPLuv. *)
Theorem achromatic_hue_independent {libm : Libm} (h h' l : float) :
  angle_finite 0 = true ->
  hsluv2rgb h 0 l = hsluv2rgb h' 0 l /\ hpluv2rgb h 0 l = hpluv2rgb h' 0 l.
Proof.
  intros H0. unfold hsluv2rgb, hpluv2rgb. split.
  - destruct (hsluv2lch_gray h l) as (c & Hc & ->).
    destruct (hsluv2lch_gray h' l) as (c' & Hc' & ->).
    rewrite (gray_luv2xyz l c c') by assumption. reflexivity.
  - destruct (hpluv2lch_gray h l) as (c & Hc & ->).
    destruct (hpluv2lch_gray h' l) as (c' & Hc' & ->).
    rewrite (gray_luv2xyz l c c') by assumption. reflexivity.
Qed.

(** The boundary chroma is never negative and never NaN: it lies
    between 0 and [FLT_MAX], whatever the lightness and the hue. *)
Theorem boundary_chroma_range {libm : Libm} (L H : float) :
  (0 <=? max_chroma_for_lh L H) = true /\
  (max_chroma_for_lh L H <=? FLT_MAX) = true /\
  (0 <=? max_safe_chroma_for_l L) = true /\
  (max_safe_chroma_for_l L <=? FLT_MAX) = true.
Proof.
  rewrite max_chroma_for_lh_fold, max_safe_chroma_for_l_fold.
  destruct (keep_min_loop_range (ray_lengths L H)) as [H1 H2].
  destruct (keep_min_loop_range (pole_distances L)) as [H3 H4].
  repeat split; assumption.
Qed.

Section GraysReference.
#[local] Existing Instance ref_libm.

Lemma achromatic_hue_independent_witness :
  hsluv2rgb 10 0 50 = hsluv2rgb 200 0 50 /\ hpluv2rgb 10 0 50 = hpluv2rgb 200 0 50.
Proof. apply (achromatic_hue_independent 10 200 50). reflexivity. Defined.

End GraysReference.

(** * Lightness outside the thresholds *)

Section Extremes.
Context {libm : Libm}.

Lemma luv2xyz_dark (l u v : float) :
  (l <=? 0.00000001) = true -> luv2xyz (Triplet.mk l u v) = Triplet.mk 0 0 0.
Proof. intros H. unfold luv2xyz. cbn [Triplet.a]. rewrite H. reflexivity. Qed.

Lemma hsluv2lch_extreme (h s l : float) :
  (99.9999999 <? l) || (l <? 0.00000001) = true ->
  hsluv2lch (Triplet.mk h s l) = Triplet.mk l 0 (if s <? 0.00000001 then 0 else h).
Proof.
  intros H. unfold hsluv2lch. cbn [Triplet.a Triplet.b Triplet.c]. rewrite H. reflexivity.
Qed.

Lemma hpluv2lch_extreme (h s l : float) :
  (99.9999999 <? l) || (l <? 0.00000001) = true ->
  hpluv2lch (Triplet.mk h s l) = Triplet.mk l 0 (if s <? 0.00000001 then 0 else h).
Proof.
  intros H. unfold hpluv2lch. cbn [Triplet.a Triplet.b Triplet.c]. rewrite H. reflexivity.
Qed.

(** With chroma 0 the hue does not reach the XYZ triple. *)
Lemma lch2luv_gray (l h : float) :
  angle_finite h = true ->
  luv2xyz (lch2luv (Triplet.mk l 0 h)) = luv2xyz (Triplet.mk l 0 0).
Proof.
  unfold angle_finite. intros H. apply andb_true_iff in H. destruct H as [Hc Hs].
  unfold lch2luv. cbn [Triplet.a Triplet.b Triplet.c].
  apply luv2xyz_zero_indep; try reflexivity; apply finite_mul_zero; auto.
Qed.

End Extremes.

(** A lightness of at most 1e-8 (also a negative one) gives black,
    whatever the hue and the saturation, also NaN ones. *)
Theorem dark_maps_to_black {libm : Libm} (h s l : float) :
  (l <=? 0.00000001) = true ->
  hsluv2rgb h s l = Triplet.mk 0 0 0 /\ hpluv2rgb h s l = Triplet.mk 0 0 0.
Proof.
  intros Hl. unfold hsluv2rgb, hpluv2rgb, hsluv2lch, hpluv2lch, lch2luv.
  cbn [Triplet.a Triplet.b Triplet.c].
  rewrite !luv2xyz_dark by exact Hl. split; apply xyz2rgb_black.
Qed.

(** Outside the two thresholds the chroma is forced to 0: the colour is
    the gray of LUV [(l, 0, 0)], the same for HSLuv and HPLuv, whatever
    the saturation and the hue (at which [cosf] and [sinf] are finite). *)
Theorem extreme_lightness_gray {libm : Libm} (h s l : float) :
  (99.9999999 <? l) || (l <? 0.00000001) = true ->
  angle_finite h = true -> angle_finite 0 = true ->
  hsluv2rgb h s l = xyz2rgb (luv2xyz (Triplet.mk l 0 0)) /\
  hpluv2rgb h s l = xyz2rgb (luv2xyz (Triplet.mk l 0 0)).
Proof.
  intros Hl Hh H0. unfold hsluv2rgb, hpluv2rgb.
  rewrite hsluv2lch_extreme, hpluv2lch_extreme by exact Hl.
  destruct (s <? 0.00000001); rewrite lch2luv_gray by assumption; split; reflexivity.
Qed.

(** The chroma of HPLuv: between the thresholds it is
    [max_safe_chroma_for_l l / 100 * s], it does not depend on the hue
    and does not decrease when [s] grows from 0 to 100. *)
Theorem hpluv_chroma_monotone {libm : Libm} (h1 h2 l s1 s2 : float) :
  (99.9999999 <? l) || (l <? 0.00000001) = false ->
  (0 <=? s1) = true -> (s1 <=? s2) = true -> (s2 <=? 100) = true ->
  (Triplet.b (hpluv2lch (Triplet.mk h1 s1 l))
     <=? Triplet.b (hpluv2lch (Triplet.mk h2 s2 l))) = true /\
  Triplet.b (hpluv2lch (Triplet.mk h1 s2 l)) = max_safe_chroma_for_l l / 100 * s2.
Proof.
  intros Hl H0 H12 H100. unfold hpluv2lch. cbn [Triplet.a Triplet.b Triplet.c].
  rewrite Hl. split; [|reflexivity].
  destruct (max_safe_chroma_for_l_range l) as [Hm0 Hminf].
  destruct (div_100_nonneg_finite _ Hm0 Hminf) as [Hk0 Hkinf].
  apply mul_le_compat_l; try assumption. apply leb_100_finite, H100.
Qed.

(** [rgb2hsluv] and [rgb2hpluv] return the same hue and the same
    lightness: the two models differ in the saturation only. *)
Theorem hsluv_hpluv_same_hue_lightness {libm : Libm} (r g b : float) :
  Triplet.a (rgb2hsluv r g b) = Triplet.a (rgb2hpluv r g b) /\
  Triplet.c (rgb2hsluv r g b) = Triplet.c (rgb2hpluv r g b).
Proof. split; reflexivity. Qed.

(** When the lightness computed for an RGB triple is outside the two
    thresholds, both saturations are 0 (no division by the boundary
    chroma takes place). *)
Theorem saturation_zero_at_extremes {libm : Libm} (r g b : float) :
  let l := Triplet.c (rgb2hsluv r g b) in
  (99.9999999 <? l) || (l <? 0.00000001) = true ->
  Triplet.b (rgb2hsluv r g b) = 0 /\ Triplet.b (rgb2hpluv r g b) = 0.
Proof.
  intros l Hl. unfold rgb2hsluv, rgb2hpluv, lch2hsluv, lch2hpluv in *.
  cbn [Triplet.a Triplet.b Triplet.c] in *. subst l. rewrite Hl. split; reflexivity.
Qed.

Section ExtremesReference.
#[local] Existing Instance ref_libm.

Lemma dark_maps_to_black_witness :
  hsluv2rgb 120 50 (-3) = Triplet.mk 0 0 0 /\ hpluv2rgb 120 50 (-3) = Triplet.mk 0 0 0.
Proof. apply (dark_maps_to_black 120 50 (-3)). reflexivity. Defined.

Lemma extreme_lightness_gray_witness :
  hsluv2rgb 120 50 99.99999995 = xyz2rgb (luv2xyz (Triplet.mk 99.99999995 0 0)) /\
  hpluv2rgb 120 50 99.99999995 = xyz2rgb (luv2xyz (Triplet.mk 99.99999995 0 0)).
Proof. apply (extreme_lightness_gray 120 50 99.99999995); reflexivity. Defined.

Lemma hpluv_chroma_monotone_witness :
  (Triplet.b (hpluv2lch (Triplet.mk 0 10 50))
     <=? Triplet.b (hpluv2lch (Triplet.mk 240 20 50))) = true /\
  Triplet.b (hpluv2lch (Triplet.mk 0 20 50)) = max_safe_chroma_for_l 50 / 100 * 20.
Proof. apply (hpluv_chroma_monotone 0 240 50 10 20); reflexivity. Defined.

Lemma saturation_zero_at_extremes_witness :
  Triplet.b (rgb2hsluv 1 1 1) = 0 /\ Triplet.b (rgb2hpluv 1 1 1) = 0.
Proof. apply (saturation_zero_at_extremes 1 1 1). vm_compute. reflexivity. Defined.

End ExtremesReference.

(** * Rounding is symmetric and monotone, for every sign *)

Section Symmetry.

Lemma binary_round_aux_opp (s : bool) (mz ez : Z) (lz : location) :
  binary_round_aux prec emax (negb s) mz ez lz
  = SFopp (binary_round_aux prec emax s mz ez lz).
Proof.
  unfold binary_round_aux.
  destruct (shr_fexp prec emax mz ez lz) as [mrs' e'].
  destruct (shr_fexp prec emax _ e' loc_Exact) as [mrs'' e''].
  destruct (shr_m mrs'') as [|p|p]; try reflexivity.
  destruct (Z.leb e'' (emax - prec)); reflexivity.
Qed.

Lemma SFopp_involutive (x : spec_float) : SFopp (SFopp x) = x.
Proof. destruct x as [s|s| |s m e]; simpl; rewrite ?negb_involutive; reflexivity. Qed.

Lemma valid_binary_opp (x : spec_float) :
  valid_binary (SFopp x) = valid_binary x.
Proof. destruct x; reflexivity. Qed.

Lemma SFmul_comm (x y : spec_float) : SFmul prec emax x y = SFmul prec emax y x.
Proof.
  destruct x as [sx|sx| |sx mx ex], y as [sy|sy| |sy my ey]; cbn [SFmul];
    rewrite ?(xorb_comm sx sy); try reflexivity.
  rewrite (Pos.mul_comm mx my), (Z.add_comm ex ey). reflexivity.
Qed.

Lemma SFmul_opp_r (x y : spec_float) :
  SFmul prec emax x (SFopp y) = SFopp (SFmul prec emax x y).
Proof.
  destruct x as [sx|sx| |sx mx ex], y as [sy|sy| |sy my ey]; cbn [SFmul SFopp];
    rewrite <- ?negb_xorb_r; try reflexivity.
  apply binary_round_aux_opp.
Qed.

Lemma SFcompare_opp (x y : spec_float) :
  SFcompare (SFopp x) (SFopp y) = SFcompare y x.
Proof.
  destruct x as [sx|sx| |sx mx ex], y as [sy|sy| |sy my ey];
    try (repeat match goal with s : bool |- _ => destruct s end; reflexivity).
  destruct sx, sy; cbn [SFopp SFcompare negb]; try reflexivity.
  - rewrite (Z.compare_antisym ex ey).
    destruct (Z.compare_spec ex ey) as [->| |]; cbn [CompOpp]; try reflexivity.
    rewrite Pos.compare_cont_antisym. cbn [CompOpp].
    destruct (Pos.compare_cont Eq mx my); reflexivity.
  - rewrite (Z.compare_antisym ey ex).
    destruct (Z.compare_spec ey ex) as [->| |]; cbn [CompOpp]; try reflexivity.
    rewrite Pos.compare_cont_antisym. cbn [CompOpp].
    destruct (Pos.compare_cont Eq my mx); reflexivity.
Qed.

Lemma SFleb_opp (x y : spec_float) : SFleb (SFopp x) (SFopp y) = SFleb y x.
Proof. unfold SFleb. rewrite SFcompare_opp. reflexivity. Qed.

Lemma SFltb_opp (x y : spec_float) : SFltb (SFopp x) (SFopp y) = SFltb y x.
Proof. unfold SFltb. rewrite SFcompare_opp. reflexivity. Qed.

Lemma mul_comm (x y : float) : x * y = y * x.
Proof. apply Prim2SF_inj. rewrite !mul_spec. apply SFmul_comm. Qed.

End Symmetry.

Section RoundedOrder.
Local Open Scope Z_scope.

Lemma rounds_pos_le (r1 r2 : spec_float) (V1 V2 : Z) :
  rounds_pos r1 V1 -> rounds_pos r2 V2 ->
  valid_binary r1 = true -> valid_binary r2 = true ->
  V1 <= V2 -> SFleb r1 r2 = true.
Proof.
  intros (M1 & E1 & Q1 & HB1 & HV1 & Hn1 & Ho1) (M2 & E2 & Q2 & HB2 & HV2 & Hn2 & Ho2)
         Hv1 Hv2 HV.
  eapply out_spec_leb; [exact Ho1|exact Ho2|exact Hv1|exact Hv2|].
  subst V1 V2. apply rounded_le; assumption.
Qed.

Lemma rounds_pos_nonneg (r : spec_float) (V : Z) (s : bool) :
  rounds_pos r V -> SFleb (S754_zero s) r = true.
Proof. intros (M & E & Q & _ & _ & _ & Ho). eapply out_spec_nonneg. exact Ho. Qed.

Lemma rounds_neg_nonpos (r : spec_float) (V : Z) (s : bool) :
  rounds_pos (SFopp r) V -> SFleb r (S754_zero s) = true.
Proof.
  intros H. apply (rounds_pos_nonneg _ _ (negb s)) in H.
  rewrite <- SFleb_opp. exact H.
Qed.

Lemma rounds_not_nan (r : spec_float) (V : Z) : rounds r V -> r <> S754_nan.
Proof.
  intros [[_ [s ->]]|[[_ (M & E & Q & _ & _ & _ & Ho)]|[_ (M & E & Q & _ & _ & _ & Ho)]]];
    try discriminate; intros ->; exact Ho.
Qed.

(** Rounding is monotone. *)
Lemma rounds_le (r1 r2 : spec_float) (V1 V2 : Z) :
  rounds r1 V1 -> rounds r2 V2 ->
  valid_binary r1 = true -> valid_binary r2 = true ->
  V1 <= V2 -> SFleb r1 r2 = true.
Proof.
  intros [[H1 [s1 ->]]|[[H1 Hr1]|[H1 Hr1]]] [[H2 [s2 ->]]|[[H2 Hr2]|[H2 Hr2]]]
         Hv1 Hv2 HV; try lia.
  - reflexivity.
  - eapply rounds_pos_nonneg. exact Hr2.
  - eapply rounds_pos_le; eassumption.
  - eapply rounds_neg_nonpos. exact Hr1.
  - apply SFleb_trans with (S754_zero false).
    + eapply rounds_neg_nonpos. exact Hr1.
    + eapply rounds_pos_nonneg. exact Hr2.
  - rewrite <- SFleb_opp.
    eapply rounds_pos_le; [exact Hr2|exact Hr1| | |lia];
      rewrite valid_binary_opp; assumption.
Qed.

Lemma SFval_pos (c : Z) (m : positive) (e : Z) :
  -1074 <= e -> 1074 <= c -> 0 < Zpos m * 2 ^ (e + c).
Proof. intros He Hc. apply Z.mul_pos_pos; [lia|apply pow2_pos; lia]. Qed.

(** The comparison of valid numbers, read on their values. *)
Lemma SFleb_val (c : Z) (x y : spec_float) :
  SFfinite x -> SFfinite y ->
  valid_binary x = true -> valid_binary y = true -> 1074 <= c ->
  SFleb x y = true -> SFval c x <= SFval c y.
Proof.
  intros Hx Hy Hvx Hvy Hc Hle.
  destruct x as [sx|sx| |sx mx ex], y as [sy|sy| |sy my ey]; try contradiction;
    cbn [SFval]; try lia.
  - (* zero, finite *)
    destruct sy; [discriminate Hle|]. cbn [cond_Zopp].
    pose proof (valid_finite my ey Hvy) as (He & _).
    pose proof (SFval_pos c my ey ltac:(lia) Hc). lia.
  - (* finite, zero *)
    destruct sx; [|discriminate Hle]. cbn [cond_Zopp].
    change (valid_binary (S754_finite true mx ex)) with
      (valid_binary (S754_finite false mx ex)) in Hvx.
    pose proof (valid_finite mx ex Hvx) as (He & _).
    pose proof (SFval_pos c mx ex ltac:(lia) Hc). lia.
  - change (valid_binary (S754_finite sx mx ex)) with
      (valid_binary (S754_finite false mx ex)) in Hvx.
    change (valid_binary (S754_finite sy my ey)) with
      (valid_binary (S754_finite false my ey)) in Hvy.
    pose proof (valid_finite mx ex Hvx) as (Hex & _).
    pose proof (valid_finite my ey Hvy) as (Hey & _).
    pose proof (SFval_pos c mx ex ltac:(lia) Hc).
    pose proof (SFval_pos c my ey ltac:(lia) Hc).
    apply SFleb_finite in Hle. destruct sx, sy; cbn [cond_Zopp]; try lia; try contradiction.
    + pose proof (lex_le_value my mx ey ex c Hvy Hvx Hle Hc). lia.
    + exact (lex_le_value mx my ex ey c Hvx Hvy Hle Hc).
Qed.

(** A valid number is the rounding of its own value. *)
Lemma valid_rounds_pos (m : positive) (e : Z) :
  valid_binary (S754_finite false m e) = true ->
  rounds_pos (S754_finite false m e) (Zpos m * 2 ^ (e + Bexp)).
Proof.
  intros Hv. pose proof (valid_finite m e Hv) as (He & _).
  assert (Hfe : fexp prec emax (Zpos (digits2_pos m) + e) = e).
  { unfold SpecFloat.valid_binary, bounded, canonical_mantissa in Hv.
    apply andb_true_iff in Hv. destruct Hv as [Hc _]. apply Z.eqb_eq in Hc. exact Hc. }
  exists m, e, (Zpos m). rewrite Hfe.
  split; [unfold Bexp; lia|]. split; [reflexivity|].
  split; [apply near_exact; [unfold Bexp; lia|reflexivity]|reflexivity].
Qed.

Lemma valid_rounds_self (x : spec_float) :
  SFfinite x -> valid_binary x = true -> rounds x (SFval Bexp x).
Proof.
  intros Hx Hv. destruct x as [s|s| |s m e]; try contradiction.
  - left. split; [reflexivity|eauto].
  - change (valid_binary (S754_finite s m e)) with
      (valid_binary (S754_finite false m e)) in Hv.
    pose proof (valid_finite m e Hv) as (He & _).
    pose proof (SFval_pos Bexp m e ltac:(lia) ltac:(unfold Bexp; lia)) as Hp.
    destruct s; cbn [SFval cond_Zopp SFopp negb].
    + right. right. split; [lia|]. rewrite Z.opp_involutive.
      apply valid_rounds_pos, Hv.
    + right. left. split; [lia|]. apply valid_rounds_pos, Hv.
Qed.

(** The product by a positive number is the rounding of the exact
    product. *)
Lemma SFmul_rounds (mk : positive) (ek : Z) (x : spec_float) :
  SFfinite x ->
  valid_binary (S754_finite false mk ek) = true -> valid_binary x = true ->
  rounds (SFmul prec emax (S754_finite false mk ek) x)
         (Zpos mk * SFval (ek + Bexp) x).
Proof.
  intros Hx Hvk Hv. destruct x as [s|s| |s m e]; try contradiction.
  - left. split; [cbn [SFval]; lia|cbn [SFmul]; eauto].
  - change (valid_binary (S754_finite s m e)) with
      (valid_binary (S754_finite false m e)) in Hv.
    pose proof (valid_finite mk ek Hvk) as (Hek & _).
    pose proof (valid_finite m e Hv) as (He & _).
    pose proof (SFval_pos (ek + Bexp) m e ltac:(lia) ltac:(unfold Bexp; lia)) as Hp.
    destruct (round_product_spec mk m ek e Hvk Hv) as (HB & Q & _ & Hn & Ho).
    assert (Hval : Zpos (mk * m) * 2 ^ (ek + e + Bexp)
                   = Zpos mk * (Zpos m * 2 ^ (e + (ek + Bexp)))).
    { replace (ek + e + Bexp) with (e + (ek + Bexp)) by lia.
      rewrite Pos2Z.inj_mul, Z.mul_assoc. reflexivity. }
    assert (Hr : rounds_pos (SFmul prec emax (S754_finite false mk ek)
                                   (S754_finite false m e))
                            (Zpos mk * (Zpos m * 2 ^ (e + (ek + Bexp))))).
    { exists (mk * m)%positive, (ek + e), Q. rewrite <- Hval.
      split; [exact HB|]. split; [reflexivity|]. split; assumption. }
    destruct s; cbn [SFval cond_Zopp].
    + right. right. split; [nia|].
      change (S754_finite true m e) with (SFopp (S754_finite false m e)).
      rewrite SFmul_opp_r, SFopp_involutive.
      replace (- (Zpos mk * - (Zpos m * 2 ^ (e + (ek + Bexp)))))
        with (Zpos mk * (Zpos m * 2 ^ (e + (ek + Bexp)))) by lia.
      exact Hr.
    + right. left. split; [nia|exact Hr].
Qed.

End RoundedOrder.

Section MulMonotoneAll.

Lemma SFleb_neg_infinity (r : spec_float) :
  r <> S754_nan -> SFleb (S754_infinity true) r = true.
Proof. destruct r as [s|[|]| |[|] m e]; intros H; try reflexivity. congruence. Qed.

Lemma SFleb_pos_infinity (r : spec_float) :
  r <> S754_nan -> SFleb r (S754_infinity false) = true.
Proof. destruct r as [s|[|]| |[|] m e]; intros H; try reflexivity. congruence. Qed.

Lemma SFmul_pos_not_nan (mk : positive) (ek : Z) (x : spec_float) :
  valid_binary (S754_finite false mk ek) = true -> valid_binary x = true ->
  x <> S754_nan -> SFmul prec emax (S754_finite false mk ek) x <> S754_nan.
Proof.
  intros Hvk Hv Hx. destruct x as [s|s| |s m e]; try discriminate; [congruence|].
  eapply rounds_not_nan. apply SFmul_rounds; [exact I|exact Hvk|exact Hv].
Qed.

Lemma SFmul_le_mono_pos (mk : positive) (ek : Z) (x y : spec_float) :
  let K := S754_finite false mk ek in
  valid_binary K = true -> valid_binary x = true -> valid_binary y = true ->
  valid_binary (SFmul prec emax K x) = true ->
  valid_binary (SFmul prec emax K y) = true ->
  SFleb x y = true -> SFleb (SFmul prec emax K x) (SFmul prec emax K y) = true.
Proof.
  intros K Hvk Hvx Hvy Hvrx Hvry Hle.
  assert (Hfin : SFfinite x -> SFfinite y ->
                 SFleb (SFmul prec emax K x) (SFmul prec emax K y) = true).
  { intros Hx Hy.
    eapply rounds_le;
      [apply SFmul_rounds; assumption|apply SFmul_rounds; assumption
      |exact Hvrx|exact Hvry|].
    apply Z.mul_le_mono_nonneg_l; [lia|].
    pose proof (valid_finite mk ek Hvk) as (Hek & _).
    apply SFleb_val; try assumption. unfold Bexp. lia. }
  assert (Hnx : x <> S754_nan) by (intros ->; discriminate Hle).
  assert (Hny : y <> S754_nan)
    by (intros ->; destruct x as [s|[|]| |[|] m e]; discriminate Hle).
  pose proof (SFmul_pos_not_nan mk ek x Hvk Hvx Hnx) as Hrx.
  pose proof (SFmul_pos_not_nan mk ek y Hvk Hvy Hny) as Hry.
  destruct x as [sx|[|]| |sx mx ex].
  - destruct y as [sy|[|]| |sy my ey]; try (apply Hfin; exact I); try discriminate Hle.
    apply SFleb_pos_infinity, Hrx.
  - apply SFleb_neg_infinity, Hry.
  - destruct y as [sy|[|]| |[|] my ey]; try discriminate Hle. reflexivity.
  - congruence.
  - destruct y as [sy|[|]| |sy my ey]; try (apply Hfin; exact I);
      try (destruct sx; discriminate Hle).
    apply SFleb_pos_infinity, Hrx.
Qed.

(** Multiplying by a positive finite number keeps the order, for
    operands of any sign, infinite ones included. *)
Lemma mul_le_mono_pos (k x y : float) :
  (0 <? k)%float = true -> (k <? infinity)%float = true ->
  (x <=? y)%float = true -> (k * x <=? k * y)%float = true.
Proof.
  intros Hk Hk' Hle.
  destruct (pos_finite_cases k Hk Hk') as (mk & ek & HK).
  pose proof (Prim2SF_valid k) as Hvk. pose proof (Prim2SF_valid x) as Hvx.
  pose proof (Prim2SF_valid y) as Hvy.
  pose proof (Prim2SF_valid (k * x)) as Hvrx. pose proof (Prim2SF_valid (k * y)) as Hvry.
  rewrite leb_spec in Hle. rewrite leb_spec. rewrite !mul_spec in *. rewrite HK in *.
  apply SFmul_le_mono_pos; assumption.
Qed.

Lemma mul_le_mono_pos_r (k x y : float) :
  (0 <? k)%float = true -> (k <? infinity)%float = true ->
  (x <=? y)%float = true -> (x * k <=? y * k)%float = true.
Proof. rewrite (mul_comm x k), (mul_comm y k). apply mul_le_mono_pos. Qed.

End MulMonotoneAll.

(** ** Sums *)

Section AddRounding.
Local Open Scope Z_scope.

Lemma iter_xO_value (m d : positive) : Zpos (Pos.iter xO m d) = Zpos m * 2 ^ Zpos d.
Proof.
  change (Pos.iter xO m d) with (shift_pos d m).
  rewrite shift_pos_correct. change (Zpower_pos 2 d) with (2 ^ Zpos d). lia.
Qed.

Lemma shl_align_spec (m : positive) (e e' : Z) :
  snd (shl_align m e e') = Z.min e e' /\
  Zpos (fst (shl_align m e e')) = Zpos m * 2 ^ (e - Z.min e e').
Proof.
  unfold shl_align. destruct (e' - e) as [|d|d] eqn:Hd; cbn [fst snd].
  - replace (Z.min e e') with e by lia. rewrite Z.sub_diag. split; lia.
  - replace (Z.min e e') with e by lia. rewrite Z.sub_diag. split; lia.
  - replace (Z.min e e') with e' by lia. split; [reflexivity|].
    rewrite iter_xO_value. f_equal. f_equal. lia.
Qed.

Lemma digits_shift (m m' : positive) (d : Z) :
  0 <= d -> Zpos m' = Zpos m * 2 ^ d ->
  Zpos (digits2_pos m') = Zpos (digits2_pos m) + d.
Proof.
  intros Hd H. rewrite !digits2_pos_log2, H.
  rewrite Z.log2_mul_pow2 by lia. lia.
Qed.

Lemma binary_round_opp (s : bool) (m : positive) (e : Z) :
  binary_round prec emax (negb s) m e = SFopp (binary_round prec emax s m e).
Proof.
  unfold binary_round. destruct (shl_align m e _) as [mz ez].
  apply binary_round_aux_opp.
Qed.

Lemma binary_round_spec (M : positive) (E : Z) :
  - Bexp <= E <= 971 ->
  rounds_pos (binary_round prec emax false M E) (Zpos M * 2 ^ (E + Bexp)).
Proof.
  intros HE. unfold binary_round.
  set (fe := fexp prec emax (Zpos (digits2_pos M) + E)).
  destruct (shl_align_spec M E fe) as [He' Hm'].
  destruct (shl_align M E fe) as [M' E']. cbn [fst snd] in He', Hm'.
  assert (Hfe : -1074 <= fe) by (unfold fe, fexp, SpecFloat.emin, prec, emax; lia).
  assert (Hd : Zpos (digits2_pos M') + E' = Zpos (digits2_pos M) + E).
  { rewrite (digits_shift M M' (E - Z.min E fe)) by (lia || exact Hm'). lia. }
  destruct (round_spec M' E') as (Q & HQ & Hn & Ho).
  - unfold Bexp in *. lia.
  - lia.
  - rewrite Hd in Hn, Ho. fold fe in Hn, Ho.
    assert (Hval : Zpos M' * 2 ^ (E' + Bexp) = Zpos M * 2 ^ (E + Bexp)).
    { rewrite Hm', <- Z.mul_assoc, <- Z.pow_add_r by (unfold Bexp in *; lia).
      f_equal. f_equal. lia. }
    rewrite Hval in Hn.
    exists M, E, Q. fold fe. split; [lia|]. split; [reflexivity|]. split; assumption.
Qed.

Lemma binary_normalize_rounds (S E : Z) :
  - Bexp <= E <= 971 ->
  rounds (binary_normalize prec emax S E false) (S * 2 ^ (E + Bexp)).
Proof.
  intros HE.
  assert (Hp : 0 < 2 ^ (E + Bexp)) by (apply pow2_pos; unfold Bexp in *; lia).
  destruct S as [|p|p]; cbn [binary_normalize].
  - left. split; [lia|eauto].
  - right. left. split; [lia|]. apply binary_round_spec, HE.
  - right. right. split; [lia|].
    change true with (negb false). rewrite binary_round_opp, SFopp_involutive.
    replace (- (Z.neg p * 2 ^ (E + Bexp))) with (Zpos p * 2 ^ (E + Bexp)) by lia.
    apply binary_round_spec, HE.
Qed.

Lemma SFval_align (s : bool) (m : positive) (e ez : Z) :
  ez <= e -> 0 <= ez + Bexp ->
  cond_Zopp s (Zpos (fst (shl_align m e ez))) * 2 ^ (ez + Bexp)
  = SFval Bexp (S754_finite s m e).
Proof.
  intros Hez HB. destruct (shl_align_spec m e ez) as [_ Hm]. rewrite Hm.
  replace (Z.min e ez) with ez by lia. cbn [SFval].
  replace (e + Bexp) with ((e - ez) + (ez + Bexp)) by lia.
  rewrite (Z.pow_add_r 2 (e - ez) (ez + Bexp)) by lia. destruct s; cbn [cond_Zopp]; lia.
Qed.

(** The sum of two finite numbers is the rounding of the exact sum. *)
Lemma SFadd_rounds (x y : spec_float) :
  SFfinite x -> SFfinite y ->
  valid_binary x = true -> valid_binary y = true ->
  rounds (SFadd prec emax x y) (SFval Bexp x + SFval Bexp y).
Proof.
  intros Hx Hy Hvx Hvy.
  destruct x as [sx|sx| |sx mx ex], y as [sy|sy| |sy my ey]; try contradiction.
  - left. split; [reflexivity|]. destruct sx, sy; cbn [SFadd]; eauto.
  - cbn [SFadd]. change (SFval Bexp (S754_zero sx)) with 0. rewrite Z.add_0_l.
    apply valid_rounds_self; assumption.
  - cbn [SFadd]. change (SFval Bexp (S754_zero sy)) with 0. rewrite Z.add_0_r.
    apply valid_rounds_self; assumption.
  - change (valid_binary (S754_finite sx mx ex)) with
      (valid_binary (S754_finite false mx ex)) in Hvx.
    change (valid_binary (S754_finite sy my ey)) with
      (valid_binary (S754_finite false my ey)) in Hvy.
    pose proof (valid_finite mx ex Hvx) as (Hex & _).
    pose proof (valid_finite my ey Hvy) as (Hey & _).
    cbn [SFadd].
    rewrite <- (SFval_align sx mx ex (Z.min ex ey)) by (unfold Bexp; lia).
    rewrite <- (SFval_align sy my ey (Z.min ex ey)) by (unfold Bexp; lia).
    rewrite <- Z.mul_add_distr_r.
    apply binary_normalize_rounds. unfold Bexp. lia.
Qed.

Lemma SFadd_le_mono_r (x y c : spec_float) :
  SFfinite x -> SFfinite y -> SFfinite c ->
  valid_binary x = true -> valid_binary y = true -> valid_binary c = true ->
  valid_binary (SFadd prec emax x c) = true ->
  valid_binary (SFadd prec emax y c) = true ->
  SFleb x y = true -> SFleb (SFadd prec emax x c) (SFadd prec emax y c) = true.
Proof.
  intros Hx Hy Hc Hvx Hvy Hvc Hvrx Hvry Hle.
  eapply rounds_le;
    [apply SFadd_rounds; assumption|apply SFadd_rounds; assumption
    |exact Hvrx|exact Hvry|].
  apply Z.add_le_mono_r. apply SFleb_val; try assumption. unfold Bexp. lia.
Qed.

End AddRounding.

Section AddMonotone.

Lemma finite_between (x lo hi : spec_float) :
  SFfinite lo -> SFfinite hi -> SFleb lo x = true -> SFleb x hi = true -> SFfinite x.
Proof.
  destruct x as [s|[|]| |s m e]; try exact (fun _ _ _ _ => I);
    destruct lo as [sl|sl| |sl ml el], hi as [sh|sh| |sh mh eh];
    try contradiction; try discriminate;
    repeat match goal with s : bool |- _ => destruct s end; discriminate.
Qed.

(** Adding a finite number keeps the order of finite numbers. *)
Lemma add_le_mono_r (x y c lo hi : float) :
  is_finite lo = true -> is_finite hi = true -> is_finite c = true ->
  (lo <=? x)%float = true -> (x <=? y)%float = true -> (y <=? hi)%float = true ->
  (x + c <=? y + c)%float = true.
Proof.
  intros Hlo Hhi Hc Hlx Hxy Hyh.
  assert (Hfin : forall z, is_finite z = true -> SFfinite (Prim2SF z)).
  { intros z Hz. destruct (is_finite_cases z Hz) as [[s ->]|(s & m & e & ->)]; exact I. }
  pose proof (leb_trans _ _ _ Hlx Hxy) as Hly. pose proof (leb_trans _ _ _ Hxy Hyh) as Hxh.
  rewrite leb_spec in *. rewrite !add_spec.
  apply SFadd_le_mono_r; try apply Prim2SF_valid; try assumption.
  - eapply finite_between; [apply Hfin, Hlo|apply Hfin, Hhi| |]; eassumption.
  - eapply finite_between; [apply Hfin, Hlo|apply Hfin, Hhi| |]; eassumption.
  - apply Hfin, Hc.
  - rewrite <- add_spec. apply Prim2SF_valid.
  - rewrite <- add_spec. apply Prim2SF_valid.
Qed.

End AddMonotone.

(** * The range of the hue *)

Section Hue.
Context {libm : Libm}.

(** An angle of [-pi, pi], in degrees, with 360 added when negative. *)
Lemma hue_of_angle (a : float) :
  (- pi <=? a) = true -> (a <=? pi) = true ->
  let h := a * (360.0 / 2.0 / pi) in
  (0 <=? (if h <? 0.0 then h + 360.0 else h)) = true /\
  ((if h <? 0.0 then h + 360.0 else h) <=? 360) = true.
Proof.
  intros Hlo Hhi h.
  assert (H1 : (-180 <=? h) = true).
  { change (-180) with (- pi * (360.0 / 2.0 / pi)).
    apply mul_le_mono_pos_r; [reflexivity|reflexivity|exact Hlo]. }
  assert (H2 : (h <=? 180) = true).
  { change 180 with (pi * (360.0 / 2.0 / pi)).
    apply mul_le_mono_pos_r; [reflexivity|reflexivity|exact Hhi]. }
  destruct (h <? 0.0) eqn:Hneg.
  - apply ltb_leb in Hneg. split.
    + apply leb_trans with (-180 + 360.0); [reflexivity|].
      apply (add_le_mono_r (-180) h 360.0 (-180) 0); try reflexivity; assumption.
    + change 360 with (0 + 360.0).
      apply (add_le_mono_r h 0 360.0 (-180) 0); try reflexivity; assumption.
  - split.
    + apply leb_total; [exact (leb_refl_r _ _ H1)|reflexivity|exact Hneg].
    + apply leb_trans with 180; [exact H2|reflexivity].
Qed.

Lemma lch2hsluv_hue (t : Triplet.t) :
  Triplet.a (lch2hsluv t) = if Triplet.b t <? 0.00000001 then 0 else Triplet.c t.
Proof. reflexivity. Qed.

Lemma lch2hpluv_hue (t : Triplet.t) :
  Triplet.a (lch2hpluv t) = if Triplet.b t <? 0.00000001 then 0 else Triplet.c t.
Proof. reflexivity. Qed.

End Hue.

(** The hue that [luv2lch] returns lies in the closed interval
    [0, 360], for every LUV triple at which [atan2] returns an angle of
    [-pi, pi]. *)
Theorem luv2lch_hue_range {libm : Libm} (t : Triplet.t) :
  (- pi <=? atan2 (Triplet.c t) (Triplet.b t)) = true ->
  (atan2 (Triplet.c t) (Triplet.b t) <=? pi) = true ->
  (0 <=? Triplet.c (luv2lch t)) = true /\ (Triplet.c (luv2lch t) <=? 360) = true.
Proof.
  intros Hlo Hhi. unfold luv2lch. cbn [Triplet.a Triplet.b Triplet.c].
  destruct (_ <? 0.00000001); [split; reflexivity|].
  apply hue_of_angle; assumption.
Qed.

(** So does the hue that [rgb2hsluv] and [rgb2hpluv] return. *)
Theorem rgb_hue_range {libm : Libm} (r g b : float) :
  let luv := xyz2luv (rgb2xyz (Triplet.mk r g b)) in
  (- pi <=? atan2 (Triplet.c luv) (Triplet.b luv)) = true ->
  (atan2 (Triplet.c luv) (Triplet.b luv) <=? pi) = true ->
  ((0 <=? Triplet.a (rgb2hsluv r g b)) = true /\
   (Triplet.a (rgb2hsluv r g b) <=? 360) = true) /\
  ((0 <=? Triplet.a (rgb2hpluv r g b)) = true /\
   (Triplet.a (rgb2hpluv r g b) <=? 360) = true).
Proof.
  intros luv Hlo Hhi. unfold rgb2hsluv, rgb2hpluv. fold luv.
  rewrite lch2hsluv_hue, lch2hpluv_hue.
  destruct (_ <? 0.00000001); [repeat split; reflexivity|].
  unfold luv2lch. cbn [Triplet.a Triplet.b Triplet.c].
  destruct (_ <? 0.00000001); [repeat split; reflexivity|].
  split; apply hue_of_angle; assumption.
Qed.

Section HueRangeReference.
#[local] Existing Instance ref_libm.

Lemma luv2lch_hue_range_witness :
  (0 <=? Triplet.c (luv2lch (Triplet.mk 50 1 (-1e-20)))) = true /\
  (Triplet.c (luv2lch (Triplet.mk 50 1 (-1e-20))) <=? 360) = true.
Proof.
  apply (luv2lch_hue_range (Triplet.mk 50 1 (-1e-20))); vm_compute; reflexivity.
Defined.

Lemma rgb_hue_range_witness :
  ((0 <=? Triplet.a (rgb2hsluv 0.2 0.4 0.6)) = true /\
   (Triplet.a (rgb2hsluv 0.2 0.4 0.6) <=? 360) = true) /\
  ((0 <=? Triplet.a (rgb2hpluv 0.2 0.4 0.6)) = true /\
   (Triplet.a (rgb2hpluv 0.2 0.4 0.6) <=? 360) = true).
Proof.
  apply (rgb_hue_range 0.2 0.4 0.6); vm_compute; reflexivity.
Defined.

End HueRangeReference.

(** * Division rounds the exact quotient *)

Section QuotientRounding.
Local Open Scope Z_scope.

Lemma near_unit_mono (P X1 X2 Q1 Q2 : Z) :
  0 < P -> X1 <= X2 -> near_unit P X1 Q1 -> near_unit P X2 Q2 -> Q1 <= Q2.
Proof.
  intros HP HX [Hb1 He1] [Hb2 He2].
  destruct (Z_le_gt_dec Q1 Q2) as [H|H]; [exact H|exfalso].
  assert (Hq : Q1 = Q2 + 1) by nia.
  assert (H1 : Z.even Q1 = true) by (apply He1; right; nia).
  assert (H2 : Z.even Q2 = true) by (apply He2; left; nia).
  subst Q1. rewrite Z.even_add, H2 in H1. discriminate H1.
Qed.

Lemma near_unit_le_grid (P X Q C : Z) :
  0 < P -> near_unit P X Q -> X <= C * P -> Q <= C.
Proof. intros HP [Hb _] HX. nia. Qed.

Lemma near_unit_ge_grid (P X Q C : Z) :
  0 < P -> near_unit P X Q -> C * P <= X -> C <= Q.
Proof. intros HP [Hb _] HX. nia. Qed.

Lemma near_unit_scale (P X Q C : Z) :
  0 < C -> near_unit P X Q -> near_unit (P * C) (X * C) Q.
Proof.
  intros HC [Hb He]. unfold near_unit.
  set (d := 2 * X - Q * (2 * P)) in *.
  replace (2 * (X * C) - Q * (2 * (P * C))) with (d * C) by (unfold d; ring).
  split; [nia|]. intros [H|H]; apply He; [left|right]; nia.
Qed.

Lemma shifted_by_step (D k N : Z) (mrs : shr_record) :
  0 < D -> 0 <= k -> shifted_by D k N mrs -> shifted_by D (k + 1) N (shr_1 mrs).
Proof.
  intros HD Hk [Hm (t & Ht & HN & Hs)]. destruct mrs as [m r s].
  cbn [shr_m shr_r shr_s] in Hm, HN, Hs.
  rewrite shr_1_spec by exact Hm. unfold shifted_by; cbn [shr_m shr_r shr_s]. split.
  - apply Z.div_pos; lia.
  - exists ((if r then 2 ^ k * D else 0) + t).
    pose proof (pow2_pos k Hk) as Hp. rewrite (pow2_succ k Hk).
    set (P := 2 ^ k) in *.
    pose proof (Z.div_mod m 2 ltac:(lia)) as Hdm. rewrite Zmod_odd in Hdm.
    split; [destruct r; nia|]. split.
    + destruct (Z.odd m); destruct r; nia.
    + subst s. destruct r; simpl.
      * symmetry. apply negb_true_iff, Z.eqb_neq. nia.
      * reflexivity.
Qed.

Lemma shifted_by_iter (D : Z) (n : positive) :
  forall (k N : Z) (mrs : shr_record),
    0 < D -> 0 <= k -> shifted_by D k N mrs ->
    shifted_by D (k + Zpos n) N (iter_pos shr_1 n mrs).
Proof.
  induction n as [n IH|n IH|]; intros k N mrs HD Hk H; simpl iter_pos.
  - replace (k + Zpos n~1) with (k + 1 + Zpos n + Zpos n) by lia.
    apply IH; [exact HD|lia|]. apply IH; [exact HD|lia|]. apply shifted_by_step; assumption.
  - replace (k + Zpos n~0) with (k + Zpos n + Zpos n) by lia.
    apply IH; [exact HD|lia|]. apply IH; assumption.
  - apply shifted_by_step; assumption.
Qed.

(** The location that the division records for the remainder [r]. *)
Lemma location_shifted (D q r : Z) :
  0 < D -> 0 <= q -> 0 <= r < D ->
  shifted_by D 0 (q * D + r) (shr_record_of_loc q (new_location D r)).
Proof.
  intros HD Hq Hr. unfold shifted_by. rewrite shr_record_of_loc_m.
  split; [exact Hq|]. change (2 ^ 0) with 1.
  unfold new_location, new_location_even, new_location_odd.
  destruct (Z.even D) eqn:Hev.
  - destruct (Z.eqb_spec r 0) as [->|Hr0].
    + exists 0. cbn [shr_record_of_loc shr_r shr_s]. repeat split; try lia.
    + destruct (Z.compare_spec (2 * r) D) as [Hc|Hc|Hc]; cbn [shr_record_of_loc shr_r shr_s].
      * exists 0. repeat split; try lia.
      * exists (2 * r). repeat split; try lia;
          symmetry; apply negb_true_iff, Z.eqb_neq; lia.
      * exists (2 * r - D). repeat split; try lia;
          symmetry; apply negb_true_iff, Z.eqb_neq; lia.
  - assert (Hodd : Z.odd D = true) by (rewrite <- Z.negb_even, Hev; reflexivity).
    apply Z.odd_spec in Hodd. destruct Hodd as [d Hd].
    destruct (Z.eqb_spec r 0) as [->|Hr0].
    + exists 0. cbn [shr_record_of_loc shr_r shr_s]. repeat split; try lia.
    + destruct (Z.compare_spec (2 * r + 1) D) as [Hc|Hc|Hc]; cbn [shr_record_of_loc shr_r shr_s].
      * exists (2 * r). repeat split; try lia;
          symmetry; apply negb_true_iff, Z.eqb_neq; lia.
      * exists (2 * r). repeat split; try lia;
          symmetry; apply negb_true_iff, Z.eqb_neq; lia.
      * exists (2 * r - D). repeat split; try lia;
          symmetry; apply negb_true_iff, Z.eqb_neq; lia.
Qed.

Lemma round_near_by (D k N : Z) (mrs : shr_record) :
  0 < D -> 0 <= k -> shifted_by D k N mrs ->
  near_unit (2 ^ k * D) N (round_nearest_even (shr_m mrs) (loc_of_shr_record mrs)).
Proof.
  intros HD Hk [Hm (t & Ht & HN & Hs)]. destruct mrs as [m r s].
  cbn [shr_m shr_r shr_s] in Hm, HN, Hs. unfold near_unit.
  pose proof (pow2_pos k Hk) as Hp. set (P := 2 ^ k) in *.
  cbn [shr_m]. unfold loc_of_shr_record.
  destruct r, s; cbn [round_nearest_even].
  - (* Gt *) symmetry in Hs. apply negb_true_iff, Z.eqb_neq in Hs.
    split; [nia|]. intros [H|H]; nia.
  - (* tie *) symmetry in Hs. apply negb_false_iff, Z.eqb_eq in Hs. subst t.
    destruct (Z.even m) eqn:He.
    + split; [nia|]. intros _. exact He.
    + split; [nia|]. intros _. rewrite Z.even_add, He. reflexivity.
  - (* Lt *) symmetry in Hs. apply negb_true_iff, Z.eqb_neq in Hs.
    split; [nia|]. intros [H|H]; nia.
  - (* exact *) symmetry in Hs. apply negb_false_iff, Z.eqb_eq in Hs. subst t.
    split; [nia|]. intros [H|H]; nia.
Qed.

Lemma shifted_by_quot_lt (D n N d : Z) (mrs : shr_record) :
  0 < D -> 0 <= n -> 0 <= d -> shifted_by D n N mrs ->
  N < 2 ^ (d + n) * D -> shr_m mrs < 2 ^ d.
Proof.
  intros HD Hn Hd [Hm (t & Ht & HN & _)] Hlt.
  rewrite Z.pow_add_r in Hlt by lia.
  pose proof (pow2_pos n Hn). pose proof (pow2_pos d Hd).
  assert (0 <= (if shr_r mrs then 2 ^ n else 0)) by (destruct (shr_r mrs); lia).
  nia.
Qed.

Lemma shifted_by_quot_ge (D n N d : Z) (mrs : shr_record) :
  0 < D -> 0 <= n -> 0 <= d -> shifted_by D n N mrs ->
  2 ^ (d + n) * D <= N -> 2 ^ d <= shr_m mrs.
Proof.
  intros HD Hn Hd [Hm (t & Ht & HN & _)] Hge.
  rewrite Z.pow_add_r in Hge by lia.
  pose proof (pow2_pos n Hn). pose proof (pow2_pos d Hd).
  assert ((if shr_r mrs then 2 ^ n else 0) <= 2 ^ n) by (destruct (shr_r mrs); lia).
  nia.
Qed.

End QuotientRounding.

Section QuotientSpec.
Local Open Scope Z_scope.

Lemma shr_fexp_loc (D N q e : Z) (l : location) :
  0 < D -> shifted_by D 0 N (shr_record_of_loc q l) ->
  let n := fexp prec emax (Zdigits2 q + e) - e in
  (n <= 0 -> shr_fexp prec emax q e l = (shr_record_of_loc q l, e)) /\
  (0 < n -> exists mrs, shr_fexp prec emax q e l = (mrs, e + n) /\ shifted_by D n N mrs).
Proof.
  intros HD Hsh n. unfold shr_fexp. fold n. unfold shr.
  destruct n as [|p|p] eqn:Hn; split; intros H; try lia; try reflexivity.
  eexists. split; [reflexivity|].
  apply (shifted_by_iter D p 0 N _ HD (Z.le_refl 0)), Hsh.
Qed.

Lemma Zdigits2_bound (q : Z) : 0 <= q -> 0 <= Zdigits2 q /\ q + 1 <= 2 ^ Zdigits2 q.
Proof.
  intros Hq. destruct (Z.eq_dec q 0) as [->|Hnz]; [split; [reflexivity|cbn; lia]|].
  rewrite Zdigits2_log2 by lia.
  pose proof (digits_bounds q ltac:(lia)). pose proof (Z.log2_nonneg q). lia.
Qed.

Lemma Zdigits2_lower (q : Z) : 0 < q -> 2 ^ (Zdigits2 q - 1) <= q.
Proof.
  intros Hq. rewrite Zdigits2_log2 by lia.
  replace (Z.log2 q + 1 - 1) with (Z.log2 q) by lia. apply digits_bounds, Hq.
Qed.

(** [binary_round_aux] on a truncated quotient [q] with its location. *)
Lemma quot_round_spec (D N q E : Z) (l : location) :
  let fe := fexp prec emax (Zdigits2 q + E) in
  0 < D -> 0 <= q -> shifted_by D 0 N (shr_record_of_loc q l) ->
  q * D <= N < (q + 1) * D ->
  - Bexp <= E -> E <= fe ->
  exists Q, near_unit (2 ^ (fe + Bexp) * D) (N * 2 ^ (E + Bexp)) Q /\
            out_spec (binary_round_aux prec emax false q E l) (Q * 2 ^ (fe + Bexp)).
Proof.
  intros fe HD Hq Hsh HN HB HEfe.
  assert (Hfe : -1074 <= fe /\ Zdigits2 q + E - 53 <= fe)
    by (unfold fe, fexp, SpecFloat.emin, prec, emax; lia).
  destruct (Zdigits2_bound q Hq) as [Hd0 Hqhi].
  set (dq := Zdigits2 q) in *.
  assert (HpE : 0 < 2 ^ (E + Bexp)) by (apply pow2_pos; lia).
  unfold binary_round_aux.
  destruct (shr_fexp_loc D N q E l HD Hsh) as [Hle Hgt]. fold dq in Hle, Hgt. fold fe in Hle, Hgt.
  assert (Hbig : 972 <= fe -> fe = dq + E - 53 /\ 0 < q).
  { intros H. assert (Hfe' : fe = dq + E - 53)
      by (unfold fe, fexp, SpecFloat.emin, prec, emax in *; lia).
    split; [exact Hfe'|]. destruct (Z.eq_dec q 0) as [Hz|Hz]; [|lia].
    subst q. change dq with 0 in Hfe'. unfold Bexp in *. lia. }
  destruct (Z.eq_dec fe E) as [Heq|Hne].
  - (* no shift *)
    rewrite (Hle ltac:(lia)).
    pose proof (round_near_by D 0 N _ HD (Z.le_refl 0) Hsh) as Hnear.
    pose proof (round_nearest_even_bounds (shr_m (shr_record_of_loc q l))
                  (loc_of_shr_record (shr_record_of_loc q l))) as Hrb.
    rewrite shr_record_of_loc_m in Hnear, Hrb. rewrite shr_record_of_loc_m.
    set (Q := round_nearest_even q (loc_of_shr_record (shr_record_of_loc q l))) in *.
    change (2 ^ 0) with 1 in Hnear. rewrite Z.mul_1_l in Hnear.
    exists Q. rewrite Heq. split.
    + rewrite (Z.mul_comm (2 ^ (E + Bexp)) D). apply near_unit_scale; assumption.
    + apply finish_spec.
      * split; [lia|].
        assert (2 ^ dq <= 2 ^ 53) by (apply pow2_le; lia). lia.
      * lia.
      * intros H. destruct (Hbig ltac:(lia)) as [Hfe' Hq0].
        pose proof (Zdigits2_lower q Hq0) as Hlo. fold dq in Hlo.
        replace (dq - 1) with 52 in Hlo by lia. lia.
  - (* shifted right by [fe - E] *)
    destruct (Hgt ltac:(lia)) as (mrs & Heq & Hsh'). rewrite Heq.
    replace (E + (fe - E)) with fe by lia.
    pose proof (round_near_by D (fe - E) N mrs HD ltac:(lia) Hsh') as Hnear.
    pose proof (round_nearest_even_bounds (shr_m mrs) (loc_of_shr_record mrs)) as Hrb.
    set (Q := round_nearest_even (shr_m mrs) (loc_of_shr_record mrs)) in *.
    assert (Hm0 : 0 <= shr_m mrs) by (destruct Hsh' as [H _]; exact H).
    exists Q. split.
    + replace (2 ^ (fe + Bexp) * D) with (2 ^ (fe - E) * D * 2 ^ (E + Bexp)).
      * apply near_unit_scale; assumption.
      * replace (fe + Bexp) with ((fe - E) + (E + Bexp)) by lia.
        rewrite (Z.pow_add_r 2 (fe - E) (E + Bexp)) by lia. ring.
    + apply finish_spec.
      * split; [lia|].
        assert (shr_m mrs < 2 ^ 53); [|lia].
        apply (shifted_by_quot_lt D (fe - E) N 53 mrs); [exact HD|lia|lia|exact Hsh'|].
        apply Z.lt_le_trans with ((q + 1) * D); [lia|].
        apply Z.mul_le_mono_nonneg_r; [lia|].
        apply Z.le_trans with (2 ^ dq); [exact Hqhi|apply pow2_le; lia].
      * lia.
      * intros H. destruct (Hbig H) as [Hfe' Hq0].
        assert (2 ^ 52 <= shr_m mrs); [|lia].
        apply (shifted_by_quot_ge D (fe - E) N 52 mrs); [exact HD|lia|lia|exact Hsh'|].
        apply Z.le_trans with (q * D); [|lia].
        apply Z.mul_le_mono_nonneg_r; [lia|].
        pose proof (Zdigits2_lower q Hq0) as Hlo. fold dq in Hlo.
        replace (52 + (fe - E)) with (dq - 1) by lia. exact Hlo.
Qed.

End QuotientSpec.

Section QuotientOrder.
Local Open Scope Z_scope.

(** The quotient of two positive numbers is the rounding of the exact
    quotient. *)
Lemma SFdiv_rounds (mx md : positive) (ex ed : Z) :
  valid_binary (S754_finite false mx ex) = true ->
  valid_binary (S754_finite false md ed) = true ->
  rounds_quot (Zpos md)
    (SFdiv prec emax (S754_finite false mx ex) (S754_finite false md ed))
    (Zpos mx * 2 ^ (ex - ed + Bexp)).
Proof.
  intros Hvx Hvd. cbn [SFdiv xorb].
  pose proof (valid_finite mx ex Hvx) as (Hex & Hmx & _).
  pose proof (valid_finite md ed Hvd) as (Hed & Hmd & _).
  unfold SFdiv_core_binary. cbn [Zdigits2]. rewrite !digits2_pos_log2.
  pose proof (digits_bounds (Zpos mx) ltac:(lia)) as [Hxlo Hxhi].
  pose proof (digits_bounds (Zpos md) ltac:(lia)) as [Hdlo Hdhi].
  pose proof (Z.log2_nonneg (Zpos mx)) as Hlx.
  pose proof (Z.log2_nonneg (Zpos md)) as Hld.
  assert (Hlx' : Z.log2 (Zpos mx) < 53) by (apply Z.log2_lt_pow2; lia).
  assert (Hld' : Z.log2 (Zpos md) < 53) by (apply Z.log2_lt_pow2; lia).
  set (dx := Z.log2 (Zpos mx) + 1) in *. set (dd := Z.log2 (Zpos md) + 1) in *.
  set (e' := Z.min (fexp prec emax (dx + ex - (dd + ed))) (ex - ed)).
  assert (He' : e' <= ex - ed /\ -2045 <= e' /\
                (-1074 < e' -> e' <= dx + ex - (dd + ed) - 53))
    by (unfold e', fexp, SpecFloat.emin, prec, emax; lia).
  set (s := ex - ed - e').
  set (m' := match s with Zpos _ => Z.shiftl (Zpos mx) s | Z0 => Zpos mx | Zneg _ => 0 end).
  assert (Hs : 0 <= s) by (unfold s; lia).
  assert (Hm' : m' = Zpos mx * 2 ^ s).
  { unfold m'. clearbody s. destruct s as [|p|p]; [simpl; lia| |lia].
    rewrite Z.shiftl_mul_pow2 by lia. reflexivity. }
  pose proof (Z_div_mod m' (Zpos md) ltac:(lia)) as Hdiv.
  destruct (Z.div_eucl m' (Zpos md)) as [q r]. destruct Hdiv as [Hqr Hr].
  pose proof (pow2_pos s Hs) as Hps.
  assert (Hq0 : 0 <= q) by nia.
  assert (HN : q * Zpos md <= m' < (q + 1) * Zpos md) by lia.
  (* a quotient above the smallest exponent has 53 digits or more *)
  assert (Hqbig : -1074 < e' -> 2 ^ 52 <= q).
  { intros H. destruct He' as (_ & _ & He'). specialize (He' H).
    assert (Hs' : 53 - dx + dd <= s) by (unfold s; lia).
    assert (Hlow : 2 ^ (52 + dd) <= m').
    { rewrite Hm'. apply Z.le_trans with (2 ^ (dx - 1) * 2 ^ s).
      - rewrite <- Z.pow_add_r by lia. apply pow2_le. lia.
      - apply Z.mul_le_mono_nonneg_r; [lia|].
        unfold dx. replace (Z.log2 (Zpos mx) + 1 - 1) with (Z.log2 (Zpos mx)) by lia.
        exact Hxlo. }
    rewrite Z.pow_add_r in Hlow by lia. fold dd in Hdhi.
    assert (Hp52 : 0 < 2 ^ 52) by reflexivity. nia. }
  assert (Hsh : shifted_by (Zpos md) 0 m' (shr_record_of_loc q (new_location (Zpos md) r))).
  { rewrite Hqr, (Z.mul_comm (Zpos md) q). apply location_shifted; lia. }
  assert (HEfe : e' <= fexp prec emax (Zdigits2 q + e')).
  { destruct (Z_le_gt_dec e' (-1074)) as [H|H].
    - unfold fexp, SpecFloat.emin, prec, emax. lia.
    - specialize (Hqbig ltac:(lia)).
      assert (Hq53 : 53 <= Zdigits2 q).
      { rewrite Zdigits2_log2 by lia.
        pose proof (Z.log2_le_pow2 q 52 ltac:(lia)) as [Hl _]. specialize (Hl Hqbig). lia. }
      unfold fexp, SpecFloat.emin, prec, emax. lia. }
  destruct (quot_round_spec (Zpos md) m' q e' (new_location (Zpos md) r)
              ltac:(lia) Hq0 Hsh HN ltac:(unfold Bexp; lia) HEfe) as (Q & Hn & Ho).
  assert (Hval : m' * 2 ^ (e' + Bexp) = Zpos mx * 2 ^ (ex - ed + Bexp)).
  { rewrite Hm', <- Z.mul_assoc, <- Z.pow_add_r by (unfold Bexp; lia).
    f_equal. f_equal. unfold s. lia. }
  rewrite Hval in Hn.
  assert (HpE : 0 < 2 ^ (e' + Bexp)) by (apply pow2_pos; unfold Bexp; lia).
  exists q, e', Q. split; [exact Hq0|]. split; [unfold Bexp; lia|].
  split; [intros ->; destruct (Z_le_gt_dec e' (-1074)); [lia|];
          specialize (Hqbig ltac:(lia)); assert (0 < 2 ^ 52) by reflexivity; lia|].
  split; [rewrite <- Hval; nia|]. split; assumption.
Qed.

(** Rounded quotients by one divisor are ordered as the dividends. *)
Lemma rounds_quot_le (D : Z) (r1 r2 : spec_float) (X1 X2 : Z) :
  0 < D -> rounds_quot D r1 X1 -> rounds_quot D r2 X2 ->
  valid_binary r1 = true -> valid_binary r2 = true ->
  X1 <= X2 -> SFleb r1 r2 = true.
Proof.
  intros HD (q1 & E1 & Q1 & Hq1 & HB1 & Hz1 & HX1 & Hn1 & Ho1)
         (q2 & E2 & Q2 & Hq2 & HB2 & Hz2 & HX2 & Hn2 & Ho2) Hv1 Hv2 HX.
  eapply out_spec_leb; [exact Ho1|exact Ho2|exact Hv1|exact Hv2|].
  destruct (Zdigits2_bound q1 Hq1) as [Hd1 Hhi1].
  destruct (Zdigits2_bound q2 Hq2) as [Hd2 Hhi2].
  set (d1 := Zdigits2 q1) in *. set (d2 := Zdigits2 q2) in *.
  set (fe1 := fexp prec emax (d1 + E1)) in *.
  set (fe2 := fexp prec emax (d2 + E2)) in *.
  assert (Hfe1 : -1074 <= fe1 /\ d1 + E1 - 53 <= fe1)
    by (unfold fe1, fexp, SpecFloat.emin, prec, emax; lia).
  assert (Hfe2 : -1074 <= fe2 /\ d2 + E2 - 53 <= fe2)
    by (unfold fe2, fexp, SpecFloat.emin, prec, emax; lia).
  assert (Hp1 : 0 < 2 ^ (E1 + Bexp)) by (apply pow2_pos; lia).
  assert (Hp2 : 0 < 2 ^ (E2 + Bexp)) by (apply pow2_pos; lia).
  assert (Hg1 : 0 < 2 ^ (fe1 + Bexp)) by (apply pow2_pos; unfold Bexp; lia).
  assert (Hg2 : 0 < 2 ^ (fe2 + Bexp)) by (apply pow2_pos; unfold Bexp; lia).
  (* the magnitudes are ordered *)
  assert (Hmag : fe1 <= fe2).
  { destruct (Z.eq_dec q1 0) as [Hz|Hnz].
    - specialize (Hz1 Hz). subst q1. change d1 with 0 in *.
      unfold fe1, fexp, SpecFloat.emin, prec, emax. lia.
    - assert (Hlo1 : 2 ^ (d1 - 1) <= q1) by (apply Zdigits2_lower; lia).
      assert (Hd1' : 1 <= d1)
        by (unfold d1; rewrite Zdigits2_log2 by lia; pose proof (Z.log2_nonneg q1); lia).
      assert (Ha : 2 ^ (d1 - 1 + (E1 + Bexp)) * D < 2 ^ (d2 + (E2 + Bexp)) * D).
      { rewrite (Z.pow_add_r 2 (d1 - 1) (E1 + Bexp)), (Z.pow_add_r 2 d2 (E2 + Bexp)) by lia.
        apply Z.le_lt_trans with (q1 * 2 ^ (E1 + Bexp) * D).
        - apply Z.mul_le_mono_nonneg_r; [lia|].
          apply Z.mul_le_mono_nonneg_r; [lia|exact Hlo1].
        - apply Z.lt_le_trans with ((q2 + 1) * 2 ^ (E2 + Bexp) * D); [lia|].
          apply Z.mul_le_mono_nonneg_r; [lia|].
          apply Z.mul_le_mono_nonneg_r; [lia|exact Hhi2]. }
      apply Z.mul_lt_mono_pos_r in Ha; [|exact HD].
      apply Z.pow_lt_mono_r_iff in Ha; [|lia|lia].
      unfold fe1, fe2, fexp, SpecFloat.emin, prec, emax. lia. }
  destruct (Z.eq_dec fe1 fe2) as [Heq|Hneq].
  - rewrite <- Heq in *.
    apply Z.mul_le_mono_nonneg_r; [lia|].
    eapply near_unit_mono; [|exact HX|exact Hn1|exact Hn2]. nia.
  - assert (Hd2' : fe2 = d2 + E2 - 53)
      by (unfold fe1, fe2, fexp, SpecFloat.emin, prec, emax in *; lia).
    assert (Hq2pos : 0 < q2).
    { destruct (Z.eq_dec q2 0) as [Hz|Hnz]; [|lia].
      specialize (Hz2 Hz). subst q2. change d2 with 0 in *. lia. }
    assert (HQ2 : 2 ^ 52 <= Q2).
    { apply (near_unit_ge_grid (2 ^ (fe2 + Bexp) * D) X2 Q2 (2 ^ 52)); [nia|exact Hn2|].
      apply Z.le_trans with (q2 * 2 ^ (E2 + Bexp) * D); [|lia].
      assert (Hlo2 : 2 ^ (d2 - 1) <= q2) by (apply Zdigits2_lower; lia).
      replace (2 ^ 52 * (2 ^ (fe2 + Bexp) * D)) with (2 ^ (d2 - 1) * 2 ^ (E2 + Bexp) * D).
      - apply Z.mul_le_mono_nonneg_r; [lia|].
        apply Z.mul_le_mono_nonneg_r; [lia|exact Hlo2].
      - assert (Hd2'' : 1 <= d2)
          by (unfold d2; rewrite Zdigits2_log2 by lia; pose proof (Z.log2_nonneg q2); lia).
        rewrite Z.mul_assoc. f_equal.
        rewrite <- (Z.pow_add_r 2 (d2 - 1) (E2 + Bexp)) by lia.
        rewrite <- (Z.pow_add_r 2 52 (fe2 + Bexp)) by (unfold Bexp; lia).
        f_equal. lia. }
    assert (HQ1 : Q1 <= 2 ^ 53).
    { apply (near_unit_le_grid (2 ^ (fe1 + Bexp) * D) X1 Q1 (2 ^ 53)); [nia|exact Hn1|].
      apply Z.le_trans with ((q1 + 1) * 2 ^ (E1 + Bexp) * D); [lia|].
      rewrite Z.mul_assoc. apply Z.mul_le_mono_nonneg_r; [lia|].
      apply Z.le_trans with (2 ^ d1 * 2 ^ (E1 + Bexp)).
      - apply Z.mul_le_mono_nonneg_r; [lia|exact Hhi1].
      - rewrite <- (Z.pow_add_r 2 d1 (E1 + Bexp)) by lia.
        rewrite <- (Z.pow_add_r 2 53 (fe1 + Bexp)) by (unfold Bexp; lia).
        apply pow2_le. lia. }
    apply Z.le_trans with (2 ^ 53 * 2 ^ (fe1 + Bexp)).
    + apply Z.mul_le_mono_nonneg_r; [lia|exact HQ1].
    + apply Z.le_trans with (2 ^ 52 * 2 ^ (fe2 + Bexp)).
      * rewrite <- (Z.pow_add_r 2 53 (fe1 + Bexp)) by (unfold Bexp; lia).
        rewrite <- (Z.pow_add_r 2 52 (fe2 + Bexp)) by (unfold Bexp; lia).
        apply pow2_le. unfold Bexp. lia.
      * apply Z.mul_le_mono_nonneg_r; [lia|exact HQ2].
Qed.

End QuotientOrder.

Section DivMonotone.

Lemma SFleb_zero_sign (s s' : bool) (a : spec_float) :
  SFleb (S754_zero s) a = SFleb (S754_zero s') a.
Proof. destruct a as [sa|sa| |sa m e]; reflexivity. Qed.

Lemma SFleb_zero_not_nan (s : bool) (a : spec_float) :
  SFleb (S754_zero s) a = true -> a <> S754_nan.
Proof. intros H ->. discriminate H. Qed.

(** An odd map that keeps zeros and infinities and is monotone on the
    positive numbers is monotone. *)
Lemma odd_monotone (f : spec_float -> spec_float) :
  (forall x, f (SFopp x) = SFopp (f x)) ->
  (forall s, f (S754_zero s) = S754_zero s) ->
  f (S754_infinity false) = S754_infinity false ->
  (forall m e, valid_binary (S754_finite false m e) = true ->
     SFleb (S754_zero false) (f (S754_finite false m e)) = true) ->
  (forall m1 e1 m2 e2,
     valid_binary (S754_finite false m1 e1) = true ->
     valid_binary (S754_finite false m2 e2) = true ->
     valid_binary (f (S754_finite false m1 e1)) = true ->
     valid_binary (f (S754_finite false m2 e2)) = true ->
     lex_le e1 m1 e2 m2 ->
     SFleb (f (S754_finite false m1 e1)) (f (S754_finite false m2 e2)) = true) ->
  forall x y,
    valid_binary x = true -> valid_binary y = true ->
    valid_binary (f x) = true -> valid_binary (f y) = true ->
    SFleb x y = true -> SFleb (f x) (f y) = true.
Proof.
  intros Hopp Hzero Hinf Hpos Hmono x y Hvx Hvy Hvfx Hvfy Hle.
  assert (Hninf : f (S754_infinity true) = S754_infinity true).
  { change (S754_infinity true) with (SFopp (S754_infinity false)).
    rewrite Hopp, Hinf. reflexivity. }
  assert (Hneg : forall m e, f (S754_finite true m e) = SFopp (f (S754_finite false m e))).
  { intros m e. change (S754_finite true m e) with (SFopp (S754_finite false m e)).
    apply Hopp. }
  assert (Hnonpos : forall m e s, valid_binary (S754_finite false m e) = true ->
                      SFleb (f (S754_finite true m e)) (S754_zero s) = true).
  { intros m e s Hv. rewrite Hneg.
    replace (S754_zero s) with (SFopp (S754_zero (negb s)))
      by (cbn; rewrite negb_involutive; reflexivity).
    rewrite SFleb_opp, (SFleb_zero_sign _ false). apply Hpos, Hv. }
  assert (Hnn : forall z, valid_binary z = true -> z <> S754_nan -> f z <> S754_nan).
  { intros [s|[|]| |[|] m e] Hv Hz; try congruence.
    - rewrite Hneg. intros H.
      apply (SFleb_zero_not_nan false (f (S754_finite false m e))); [apply Hpos, Hv|].
      rewrite <- (SFopp_involutive (f _)), H. reflexivity.
    - eapply SFleb_zero_not_nan. apply Hpos, Hv. }
  assert (Hnx : x <> S754_nan) by (intros ->; discriminate Hle).
  assert (Hny : y <> S754_nan)
    by (intros ->; destruct x as [s|[|]| |[|] m e]; discriminate Hle).
  pose proof (Hnn x Hvx Hnx) as Hfx. pose proof (Hnn y Hvy Hny) as Hfy.
  destruct x as [sx|[|]| |[|] mx ex].
  - (* a zero *)
    destruct y as [sy|[|]| |[|] my ey]; try discriminate Hle.
    + rewrite !Hzero. reflexivity.
    + rewrite Hinf. apply SFleb_pos_infinity, Hfx.
    + rewrite Hzero, (SFleb_zero_sign _ false). apply Hpos, Hvy.
  - rewrite Hninf. apply SFleb_neg_infinity, Hfy.
  - destruct y as [sy|[|]| |[|] my ey]; try discriminate Hle. rewrite Hinf. reflexivity.
  - congruence.
  - (* a negative number *)
    destruct y as [sy|[|]| |[|] my ey]; try discriminate Hle.
    + rewrite (Hzero sy). apply Hnonpos, Hvx.
    + rewrite Hinf. apply SFleb_pos_infinity, Hfx.
    + rewrite !Hneg, SFleb_opp.
      rewrite !Hneg, !valid_binary_opp in *.
      apply SFleb_finite in Hle. apply Hmono; assumption.
    + apply SFleb_trans with (S754_zero false); [apply Hnonpos, Hvx|apply Hpos, Hvy].
  - (* a positive number *)
    destruct y as [sy|[|]| |[|] my ey]; try discriminate Hle.
    + rewrite Hinf. apply SFleb_pos_infinity, Hfx.
    + apply SFleb_finite in Hle. apply Hmono; assumption.
Qed.

Lemma SFdiv_opp_l (x : spec_float) (md : positive) (ed : Z) :
  SFdiv prec emax (SFopp x) (S754_finite false md ed)
  = SFopp (SFdiv prec emax x (S754_finite false md ed)).
Proof.
  destruct x as [s|s| |s m e]; cbn [SFdiv SFopp]; rewrite ?xorb_false_r; try reflexivity.
  destruct (SFdiv_core_binary prec emax (Zpos m) e (Zpos md) ed) as [[mz ez] lz].
  apply binary_round_aux_opp.
Qed.

Lemma SFdiv_le_mono_pos (md : positive) (ed : Z) (x y : spec_float) :
  let D := S754_finite false md ed in
  valid_binary D = true -> valid_binary x = true -> valid_binary y = true ->
  valid_binary (SFdiv prec emax x D) = true ->
  valid_binary (SFdiv prec emax y D) = true ->
  SFleb x y = true -> SFleb (SFdiv prec emax x D) (SFdiv prec emax y D) = true.
Proof.
  intros D Hvd. apply (odd_monotone (fun x => SFdiv prec emax x D)).
  - intros z. apply SFdiv_opp_l.
  - intros s. cbn [SFdiv D]. rewrite xorb_false_r. reflexivity.
  - reflexivity.
  - intros m e Hv.
    destruct (SFdiv_rounds m md e ed Hv Hvd) as (q & E & Q & _ & _ & _ & _ & _ & Ho).
    eapply out_spec_nonneg. exact Ho.
  - intros m1 e1 m2 e2 Hv1 Hv2 Hvr1 Hvr2 Hlex.
    eapply (rounds_quot_le (Zpos md));
      [lia|apply SFdiv_rounds; assumption|apply SFdiv_rounds; assumption
      |exact Hvr1|exact Hvr2|].
    pose proof (valid_finite md ed Hvd) as (Hed & _).
    replace (e1 - ed + Bexp)%Z with (e1 + (Bexp - ed))%Z by lia.
    replace (e2 - ed + Bexp)%Z with (e2 + (Bexp - ed))%Z by lia.
    apply lex_le_value; try assumption. unfold Bexp. lia.
Qed.

(** Dividing by a positive finite number keeps the order, for
    dividends of any sign, infinite ones included. *)
Lemma div_le_mono_pos (d x y : float) :
  (0 <? d)%float = true -> (d <? infinity)%float = true ->
  (x <=? y)%float = true -> (x / d <=? y / d)%float = true.
Proof.
  intros Hd Hd' Hle.
  destruct (pos_finite_cases d Hd Hd') as (md & ed & HD).
  pose proof (Prim2SF_valid d) as Hvd. pose proof (Prim2SF_valid x) as Hvx.
  pose proof (Prim2SF_valid y) as Hvy.
  pose proof (Prim2SF_valid (x / d)) as Hvrx. pose proof (Prim2SF_valid (y / d)) as Hvry.
  rewrite leb_spec in Hle. rewrite leb_spec. rewrite !div_spec in *. rewrite HD in *.
  apply SFdiv_le_mono_pos; assumption.
Qed.

End DivMonotone.

(** * The linear segments of the transfer functions *)

Section Segments.

Lemma SFleb_not_gt (x y : spec_float) : SFleb x y = true -> SFltb y x = false.
Proof.
  destruct x as [sx|sx| |sx mx ex], y as [sy|sy| |sy my ey];
    try (repeat match goal with s : bool |- _ => destruct s end;
         unfold SFleb, SFltb; simpl; congruence).
  rewrite SFleb_finite, SFltb_finite. destruct sx, sy; tauto.
Qed.

Lemma leb_not_gt (x y : float) : (x <=? y) = true -> (y <? x) = false.
Proof. rewrite leb_spec, ltb_spec. apply SFleb_not_gt. Qed.

Lemma SFltb_not_ge (x y : spec_float) : SFltb x y = true -> SFleb y x = false.
Proof.
  destruct x as [sx|sx| |sx mx ex], y as [sy|sy| |sy my ey];
    try (repeat match goal with s : bool |- _ => destruct s end;
         unfold SFleb, SFltb; simpl; congruence).
  intros H. destruct (SFleb (S754_finite sy my ey) (S754_finite sx mx ex)) eqn:E;
    [|reflexivity].
  apply SFleb_not_gt in E. congruence.
Qed.

Lemma ltb_not_ge (x y : float) : (x <? y) = true -> (y <=? x) = false.
Proof. rewrite leb_spec, ltb_spec. apply SFltb_not_ge. Qed.

(** No binary64 number lies strictly between [12.92 * 0.0031308] and
    the next one. *)
Lemma above_linear_threshold (c : float) :
  (12.92 * 0.0031308 <? c) = true -> (0x1.4b5daa07d970ep-5 <=? c) = true.
Proof.
  rewrite ltb_spec, leb_spec. pose proof (Prim2SF_valid c) as Hv.
  change (Prim2SF (12.92 * 0.0031308)) with (S754_finite false 5829450134296333 (-57)).
  change (Prim2SF 0x1.4b5daa07d970ep-5) with (S754_finite false 5829450134296334 (-57)).
  destruct (Prim2SF c) as [s|[|]| |[|] m e]; try discriminate; try reflexivity.
  intros H. apply SFleb_finite. 
  destruct (SFleb (S754_finite false m e) (S754_finite false 5829450134296333 (-57))) eqn:E.
  - apply SFleb_not_gt in E. congruence.
  - clear H. unfold lex_le.
    destruct (Z_lt_le_dec (-57) e) as [Hlt|Hge]; [left; exact Hlt|right].
    destruct (Z.eq_dec e (-57)) as [->|Hne].
    + split; [reflexivity|].
      destruct (Pos.leb_spec m 5829450134296333) as [Hm|Hm]; [|lia].
      exfalso. assert (SFleb (S754_finite false m (-57))
                         (S754_finite false 5829450134296333 (-57)) = true)
        by (apply SFleb_finite; right; split; [reflexivity|exact Hm]).
      congruence.
    + exfalso. assert (SFleb (S754_finite false m e)
                         (S754_finite false 5829450134296333 (-57)) = true)
        by (apply SFleb_finite; left; lia).
      congruence.
Qed.

Context {libm : Libm}.

Lemma from_linear_low (c : float) :
  (c <=? 0.0031308) = true -> from_linear c = 12.92 * c.
Proof. intros H. unfold from_linear. rewrite H. reflexivity. Qed.

Lemma to_linear_low (c : float) :
  (c <=? 0.04045) = true -> to_linear c = c / 12.92.
Proof. intros H. unfold to_linear. rewrite (leb_not_gt _ _ H). reflexivity. Qed.

Lemma y2l_low (y : float) : (y <=? epsilon) = true -> y2l y = y * kappa.
Proof. intros H. unfold y2l. rewrite H. reflexivity. Qed.

Lemma l2y_low (l : float) : (l <=? 8) = true -> l2y l = l / kappa.
Proof. intros H. unfold l2y. rewrite H. reflexivity. Qed.

End Segments.

(** The linear segments of [from_linear] and [to_linear] against each
    other.  What [from_linear] sends through its linear branch comes
    back through the linear branch of [to_linear].  The other way round
    this holds up to [12.92 * 0.0031308] only: an argument above it and
    not above 0.04045 is divided by 12.92 by [to_linear], and the
    quotient goes through the power branch of [from_linear]. *)
Theorem srgb_segments {libm : Libm} (c : float) :
  ((c <=? 0.0031308) = true -> to_linear (from_linear c) = 12.92 * c / 12.92) /\
  ((c <=? 12.92 * 0.0031308) = true -> from_linear (to_linear c) = 12.92 * (c / 12.92)) /\
  ((12.92 * 0.0031308 <? c) = true -> (c <=? 0.04045) = true ->
   from_linear (to_linear c) = 1.055 * pow (c / 12.92) (1.0 / 2.4) - 0.055).
Proof.
  split; [|split].
  - intros H. rewrite (from_linear_low c H). apply to_linear_low.
    apply leb_trans with (12.92 * 0.0031308); [|reflexivity].
    apply mul_le_mono_pos; [reflexivity|reflexivity|exact H].
  - intros H. rewrite to_linear_low by (apply leb_trans with (12.92 * 0.0031308);
                                        [exact H|reflexivity]).
    apply from_linear_low.
    apply leb_trans with (12.92 * 0.0031308 / 12.92); [|reflexivity].
    apply div_le_mono_pos; [reflexivity|reflexivity|exact H].
  - intros Hlo Hhi. rewrite (to_linear_low c Hhi). unfold from_linear.
    assert (Hgt : (c / 12.92 <=? 0.0031308) = false).
    { apply ltb_not_ge.
      assert (Hq : (0x1.4b5daa07d970ep-5 / 12.92 <=? c / 12.92) = true)
        by (apply div_le_mono_pos;
            [reflexivity|reflexivity|apply above_linear_threshold, Hlo]).
      destruct (0.0031308 <? c / 12.92) eqn:E; [reflexivity|exfalso].
      apply leb_total in E; [|reflexivity|exact (leb_refl_r _ _ Hq)].
      pose proof (leb_trans _ _ _ Hq E) as Habs. vm_compute in Habs. discriminate Habs. }
    rewrite Hgt. reflexivity.
Qed.

(** The linear segments of [y2l] and [l2y] correspond exactly: up to
    [epsilon] the lightness is at most 8 and comes back through the
    linear branch of [l2y], and up to 8 the luminance is at most
    [epsilon] and comes back through the linear branch of [y2l]. *)
Theorem cieluv_segments {libm : Libm} (x : float) :
  ((x <=? epsilon) = true -> l2y (y2l x) = x * kappa / kappa) /\
  ((x <=? 8) = true -> y2l (l2y x) = x / kappa * kappa).
Proof.
  split; intros H.
  - rewrite (y2l_low x H). apply l2y_low.
    apply leb_trans with (epsilon * kappa); [|reflexivity].
    apply mul_le_mono_pos_r; [reflexivity|reflexivity|exact H].
  - rewrite (l2y_low x H). apply y2l_low.
    apply leb_trans with (8 / kappa); [|reflexivity].
    apply div_le_mono_pos; [reflexivity|reflexivity|exact H].
Qed.

Section SegmentsReference.
#[local] Existing Instance ref_libm.

Lemma srgb_segments_witness :
  to_linear (from_linear 0.001) = 12.92 * 0.001 / 12.92 /\
  from_linear (to_linear 0.02) = 12.92 * (0.02 / 12.92) /\
  from_linear (to_linear 0.04045) = 1.055 * pow (0.04045 / 12.92) (1.0 / 2.4) - 0.055.
Proof.
  split; [|split].
  - apply (proj1 (srgb_segments 0.001)). reflexivity.
  - apply (proj1 (proj2 (srgb_segments 0.02))). reflexivity.
  - apply (proj2 (proj2 (srgb_segments 0.04045))); reflexivity.
Defined.

Lemma cieluv_segments_witness :
  l2y (y2l 0.001) = 0.001 * kappa / kappa /\ y2l (l2y 5) = 5 / kappa * kappa.
Proof.
  split.
  - apply (proj1 (cieluv_segments 0.001)). reflexivity.
  - apply (proj2 (cieluv_segments 5)). reflexivity.
Defined.

End SegmentsReference.

(** * Saturation from chroma *)

Section DivSelf.
Local Open Scope Z_scope.

(** The valid number that denotes 1. *)
Lemma out_spec_one (r : spec_float) :
  valid_binary r = true -> out_spec r (2 ^ 52 * 2 ^ (-52 + Bexp)) ->
  r = S754_finite false 4503599627370496 (-52).
Proof.
  intros Hv Ho.
  assert (Hp : 0 < 2 ^ (-52 + Bexp)) by (apply pow2_pos; unfold Bexp; lia).
  destruct r as [[|]|[|]| |[|] m e]; cbn [out_spec] in Ho;
    try (exfalso; exact Ho).
  - assert (0 < 2 ^ 52) by reflexivity. nia.
  - exfalso. rewrite <- Z.pow_add_r in Ho by (unfold Bexp; lia).
    apply Z.pow_le_mono_r_iff in Ho; unfold Bexp in *; lia.
  - pose proof (valid_finite m e Hv) as (He & Hm & Hn).
    assert (Hpe : 0 < 2 ^ (e + Bexp)) by (apply pow2_pos; unfold Bexp; lia).
    rewrite <- (Z.pow_add_r 2 52) in Ho by (unfold Bexp; lia).
    assert (He52 : e = -52).
    { destruct (Z_lt_le_dec (-52) e) as [Hgt|Hle].
      - exfalso. specialize (Hn ltac:(lia)).
        assert (Ha : 2 ^ (52 + (e + Bexp)) <= Zpos m * 2 ^ (e + Bexp)).
        { rewrite (Z.pow_add_r 2 52 (e + Bexp)) by (unfold Bexp; lia).
          apply Z.mul_le_mono_nonneg_r; [lia|exact Hn]. }
        rewrite Ho in Ha. apply Z.pow_le_mono_r_iff in Ha; unfold Bexp in *; lia.
      - destruct (Z.eq_dec e (-52)) as [Heq|Hne]; [exact Heq|exfalso].
        assert (Ha : Zpos m * 2 ^ (e + Bexp) < 2 ^ (53 + (e + Bexp))).
        { rewrite (Z.pow_add_r 2 53 (e + Bexp)) by (unfold Bexp; lia).
          apply Z.mul_lt_mono_pos_r; [exact Hpe|exact Hm]. }
        rewrite Ho in Ha. apply Z.pow_lt_mono_r_iff in Ha; unfold Bexp in *; lia. }
    subst e. replace (52 + (-52 + Bexp)) with Bexp in Ho by lia.
    assert (Hm52 : Zpos m = 2 ^ 52).
    { replace Bexp with (52 + (-52 + Bexp)) in Ho at 2 by lia.
      rewrite (Z.pow_add_r 2 52) in Ho by (unfold Bexp; lia).
      apply Z.mul_cancel_r in Ho; [exact Ho|lia]. }
    change (2 ^ 52) with (Zpos 4503599627370496) in Hm52.
    injection Hm52 as ->. reflexivity.
Qed.

Lemma SFdiv_self (m : positive) (e : Z) :
  valid_binary (S754_finite false m e) = true ->
  valid_binary (SFdiv prec emax (S754_finite false m e) (S754_finite false m e)) = true ->
  SFdiv prec emax (S754_finite false m e) (S754_finite false m e)
  = S754_finite false 4503599627370496 (-52).
Proof.
  intros Hv Hvr. apply out_spec_one; [exact Hvr|].
  destruct (SFdiv_rounds m m e e Hv Hv) as (q & E & Q & Hq & HB & Hz & HX & Hn & Ho).
  replace (e - e + Bexp) with Bexp in HX, Hn by lia.
  assert (HpE : 0 < 2 ^ (E + Bexp)) by (apply pow2_pos; lia).
  assert (HpB : 0 < 2 ^ Bexp) by (apply pow2_pos; unfold Bexp; lia).
  assert (HX' : q * 2 ^ (E + Bexp) <= 2 ^ Bexp < (q + 1) * 2 ^ (E + Bexp)) by nia.
  assert (Hq0 : 0 < q).
  { destruct (Z.eq_dec q 0) as [Hz0|Hnz]; [exfalso|lia].
    specialize (Hz Hz0). subst q. rewrite Z.mul_1_l in HX'.
    destruct HX' as [_ HX']. apply Z.pow_lt_mono_r_iff in HX'; lia. }
  destruct (Zdigits2_bound q Hq) as [Hd0 Hhi].
  pose proof (Zdigits2_lower q Hq0) as Hlo.
  set (d := Zdigits2 q) in *.
  assert (Hd1 : 1 <= d)
    by (unfold d; rewrite Zdigits2_log2 by lia; pose proof (Z.log2_nonneg q); lia).
  assert (HdE : d + E = 1).
  { assert (Ha : 2 ^ (d - 1 + (E + Bexp)) <= 2 ^ Bexp).
    { rewrite Z.pow_add_r by lia. nia. }
    assert (Hb : 2 ^ Bexp < 2 ^ (d + (E + Bexp))).
    { rewrite Z.pow_add_r by lia. nia. }
    apply Z.pow_le_mono_r_iff in Ha; [|lia|unfold Bexp; lia].
    apply Z.pow_lt_mono_r_iff in Hb; [|lia|lia]. lia. }
  rewrite HdE in Hn, Ho. change (fexp prec emax 1) with (-52) in Hn, Ho.
  assert (HQ : Q = 2 ^ 52).
  { destruct Hn as [Hn _].
    assert (Hp : 0 < 2 ^ (-52 + Bexp)) by (apply pow2_pos; unfold Bexp; lia).
    assert (HB52 : 2 ^ Bexp = 2 ^ 52 * 2 ^ (-52 + Bexp)).
    { rewrite <- Z.pow_add_r by (unfold Bexp; lia). f_equal; lia. }
    rewrite HB52 in Hn. set (P := 2 ^ (-52 + Bexp)) in *.
    change (2 ^ 52) with 4503599627370496 in *. nia. }
  rewrite HQ in Ho. exact Ho.
Qed.

End DivSelf.

Section SelfQuotient.

(** A positive finite number divided by itself is 1. *)
Lemma div_self (x : float) :
  (0 <? x) = true -> (x <? infinity) = true -> x / x = 1.
Proof.
  intros H0 Hinf. destruct (pos_finite_cases x H0 Hinf) as (m & e & Hx).
  pose proof (Prim2SF_valid x) as Hv. pose proof (Prim2SF_valid (x / x)) as Hvr.
  apply Prim2SF_inj. rewrite div_spec in *. rewrite Hx in *.
  change (Prim2SF 1) with (S754_finite false 4503599627370496 (-52)).
  apply SFdiv_self; assumption.
Qed.

End SelfQuotient.

Section SaturationScale.
Context {libm : Libm}.

Lemma is_zero_nonneg (z : float) : is_zero z = true -> (0 <=? z) = true.
Proof.
  intros H. apply is_zero_cases in H. destruct H as [s H].
  rewrite leb_spec, H. reflexivity.
Qed.

(** A boundary chroma scaled by a saturation of [0, 100]. *)
Lemma scaled_chroma_range (mx s : float) :
  (0 <=? mx) = true -> (mx <=? FLT_MAX) = true ->
  (0 <=? s) = true -> (s <=? 100) = true ->
  (0 <=? mx / 100 * s) = true /\ (mx / 100 * s <=? FLT_MAX) = true.
Proof.
  intros Hm0 Hmax Hs0 Hs100.
  destruct (div_100_nonneg_finite mx Hm0 (leb_FLT_MAX_finite mx Hmax)) as [Hk0 Hkinf].
  split.
  - apply leb_trans with (mx / 100 * 0).
    + apply is_zero_nonneg, nonneg_finite_mul_zero; assumption.
    + apply mul_le_compat_l; try assumption; [reflexivity|apply leb_100_finite, Hs100].
  - apply leb_trans with (mx / 100 * 100).
    + apply mul_le_compat_l; try assumption; reflexivity.
    + apply leb_trans with (FLT_MAX / 100 * 100); [|reflexivity].
      apply mul_le_mono_pos_r; [reflexivity|reflexivity|].
      apply div_le_mono_pos; [reflexivity|reflexivity|exact Hmax].
Qed.

Lemma saturation_scale (mx c1 c2 : float) :
  (0 <? mx) = true -> (mx <? infinity) = true -> (c1 <=? c2) = true ->
  (c1 / mx * 100 <=? c2 / mx * 100) = true /\ mx / mx * 100 = 100.
Proof.
  intros H0 Hinf Hc. split.
  - apply mul_le_mono_pos_r; [reflexivity|reflexivity|].
    apply div_le_mono_pos; assumption.
  - rewrite div_self by assumption. reflexivity.
Qed.

End SaturationScale.

(** The saturation that [lch2hsluv] computes between the thresholds
    does not decrease when the chroma grows, whatever the signs, as
    long as the boundary chroma is positive; for the boundary chroma
    itself it is exactly 100. *)
Theorem hsluv_saturation_monotone {libm : Libm} (l h c1 c2 : float) :
  (99.9999999 <? l) || (l <? 0.00000001) = false ->
  (0 <? max_chroma_for_lh l h) = true -> (c1 <=? c2) = true ->
  (Triplet.b (lch2hsluv (Triplet.mk l c1 h))
     <=? Triplet.b (lch2hsluv (Triplet.mk l c2 h))) = true /\
  Triplet.b (lch2hsluv (Triplet.mk l (max_chroma_for_lh l h) h)) = 100.
Proof.
  intros Hl Hpos Hc. unfold lch2hsluv. cbn [Triplet.a Triplet.b Triplet.c]. rewrite Hl.
  apply saturation_scale; [exact Hpos| |exact Hc].
  apply (max_chroma_for_lh_range l h).
Qed.

(** The same for [lch2hpluv] and the hue-independent chroma. *)
Theorem hpluv_saturation_monotone {libm : Libm} (l h c1 c2 : float) :
  (99.9999999 <? l) || (l <? 0.00000001) = false ->
  (0 <? max_safe_chroma_for_l l) = true -> (c1 <=? c2) = true ->
  (Triplet.b (lch2hpluv (Triplet.mk l c1 h))
     <=? Triplet.b (lch2hpluv (Triplet.mk l c2 h))) = true /\
  Triplet.b (lch2hpluv (Triplet.mk l (max_safe_chroma_for_l l) h)) = 100.
Proof.
  intros Hl Hpos Hc. unfold lch2hpluv. cbn [Triplet.a Triplet.b Triplet.c]. rewrite Hl.
  apply saturation_scale; [exact Hpos| |exact Hc].
  apply (max_safe_chroma_for_l_range l).
Qed.

(** For a saturation of [0, 100] the chroma that [hsluv2lch] and
    [hpluv2lch] return lies in [0, FLT_MAX], at every lightness and
    hue: it is never negative, infinite or NaN. *)
Theorem chroma_range {libm : Libm} (h s l : float) :
  (0 <=? s) = true -> (s <=? 100) = true ->
  ((0 <=? Triplet.b (hsluv2lch (Triplet.mk h s l))) = true /\
   (Triplet.b (hsluv2lch (Triplet.mk h s l)) <=? FLT_MAX) = true) /\
  ((0 <=? Triplet.b (hpluv2lch (Triplet.mk h s l))) = true /\
   (Triplet.b (hpluv2lch (Triplet.mk h s l)) <=? FLT_MAX) = true).
Proof.
  intros Hs0 Hs100. unfold hsluv2lch, hpluv2lch. cbn [Triplet.a Triplet.b Triplet.c].
  destruct ((99.9999999 <? l) || (l <? 0.00000001)); [repeat split; reflexivity|].
  split; apply scaled_chroma_range; try assumption.
  - rewrite max_chroma_for_lh_fold. apply keep_min_loop_range.
  - rewrite max_chroma_for_lh_fold. apply keep_min_loop_range.
  - rewrite max_safe_chroma_for_l_fold. apply keep_min_loop_range.
  - rewrite max_safe_chroma_for_l_fold. apply keep_min_loop_range.
Qed.

(** An XYZ triple whose luminance is at most 1.1e-11 (also a negative
    one) has a lightness of at most 1e-8, and [luv2xyz] sends what
    [xyz2luv] makes of it to (0,0,0), whatever [X] and [Z]. *)
Theorem dark_xyz_to_black {libm : Libm} (X Y Z : float) :
  (Y <=? 1.1e-11) = true ->
  (Triplet.a (xyz2luv (Triplet.mk X Y Z)) <=? 0.00000001) = true /\
  luv2xyz (xyz2luv (Triplet.mk X Y Z)) = Triplet.mk 0 0 0.
Proof.
  intros HY.
  assert (Hl : (y2l Y <=? 0.00000001) = true).
  { rewrite y2l_low by (apply leb_trans with 1.1e-11; [exact HY|reflexivity]).
    apply leb_trans with (1.1e-11 * kappa); [|reflexivity].
    apply mul_le_mono_pos_r; [reflexivity|reflexivity|exact HY]. }
  assert (Ha : Triplet.a (xyz2luv (Triplet.mk X Y Z)) = y2l Y).
  { unfold xyz2luv. cbn [Triplet.a Triplet.b Triplet.c].
    destruct (y2l Y <? 0.00000001); reflexivity. }
  split; [rewrite Ha; exact Hl|].
  destruct (xyz2luv (Triplet.mk X Y Z)) as [a u v]. cbn [Triplet.a] in Ha. subst a.
  apply luv2xyz_dark, Hl.
Qed.

Section SaturationScaleReference.
#[local] Existing Instance ref_libm.

Lemma hsluv_saturation_monotone_witness :
  (Triplet.b (lch2hsluv (Triplet.mk 50 10 0))
     <=? Triplet.b (lch2hsluv (Triplet.mk 50 20 0))) = true /\
  Triplet.b (lch2hsluv (Triplet.mk 50 (max_chroma_for_lh 50 0) 0)) = 100.
Proof. apply (hsluv_saturation_monotone 50 0 10 20); vm_compute; reflexivity. Defined.

Lemma hpluv_saturation_monotone_witness :
  (Triplet.b (lch2hpluv (Triplet.mk 50 10 0))
     <=? Triplet.b (lch2hpluv (Triplet.mk 50 20 0))) = true /\
  Triplet.b (lch2hpluv (Triplet.mk 50 (max_safe_chroma_for_l 50) 0)) = 100.
Proof. apply (hpluv_saturation_monotone 50 0 10 20); vm_compute; reflexivity. Defined.

Lemma chroma_range_witness :
  ((0 <=? Triplet.b (hsluv2lch (Triplet.mk 120 75 50))) = true /\
   (Triplet.b (hsluv2lch (Triplet.mk 120 75 50)) <=? FLT_MAX) = true) /\
  ((0 <=? Triplet.b (hpluv2lch (Triplet.mk 120 75 50))) = true /\
   (Triplet.b (hpluv2lch (Triplet.mk 120 75 50)) <=? FLT_MAX) = true).
Proof. apply (chroma_range 120 75 50); reflexivity. Defined.

Lemma dark_xyz_to_black_witness :
  (Triplet.a (xyz2luv (Triplet.mk 1e-12 1e-12 1e-12)) <=? 0.00000001) = true /\
  luv2xyz (xyz2luv (Triplet.mk 1e-12 1e-12 1e-12)) = Triplet.mk 0 0 0.
Proof. apply (dark_xyz_to_black 1e-12 1e-12 1e-12). reflexivity. Defined.

End SaturationScaleReference.

(** * Geometry helpers *)

Section Geometry.

Lemma SFadd_comm (x y : spec_float) : SFadd prec emax x y = SFadd prec emax y x.
Proof.
  destruct x as [sx|sx| |sx mx ex], y as [sy|sy| |sy my ey];
    try (repeat match goal with s : bool |- _ => destruct s end; reflexivity).
  cbn [SFadd]. rewrite (Z.min_comm ey ex), Z.add_comm. reflexivity.
Qed.

Lemma add_comm (x y : float) : x + y = y + x.
Proof. apply Prim2SF_inj. rewrite !add_spec. apply SFadd_comm. Qed.

Lemma mul_opp_opp (x : float) : - x * - x = x * x.
Proof.
  apply Prim2SF_inj. rewrite !mul_spec, !opp_spec.
  rewrite SFmul_opp_r, (SFmul_comm (SFopp _)), SFmul_opp_r, SFopp_involutive.
  reflexivity.
Qed.

(** The difference of a number and itself is [+0], or NaN for an
    infinite or NaN operand. *)
Lemma SFsub_self (x : spec_float) :
  SFsub prec emax x x = S754_zero false \/ SFsub prec emax x x = S754_nan.
Proof.
  destruct x as [[|]|[|]| |s m e]; cbn [SFsub]; auto.
  rewrite Z.sub_diag. left. reflexivity.
Qed.

Lemma SFdiv_by_zero_or_nan (n d : spec_float) :
  d = S754_zero false \/ d = S754_nan ->
  SFdiv prec emax n d = S754_nan \/ exists s, SFdiv prec emax n d = S754_infinity s.
Proof.
  intros [->| ->]; destruct n as [s|s| |s m e]; cbn [SFdiv]; eauto.
Qed.

Lemma not_finite (x : float) :
  Prim2SF x = S754_nan \/ (exists s, Prim2SF x = S754_infinity s) ->
  is_finite x = false.
Proof.
  intros H. unfold is_finite, is_nan, is_infinity.
  rewrite !eqb_spec, abs_spec. change (Prim2SF infinity) with (S754_infinity false).
  destruct H as [->|[[|] ->]]; reflexivity.
Qed.

End Geometry.

(** [dot_product] is symmetric in its two triples. *)
Theorem dot_product_symmetric {libm : Libm} (t1 t2 : Triplet.t) :
  dot_product t1 t2 = dot_product t2 t1.
Proof.
  unfold dot_product.
  rewrite (mul_comm (Triplet.a t1)), (mul_comm (Triplet.b t1)), (mul_comm (Triplet.c t1)).
  reflexivity.
Qed.

(** [dist_from_pole] does not depend on the order of the coordinates
    nor on their signs. *)
Theorem dist_from_pole_symmetric {libm : Libm} (x y : float) :
  dist_from_pole x y = dist_from_pole y x /\
  dist_from_pole (- x) y = dist_from_pole x y /\
  dist_from_pole x (- y) = dist_from_pole x y.
Proof.
  unfold dist_from_pole. repeat split.
  - rewrite add_comm. reflexivity.
  - rewrite mul_opp_opp. reflexivity.
  - rewrite mul_opp_opp. reflexivity.
Qed.

(** Two lines of equal slope have no finite intersection abscissa:
    [intersect_line_line] divides by [+0] (or by NaN) and returns an
    infinity or NaN. *)
Theorem intersect_parallel_not_finite {libm : Libm} (line1 line2 : Bounds.t) :
  Bounds.a line1 = Bounds.a line2 ->
  is_finite (intersect_line_line line1 line2) = false.
Proof.
  intros Ha. unfold intersect_line_line. rewrite Ha.
  apply not_finite. rewrite div_spec, (sub_spec (Bounds.a line2)).
  apply SFdiv_by_zero_or_nan, SFsub_self.
Qed.

Section GeometryReference.
#[local] Existing Instance ref_libm.

Lemma intersect_parallel_not_finite_witness :
  is_finite (intersect_line_line (Bounds.mk 2 1) (Bounds.mk 2 5)) = false.
Proof. apply (intersect_parallel_not_finite (Bounds.mk 2 1) (Bounds.mk 2 5)). reflexivity. Defined.

End GeometryReference.

(** * The size of [u] and [v] *)

Section Unit.
Local Open Scope Z_scope.

Lemma rounds_pos_unique (r1 r2 : spec_float) (V : Z) :
  rounds_pos r1 V -> rounds_pos r2 V ->
  valid_binary r1 = true -> valid_binary r2 = true -> r1 = r2.
Proof.
  intros H1 H2 Hv1 Hv2.
  pose proof (rounds_pos_le r1 r2 V V H1 H2 Hv1 Hv2 (Z.le_refl V)) as H12.
  pose proof (rounds_pos_le r2 r1 V V H2 H1 Hv2 Hv1 (Z.le_refl V)) as H21.
  destruct H1 as (M1 & E1 & Q1 & _ & _ & _ & Ho1).
  destruct H2 as (M2 & E2 & Q2 & _ & _ & _ & Ho2).
  destruct r1 as [[|]|[|]| |[|] m1 e1]; try contradiction;
    destruct r2 as [[|]|[|]| |[|] m2 e2]; try contradiction;
    try reflexivity; try discriminate.
  apply SFleb_finite in H12. apply SFleb_finite in H21.
  unfold lex_le in *.
  assert (e1 = e2) by lia. subst e2. assert (m1 = m2) by lia. subst m2. reflexivity.
Qed.

Lemma SFmul_one_pos (m : positive) (e : Z) :
  valid_binary (S754_finite false m e) = true ->
  valid_binary (SFmul prec emax (S754_finite false 4503599627370496 (-52))
                               (S754_finite false m e)) = true ->
  SFmul prec emax (S754_finite false 4503599627370496 (-52)) (S754_finite false m e)
  = S754_finite false m e.
Proof.
  intros Hv Hvr.
  pose proof (valid_finite m e Hv) as (He & _).
  pose proof (SFval_pos (-52 + Bexp) m e ltac:(lia) ltac:(unfold Bexp; lia)) as Hp.
  destruct (SFmul_rounds 4503599627370496 (-52) (S754_finite false m e) I
              ltac:(reflexivity) Hv) as [[H0 _]|[[_ Hr]|[Hn _]]];
    cbn [SFval cond_Zopp] in *; try lia.
  apply (rounds_pos_unique _ _ _ Hr); [|exact Hvr|exact Hv].
  replace (4503599627370496 * (Zpos m * 2 ^ (e + (-52 + Bexp))))
    with (Zpos m * 2 ^ (e + Bexp)).
  - apply valid_rounds_pos, Hv.
  - replace (e + Bexp) with (52 + (e + (-52 + Bexp))) by lia.
    rewrite (Z.pow_add_r 2 52) by (unfold Bexp; lia).
    change (2 ^ 52) with 4503599627370496. ring.
Qed.

End Unit.

Section UnitFloat.

(** 1 is neutral for the multiplication. *)
Lemma mul_1_l (c : float) : 1 * c = c.
Proof.
  apply Prim2SF_inj. pose proof (Prim2SF_valid c) as Hv.
  pose proof (Prim2SF_valid (1 * c)) as Hvr. rewrite mul_spec in *.
  change (Prim2SF 1) with (S754_finite false 4503599627370496 (-52)) in *.
  destruct (Prim2SF c) as [s|s| |[|] m e]; try reflexivity.
  - change (S754_finite true m e) with (SFopp (S754_finite false m e)) in *.
    rewrite SFmul_opp_r in *. rewrite valid_binary_opp in Hvr, Hv.
    f_equal. apply SFmul_one_pos; assumption.
  - apply SFmul_one_pos; assumption.
Qed.

Lemma mul_m1_l (c : float) : -1 * c = - c.
Proof.
  apply Prim2SF_inj. rewrite opp_spec, mul_spec.
  change (Prim2SF (-1)) with (SFopp (Prim2SF 1)).
  rewrite (SFmul_comm (SFopp _)), SFmul_opp_r, (SFmul_comm (Prim2SF c)).
  rewrite <- mul_spec, mul_1_l. reflexivity.
Qed.

(** A factor of [-1, 1] times a non-negative finite number [c] lies in
    [-c, c]. *)
Lemma scaled_by_unit (k c : float) :
  (0 <=? c) = true -> (c <? infinity) = true ->
  (-1 <=? k) = true -> (k <=? 1) = true ->
  (- c <=? k * c) = true /\ (k * c <=? c) = true.
Proof.
  intros Hc0 Hcinf Hlo Hhi.
  destruct (0 <? c) eqn:Hpos.
  - split.
    + rewrite <- (mul_m1_l c). apply mul_le_mono_pos_r; assumption.
    + apply leb_trans with (1 * c); [|rewrite mul_1_l; exact (leb_refl_r _ _ Hc0)].
      apply mul_le_mono_pos_r; assumption.
  - (* [c] is a zero *)
    assert (Hz : is_zero c = true).
    { destruct (nonneg_finite_cases c Hc0 Hcinf) as [[s H]|(m & e & H)].
      - eapply Prim2SF_zero_is_zero, H.
      - rewrite ltb_spec, H in Hpos. discriminate Hpos. }
    assert (Hk : is_finite k = true).
    { rewrite leb_spec in Hlo, Hhi. unfold is_finite, is_nan, is_infinity.
      rewrite !eqb_spec, abs_spec. change (Prim2SF infinity) with (S754_infinity false).
      change (Prim2SF (-1)) with (S754_finite true 4503599627370496 (-52)) in Hlo.
      change (Prim2SF 1) with (S754_finite false 4503599627370496 (-52)) in Hhi.
      destruct (Prim2SF k) as [[|]|[|]| |[|] m e]; try discriminate; try reflexivity;
        cbn [SFabs]; unfold SFeqb, SFcompare;
        rewrite Z.compare_refl, Pos.compare_cont_refl; reflexivity. }
    pose proof (finite_mul_zero k c Hk Hz) as Hkz.
    apply is_zero_cases in Hz. destruct Hz as [s Hs].
    apply is_zero_cases in Hkz. destruct Hkz as [s' Hs'].
    rewrite !leb_spec, opp_spec, Hs, Hs'. split; reflexivity.
Qed.

End UnitFloat.

(** [lch2luv] returns [u] and [v] of size at most the chroma, when the
    chroma is non-negative and finite and [cosf] and [sinf] return
    values of [-1, 1]. *)
Theorem lch2luv_bounded {libm : Libm} (l c h : float) :
  (0 <=? c) = true -> (c <? infinity) = true ->
  (-1 <=? cosf (f32 (h * (2.0 * pi / 360.0)))) = true ->
  (cosf (f32 (h * (2.0 * pi / 360.0))) <=? 1) = true ->
  (-1 <=? sinf (f32 (h * (2.0 * pi / 360.0)))) = true ->
  (sinf (f32 (h * (2.0 * pi / 360.0))) <=? 1) = true ->
  ((- c <=? Triplet.b (lch2luv (Triplet.mk l c h))) = true /\
   (Triplet.b (lch2luv (Triplet.mk l c h)) <=? c) = true) /\
  ((- c <=? Triplet.c (lch2luv (Triplet.mk l c h))) = true /\
   (Triplet.c (lch2luv (Triplet.mk l c h)) <=? c) = true).
Proof.
  intros Hc0 Hcinf Hc1 Hc2 Hs1 Hs2. unfold lch2luv. cbn [Triplet.a Triplet.b Triplet.c].
  split; apply scaled_by_unit; assumption.
Qed.

Section UnitReference.
#[local] Existing Instance ref_libm.

Lemma lch2luv_bounded_witness :
  ((- 30 <=? Triplet.b (lch2luv (Triplet.mk 50 30 120))) = true /\
   (Triplet.b (lch2luv (Triplet.mk 50 30 120)) <=? 30) = true) /\
  ((- 30 <=? Triplet.c (lch2luv (Triplet.mk 50 30 120))) = true /\
   (Triplet.c (lch2luv (Triplet.mk 50 30 120)) <=? 30) = true).
Proof. apply (lch2luv_bounded 50 30 120); vm_compute; reflexivity. Defined.

End UnitReference.

(** * The lightness of dark RGB triples *)

Section DarkRgb.

Lemma SFfinite_is_finite (x : float) : SFfinite (Prim2SF x) -> is_finite x = true.
Proof.
  unfold is_finite, is_nan, is_infinity.
  rewrite !eqb_spec, abs_spec. change (Prim2SF infinity) with (S754_infinity false).
  destruct (Prim2SF x) as [[|]|[|]| |[|] m e]; try contradiction; intros _;
    try reflexivity; cbn [SFabs]; unfold SFeqb, SFcompare;
    rewrite Z.compare_refl, Pos.compare_cont_refl; reflexivity.
Qed.

Lemma between_is_finite (x lo hi : float) :
  is_finite lo = true -> is_finite hi = true ->
  (lo <=? x) = true -> (x <=? hi) = true -> is_finite x = true.
Proof.
  intros Hlo Hhi H1 H2. apply SFfinite_is_finite.
  rewrite leb_spec in H1, H2.
  apply (finite_between (Prim2SF x) (Prim2SF lo) (Prim2SF hi)); try assumption.
  - destruct (is_finite_cases lo Hlo) as [[s ->]|(s & m & e & ->)]; exact I.
  - destruct (is_finite_cases hi Hhi) as [[s ->]|(s & m & e & ->)]; exact I.
Qed.

(** Sums of numbers that stay between finite bounds are ordered as the
    terms. *)
Lemma add_le_mono (x1 x2 y1 y2 lo hi : float) :
  is_finite lo = true -> is_finite hi = true ->
  (lo <=? x1) = true -> (x1 <=? x2) = true -> (x2 <=? hi) = true ->
  (lo <=? y1) = true -> (y1 <=? y2) = true -> (y2 <=? hi) = true ->
  (x1 + y1 <=? x2 + y2) = true.
Proof.
  intros Hlo Hhi Hx1 Hx Hx2 Hy1 Hy Hy2.
  apply leb_trans with (x2 + y1).
  - apply (add_le_mono_r x1 x2 y1 lo hi); try assumption.
    apply (between_is_finite y1 lo hi); try assumption.
    apply leb_trans with y2; assumption.
  - rewrite (add_comm x2 y1), (add_comm x2 y2).
    apply (add_le_mono_r y1 y2 x2 lo hi); try assumption.
    apply (between_is_finite x2 lo hi); try assumption.
    apply leb_trans with x1; assumption.
Qed.

Context {libm : Libm}.

(** A channel of [0, 0.04045] is linearised without the C library. *)
Lemma to_linear_dark (c : float) :
  (0 <=? c) = true -> (c <=? 0.04045) = true ->
  to_linear c = c / 12.92 /\
  (0 <=? c / 12.92) = true /\ (c / 12.92 <=? 0.04045 / 12.92) = true.
Proof.
  intros H0 H1. split; [apply to_linear_low, H1|]. split.
  - change 0 with (0 / 12.92) at 1.
    apply div_le_mono_pos; [reflexivity|reflexivity|exact H0].
  - apply div_le_mono_pos; [reflexivity|reflexivity|exact H1].
Qed.

(** The luminance row of [m_inv] on linear channels of [0, T]. *)
Lemma luminance_bound (T a b c : float) :
  (T <=? 1) = true ->
  (0 <=? a) = true -> (a <=? T) = true ->
  (0 <=? b) = true -> (b <=? T) = true ->
  (0 <=? c) = true -> (c <=? T) = true ->
  let Y := dot_product (row m_inv 1) (Triplet.mk a b c) in
  (0 <=? Y) = true /\
  (Y <=? 0.21263900587151036 * T + 0.71516867876775593 * T
         + 0.072192315360733715 * T) = true.
Proof.
  intros HT Ha0 Ha1 Hb0 Hb1 Hc0 Hc1 Y. unfold Y, dot_product, row.
  cbn [nth m_inv Triplet.a Triplet.b Triplet.c].
  set (m1 := 0.21263900587151036). set (m2 := 0.71516867876775593).
  set (m3 := 0.072192315360733715).
  assert (HT0 : (0 <=? T) = true) by (apply leb_trans with a; assumption).
  assert (Hmul : forall k x, (0 <? k) = true -> (k <? infinity) = true ->
                   (k * 1 <=? 1) = true -> (0 <=? x) = true -> (x <=? T) = true ->
                   (0 <=? k * x) = true /\ (k * x <=? k * T) = true /\
                   (k * T <=? 1) = true).
  { intros k x Hk Hk' Hk1 Hx0 Hx1. split; [|split].
    - apply leb_trans with (k * 0).
      + apply is_zero_nonneg, nonneg_finite_mul_zero; [apply ltb_leb, Hk|exact Hk'].
      + apply mul_le_mono_pos; assumption.
    - apply mul_le_mono_pos; assumption.
    - apply leb_trans with (k * 1); [|exact Hk1]. apply mul_le_mono_pos; assumption. }
  destruct (Hmul m1 a) as (H1l & H1h & H1b); try reflexivity; try assumption.
  destruct (Hmul m2 b) as (H2l & H2h & H2b); try reflexivity; try assumption.
  destruct (Hmul m3 c) as (H3l & H3h & H3b); try reflexivity; try assumption.
  destruct (Hmul m1 T) as (_ & _ & H1T); try reflexivity; try assumption;
    [exact (leb_refl_r _ _ HT0)|].
  assert (H12l : (0 <=? m1 * a + m2 * b) = true).
  { change 0 with (0 + 0) at 1.
    apply (add_le_mono _ _ _ _ 0 1); try reflexivity; try assumption;
      (eapply leb_trans; [eassumption|assumption]). }
  assert (H12h : (m1 * a + m2 * b <=? m1 * T + m2 * T) = true).
  { apply (add_le_mono _ _ _ _ 0 1); try reflexivity; assumption. }
  assert (H12b : (m1 * T + m2 * T <=? 1) = true).
  { apply leb_trans with (m1 * 1 + m2 * 1); [|reflexivity].
    apply (add_le_mono _ _ _ _ 0 1); try reflexivity;
      try (apply mul_le_mono_pos; [reflexivity|reflexivity|exact HT]).
    - eapply leb_trans; [exact H1l|exact H1h].
    - eapply leb_trans; [exact H2l|exact H2h]. }
  split.
  - change 0 with (0 + 0) at 1.
    apply (add_le_mono _ _ _ _ 0 1); try reflexivity; try assumption.
    + eapply leb_trans; [exact H12h|exact H12b].
    + eapply leb_trans; [exact H3h|exact H3b].
  - apply (add_le_mono _ _ _ _ 0 1); try reflexivity; assumption.
Qed.

(** The same on linear channels of [0, 0.04045 / 12.92]. *)
Lemma luminance_dark (a b c : float) :
  (0 <=? a) = true -> (a <=? 0.04045 / 12.92) = true ->
  (0 <=? b) = true -> (b <=? 0.04045 / 12.92) = true ->
  (0 <=? c) = true -> (c <=? 0.04045 / 12.92) = true ->
  let Y := dot_product (row m_inv 1) (Triplet.mk a b c) in
  (0 <=? Y) = true /\ (Y <=? 0x1.9a5c61c57a063p-9) = true.
Proof.
  intros Ha0 Ha1 Hb0 Hb1 Hc0 Hc1.
  apply (luminance_bound (0.04045 / 12.92)); try assumption. reflexivity.
Qed.

Lemma rgb2hsluv_lightness (r g b : float) :
  Triplet.c (rgb2hsluv r g b) = y2l (Triplet.b (rgb2xyz (Triplet.mk r g b))) /\
  Triplet.c (rgb2hpluv r g b) = y2l (Triplet.b (rgb2xyz (Triplet.mk r g b))).
Proof.
  unfold rgb2hsluv, rgb2hpluv, lch2hsluv, lch2hpluv, luv2lch, xyz2luv.
  cbn [Triplet.a Triplet.b Triplet.c].
  destruct (y2l _ <? 0.00000001); split; reflexivity.
Qed.

End DarkRgb.

(** For an RGB triple with every channel in [0, 0.04045] the luminance
    and the lightness are computed without the C library: the luminance
    lies in [0, epsilon], and the lightness that [rgb2hsluv] and
    [rgb2hpluv] return is the luminance times [kappa], in [0, 8]. *)
Theorem dark_rgb_lightness {libm : Libm} (r g b : float) :
  (0 <=? r) = true -> (r <=? 0.04045) = true ->
  (0 <=? g) = true -> (g <=? 0.04045) = true ->
  (0 <=? b) = true -> (b <=? 0.04045) = true ->
  let Y := Triplet.b (rgb2xyz (Triplet.mk r g b)) in
  (0 <=? Y) = true /\ (Y <=? epsilon) = true /\
  Triplet.c (rgb2hsluv r g b) = Y * kappa /\
  Triplet.c (rgb2hpluv r g b) = Y * kappa /\
  (0 <=? Y * kappa) = true /\ (Y * kappa <=? 8) = true.
Proof.
  intros Hr0 Hr1 Hg0 Hg1 Hb0 Hb1 Y.
  destruct (to_linear_dark r Hr0 Hr1) as (Er & Hr0' & Hr1').
  destruct (to_linear_dark g Hg0 Hg1) as (Eg & Hg0' & Hg1').
  destruct (to_linear_dark b Hb0 Hb1) as (Eb & Hb0' & Hb1').
  assert (HY : (0 <=? Y) = true /\ (Y <=? 0x1.9a5c61c57a063p-9) = true).
  { unfold Y, rgb2xyz. cbn [Triplet.a Triplet.b Triplet.c]. rewrite Er, Eg, Eb.
    apply luminance_dark; assumption. }
  destruct HY as [HY0 HY1].
  assert (HYe : (Y <=? epsilon) = true) by (apply leb_trans with 0x1.9a5c61c57a063p-9;
                                            [exact HY1|reflexivity]).
  destruct (rgb2hsluv_lightness r g b) as [Es Ep]. fold Y in Es, Ep.
  rewrite (y2l_low Y HYe) in Es, Ep.
  repeat split; try assumption.
  - change 0 with (0 * kappa) at 1.
    apply mul_le_mono_pos_r; [reflexivity|reflexivity|exact HY0].
  - apply leb_trans with (epsilon * kappa); [|reflexivity].
    apply mul_le_mono_pos_r; [reflexivity|reflexivity|exact HYe].
Qed.

Section DarkRgbReference.
#[local] Existing Instance ref_libm.

Lemma dark_rgb_lightness_witness :
  (0 <=? Triplet.b (rgb2xyz (Triplet.mk 0.01 0.02 0.03))) = true /\
  (Triplet.b (rgb2xyz (Triplet.mk 0.01 0.02 0.03)) <=? epsilon) = true /\
  Triplet.c (rgb2hsluv 0.01 0.02 0.03)
  = Triplet.b (rgb2xyz (Triplet.mk 0.01 0.02 0.03)) * kappa /\
  Triplet.c (rgb2hpluv 0.01 0.02 0.03)
  = Triplet.b (rgb2xyz (Triplet.mk 0.01 0.02 0.03)) * kappa /\
  (0 <=? Triplet.b (rgb2xyz (Triplet.mk 0.01 0.02 0.03)) * kappa) = true /\
  (Triplet.b (rgb2xyz (Triplet.mk 0.01 0.02 0.03)) * kappa <=? 8) = true.
Proof. apply (dark_rgb_lightness 0.01 0.02 0.03); reflexivity. Defined.

End DarkRgbReference.

Section TinyRgb.
Context {libm : Libm}.

(** The lightness of an RGB triple with every channel in [0, 1e-10]. *)
Lemma tiny_rgb_lightness (r g b : float) :
  (0 <=? r) = true -> (r <=? 1e-10) = true ->
  (0 <=? g) = true -> (g <=? 1e-10) = true ->
  (0 <=? b) = true -> (b <=? 1e-10) = true ->
  (y2l (Triplet.b (rgb2xyz (Triplet.mk r g b))) <=? 0.00000001) = true.
Proof.
  intros Hr0 Hr1 Hg0 Hg1 Hb0 Hb1.
  assert (Hlin : forall c, (0 <=? c) = true -> (c <=? 1e-10) = true ->
                   to_linear c = c / 12.92 /\
                   (0 <=? c / 12.92) = true /\ (c / 12.92 <=? 1e-10 / 12.92) = true).
  { intros c H0 H1. split; [|split].
    - apply to_linear_low. apply leb_trans with 1e-10; [exact H1|reflexivity].
    - change 0 with (0 / 12.92) at 1.
      apply div_le_mono_pos; [reflexivity|reflexivity|exact H0].
    - apply div_le_mono_pos; [reflexivity|reflexivity|exact H1]. }
  destruct (Hlin r Hr0 Hr1) as (Er & Hr0' & Hr1').
  destruct (Hlin g Hg0 Hg1) as (Eg & Hg0' & Hg1').
  destruct (Hlin b Hb0 Hb1) as (Eb & Hb0' & Hb1').
  unfold rgb2xyz. cbn [Triplet.a Triplet.b Triplet.c]. rewrite Er, Eg, Eb.
  destruct (luminance_bound (1e-10 / 12.92) _ _ _ ltac:(reflexivity)
              Hr0' Hr1' Hg0' Hg1' Hb0' Hb1') as [_ HY].
  set (Y := dot_product _ _) in *.
  assert (HY' : (Y <=? 1.1e-11) = true) by (eapply leb_trans; [exact HY|reflexivity]).
  rewrite y2l_low by (apply leb_trans with 1.1e-11; [exact HY'|reflexivity]).
  apply leb_trans with (1.1e-11 * kappa); [|reflexivity].
  apply mul_le_mono_pos_r; [reflexivity|reflexivity|exact HY'].
Qed.

End TinyRgb.

(** Every RGB triple with all channels in [0, 1e-10], black included,
    has a lightness of at most 1e-8 and comes back from HSLuv and from
    HPLuv as exactly (0,0,0), with any C library. *)
Theorem tiny_rgb_roundtrip_black {libm : Libm} (r g b : float) :
  (0 <=? r) = true -> (r <=? 1e-10) = true ->
  (0 <=? g) = true -> (g <=? 1e-10) = true ->
  (0 <=? b) = true -> (b <=? 1e-10) = true ->
  (Triplet.c (rgb2hsluv r g b) <=? 0.00000001) = true /\
  hsluv2rgb (Triplet.a (rgb2hsluv r g b)) (Triplet.b (rgb2hsluv r g b))
            (Triplet.c (rgb2hsluv r g b)) = Triplet.mk 0 0 0 /\
  hpluv2rgb (Triplet.a (rgb2hpluv r g b)) (Triplet.b (rgb2hpluv r g b))
            (Triplet.c (rgb2hpluv r g b)) = Triplet.mk 0 0 0.
Proof.
  intros Hr0 Hr1 Hg0 Hg1 Hb0 Hb1.
  pose proof (tiny_rgb_lightness r g b Hr0 Hr1 Hg0 Hg1 Hb0 Hb1) as HL.
  destruct (rgb2hsluv_lightness r g b) as [Es Ep]. rewrite <- Es in HL.
  split; [exact HL|]. split.
  - unfold hsluv2rgb, hsluv2lch, lch2luv. cbn [Triplet.a Triplet.b Triplet.c].
    rewrite luv2xyz_dark by exact HL. apply xyz2rgb_black.
  - rewrite Es, <- Ep in HL.
    unfold hpluv2rgb, hpluv2lch, lch2luv. cbn [Triplet.a Triplet.b Triplet.c].
    rewrite luv2xyz_dark by exact HL. apply xyz2rgb_black.
Qed.

Section TinyRgbReference.
#[local] Existing Instance ref_libm.

Lemma tiny_rgb_roundtrip_black_witness :
  (Triplet.c (rgb2hsluv 1e-11 0 5e-11) <=? 0.00000001) = true /\
  hsluv2rgb (Triplet.a (rgb2hsluv 1e-11 0 5e-11)) (Triplet.b (rgb2hsluv 1e-11 0 5e-11))
            (Triplet.c (rgb2hsluv 1e-11 0 5e-11)) = Triplet.mk 0 0 0 /\
  hpluv2rgb (Triplet.a (rgb2hpluv 1e-11 0 5e-11)) (Triplet.b (rgb2hpluv 1e-11 0 5e-11))
            (Triplet.c (rgb2hpluv 1e-11 0 5e-11)) = Triplet.mk 0 0 0.
Proof. apply (tiny_rgb_roundtrip_black 1e-11 0 5e-11); reflexivity. Defined.

End TinyRgbReference.

(** * A NaN lightness *)

Section NanLightness.

Lemma mul_nan_r (x : float) : x * nan = nan.
Proof.
  apply Prim2SF_inj. rewrite mul_spec. change (Prim2SF nan) with S754_nan.
  destruct (Prim2SF x); reflexivity.
Qed.

Lemma mul_nan_l (x : float) : nan * x = nan.
Proof. rewrite mul_comm. apply mul_nan_r. Qed.

Lemma sub_nan_l (x : float) : nan - x = nan.
Proof. apply Prim2SF_inj. rewrite sub_spec. reflexivity. Qed.

Lemma add_nan_l (x : float) : nan + x = nan.
Proof. apply Prim2SF_inj. rewrite add_spec. reflexivity. Qed.

Lemma div_nan_l (x : float) : nan / x = nan.
Proof. apply Prim2SF_inj. rewrite div_spec. reflexivity. Qed.

Context {libm : Libm}.

(** Every line that [get_bounds] computes for a NaN lightness has a
    NaN intercept. *)
Lemma get_bounds_nan :
  Forall (fun bi => Bounds.b bi = nan) (get_bounds nan).
Proof.
  unfold get_bounds, channel_bounds.
  cbn [flat_map map m app Triplet.a Triplet.b Triplet.c Bounds.b].
  repeat constructor; cbn [Bounds.b];
    rewrite !mul_nan_r, mul_nan_l, sub_nan_l, div_nan_l; reflexivity.
Qed.

Lemma ray_lengths_nan (h : float) :
  Forall (fun v => nonneg v = false) (ray_lengths nan h).
Proof.
  unfold ray_lengths. apply Forall_map.
  eapply Forall_impl; [|exact get_bounds_nan].
  intros bi Hb. cbv beta. rewrite Hb, div_nan_l. reflexivity.
Qed.

Lemma pole_distances_nan :
  Forall (fun v => nonneg v = false) (pole_distances nan).
Proof.
  unfold pole_distances. apply Forall_map.
  eapply Forall_impl; [|exact get_bounds_nan].
  intros bi Hb. unfold pole_distance, intersect_line_line, dist_from_pole.
  cbn [Bounds.a Bounds.b]. rewrite Hb, sub_nan_l, div_nan_l, !mul_nan_l, add_nan_l.
  reflexivity.
Qed.

End NanLightness.

(** A NaN lightness passes the black and white tests, every candidate
    of the two minimum loops is NaN and is skipped, and both boundary
    chroma functions return [FLT_MAX]: the chroma that [hsluv2lch] and
    [hpluv2lch] return is then [FLT_MAX / 100 * s], not NaN. *)
Theorem nan_lightness_sentinel {libm : Libm} (h s : float) :
  max_chroma_for_lh nan h = FLT_MAX /\
  max_safe_chroma_for_l nan = FLT_MAX /\
  Triplet.b (hsluv2lch (Triplet.mk h s nan)) = FLT_MAX / 100 * s /\
  Triplet.b (hpluv2lch (Triplet.mk h s nan)) = FLT_MAX / 100 * s.
Proof.
  assert (H1 : max_chroma_for_lh nan h = FLT_MAX).
  { rewrite max_chroma_for_lh_fold. apply fold_keep_min_none, ray_lengths_nan. }
  assert (H2 : max_safe_chroma_for_l nan = FLT_MAX).
  { rewrite max_safe_chroma_for_l_fold. apply fold_keep_min_none, pole_distances_nan. }
  repeat split; try assumption.
  - unfold hsluv2lch. cbn [Triplet.a Triplet.b Triplet.c].
    change ((99.9999999 <? nan) || (nan <? 0.00000001)) with false. cbv iota.
    rewrite H1. reflexivity.
  - unfold hpluv2lch. cbn [Triplet.a Triplet.b Triplet.c].
    change ((99.9999999 <? nan) || (nan <? 0.00000001)) with false. cbv iota.
    rewrite H2. reflexivity.
Qed.
